(** * Sudoku puzzle engine (src/sudoku.c): shallow embedding and verification

    The engine of [sudoku.c] is embedded function by function.  A [Sudoku]
    value is, as in C, a pair of dimensions and a pointer to a block of
    cells; the blocks live in a heap, so that [has_unique_solution] working
    on a copy and [generate_new_game] juggling three grids are modelled
    with the aliasing the source has.  [rand()] is an explicit infinite
    sequence of non-negative numbers.  The recursive searches carry a fuel
    argument; the theorems show how much fuel is enough. *)

From Stdlib Require Import ZifyNat.
From Stdlib Require QArith.
From stdpp Require Import base numbers option list gmap.

(** ** Types *)

(** [typedef enum { V_None = 0, V_1, ..., V_9 } CellValue;]  The source does
    arithmetic on the enumeration ([val++], [val <= V_9]), so it is embedded
    as a number with named constants. *)
Abbreviation CellValue := nat (only parsing).
Definition V_None : CellValue := 0.
Definition V_1 : CellValue := 1.
Definition V_2 : CellValue := 2.
Definition V_3 : CellValue := 3.
Definition V_4 : CellValue := 4.
Definition V_5 : CellValue := 5.
Definition V_6 : CellValue := 6.
Definition V_7 : CellValue := 7.
Definition V_8 : CellValue := 8.
Definition V_9 : CellValue := 9.

(** [typedef enum { FIXED = 0, DYNAMIC } CellType;] *)
Inductive CellType := FIXED | DYNAMIC.

(** [typedef struct { CellValue value; CellType type; } Cell;] *)
Record Cell := mkCell { value : CellValue; type : CellType }.

(** Addresses of cell blocks; [NULL] is address 0. *)
Abbreviation addr := nat (only parsing).
Definition NULL : addr := 0.

(** [typedef struct { size_t rows, cols; Cell *grid; } Sudoku;] *)
Record Sudoku := mkSudoku { rows : nat; cols : nat; grid : addr }.

(** The heap maps the address of every live block to its cells. *)
Abbreviation heap := (gmap nat (list Cell)) (only parsing).

(** [#define ROWS 9], [#define COLS 9] *)
Definition ROWS : nat := 9.
Definition COLS : nat := 9.

(** The process-wide grids [current_puzzle_grid] and [solution_grid]. *)
Record Globals := mkGlobals { current_puzzle_grid : Sudoku; solution_grid : Sudoku }.

(** [rand()]: the generator state is the sequence of numbers still to be
    drawn; drawing returns its head and leaves its tail. *)
Definition RandState := nat → nat.
Definition rand (r : RandState) : nat * RandState := (r 0, λ n, r (S n)).

(** ** Memory accesses *)

(** The block [s.grid] points to (empty when the pointer is dangling). *)
Definition block (h : heap) (s : Sudoku) : list Cell := default [] (h !! grid s).

(** [s.grid[i]].  Reading outside the block is undefined behaviour in C;
    here it yields a zero cell.  Every theorem below is stated for grids
    whose block has [rows * cols] cells, where no such read occurs. *)
Definition load (h : heap) (s : Sudoku) (i : nat) : Cell :=
  default (mkCell V_None FIXED) (block h s !! i).

Definition set_value (v : CellValue) (c : Cell) : Cell := mkCell v (type c).
Definition set_type (t : CellType) (c : Cell) : Cell := mkCell (value c) t.

(** [s.grid[i].value = v;]  Writing outside the block (undefined behaviour
    in C) leaves the heap as it is. *)
Definition store_value (h : heap) (s : Sudoku) (i : nat) (v : CellValue) : heap :=
  alter (alter (set_value v) i) (grid s) h.

(** [s.grid[i].type = t;] *)
Definition store_type (h : heap) (s : Sudoku) (i : nat) (t : CellType) : heap :=
  alter (alter (set_type t) i) (grid s) h.

(** [game_open]: [calloc] a block of [rows * cols] zeroed cells at an unused
    non-null address.  (Allocation failure exits the process and is not
    modelled.)  The product is computed in [size_t] in C and is exact here;
    the two agree as long as it fits, as it does for the 9x9 grids of the
    program. *)
Definition game_open (h : heap) (rows cols : nat) : Sudoku * heap :=
  let a := fresh ({[NULL]} ∪ dom h) in
  (mkSudoku rows cols a, <[a := replicate (rows * cols) (mkCell V_None FIXED)]> h).

(** [game_close]: [free] the block unless the pointer is null. *)
Definition game_close (h : heap) (sudoku_instance : Sudoku) : heap :=
  if decide (grid sudoku_instance = NULL) then h else delete (grid sudoku_instance) h.

(** [memcpy(dst, src, n * sizeof(Cell))] *)
Definition memcpy (h : heap) (dst src : addr) (n : nat) : heap :=
  match h !! src with
  | Some b => alter (λ d, take n b ++ drop n d) dst h
  | None => h
  end.

(** [grid_fill]: set every cell to [val] and [type]. *)
Definition grid_fill (h : heap) (sudoku_instance : Sudoku) (val : CellValue) (ty : CellType) : heap :=
  foldl (λ h i, store_type (store_value h sudoku_instance i val) sudoku_instance i ty)
        h (seq 0 (rows sudoku_instance * cols sudoku_instance)).

(** ** Constraint checker *)

(** [is_valid]: the three loops with their early [return false]. *)
Definition is_valid (h : heap) (sudoku_instance : Sudoku) (row col : nat) (val : CellValue) : bool :=
  if existsb (λ x, negb (x =? col) &&
                   (value (load h sudoku_instance (row * cols sudoku_instance + x)) =? val))
             (seq 0 (cols sudoku_instance))
  then false
  else if existsb (λ y, negb (y =? row) &&
                        (value (load h sudoku_instance (y * cols sudoku_instance + col)) =? val))
                  (seq 0 (rows sudoku_instance))
  then false
  else
    let boxRow := (row / 3) * 3 in
    let boxCol := (col / 3) * 3 in
    if existsb (λ r, existsb (λ c,
                  let i := (boxRow + r) * cols sudoku_instance + (boxCol + c) in
                  (negb (boxRow + r =? row) || negb (boxCol + c =? col)) &&
                  (value (load h sudoku_instance i) =? val))
                (seq 0 3))
               (seq 0 3)
    then false
    else true.

(** ** Solution generator *)

(** One step of the shuffle: [tmp = numbers[i]; numbers[i] = numbers[j];
    numbers[j] = tmp;] *)
Definition swap (numbers : list CellValue) (i j : nat) : list CellValue :=
  let tmp := default 0 (numbers !! i) in
  let numbers1 := <[i := default 0 (numbers !! j)]> numbers in
  <[j := tmp]> numbers1.

(** [for (int i = 0; i < 9; i++) { int j = rand() % 9; swap }], started at
    [i] with [n] rounds to go. *)
Fixpoint shuffle_from (n i : nat) (numbers : list CellValue) (r : RandState)
  : list CellValue * RandState :=
  match n with
  | 0 => (numbers, r)
  | S n' =>
      let '(x, r') := rand r in
      let j := x mod 9 in
      shuffle_from n' (S i) (swap numbers i j) r'
  end.

Definition shuffle (r : RandState) : list CellValue * RandState :=
  shuffle_from 9 0 [V_1; V_2; V_3; V_4; V_5; V_6; V_7; V_8; V_9] r.

(** The loop "try each shuffled number" of [fill_grid]; [rec] is the
    recursive call on the next cell. *)
Fixpoint fill_try (rec : heap → RandState → option (bool * heap * RandState))
    (sudoku_instance : Sudoku) (row col : nat)
    (numbers : list CellValue) (h : heap) (r : RandState)
  : option (bool * heap * RandState) :=
  match numbers with
  | [] => Some (false, h, r)
  | current_val :: rest =>
      if is_valid h sudoku_instance row col current_val then
        let h1 := store_value h sudoku_instance (row * cols sudoku_instance + col) current_val in
        match rec h1 r with
        | None => None
        | Some (true, h2, r2) => Some (true, h2, r2)
        | Some (false, h2, r2) =>
            let h3 := store_value h2 sudoku_instance (row * cols sudoku_instance + col) V_None in
            fill_try rec sudoku_instance row col rest h3 r2
        end
      else fill_try rec sudoku_instance row col rest h r
  end.

(** [fill_grid].  [cols - 1] is computed on [size_t] in C; it differs from
    the truncated subtraction here only when [cols = 0]. *)
Fixpoint fill_grid (fuel : nat) (h : heap) (r : RandState)
    (sudoku_instance : Sudoku) (row col : nat)
  : option (bool * heap * RandState) :=
  match fuel with
  | 0 => None
  | S fuel' =>
      if row =? rows sudoku_instance then Some (true, h, r)
      else
        let nextRow := if col =? cols sudoku_instance - 1 then row + 1 else row in
        let nextCol := (col + 1) mod cols sudoku_instance in
        let '(numbers, r1) := shuffle r in
        fill_try (λ h' r', fill_grid fuel' h' r' sudoku_instance nextRow nextCol)
                 sudoku_instance row col numbers h r1
  end.

(** ** Solution counter *)

(** The scan of [count_solutions] for the next empty cell, row by row. *)
Definition scan_row (h : heap) (s : Sudoku) (row : nat) : option nat :=
  find (λ col, value (load h s (row * cols s + col)) =? V_None) (seq 0 (cols s)).

Fixpoint scan_rows (h : heap) (s : Sudoku) (rws : list nat) : option (nat * nat) :=
  match rws with
  | [] => None
  | row :: rest =>
      match scan_row h s row with
      | Some col => Some (row, col)
      | None => scan_rows h s rest
      end
  end.

Definition first_empty (h : heap) (s : Sudoku) : option (nat * nat) :=
  scan_rows h s (seq 0 (rows s)).

(** The loop [for (val = V_1; val <= V_9; val++)] of [count_solutions] at
    the empty cell [(row, col)]; [rec] is the recursive call. *)
Fixpoint count_try (rec : heap → option (Z * heap))
    (s : Sudoku) (row col : nat) (limit : Z)
    (vals : list CellValue) (solutions_found : Z) (h : heap)
  : option (Z * heap) :=
  match vals with
  | [] => Some (solutions_found, h)
  | val :: rest =>
      if is_valid h s row col val then
        let i := row * cols s + col in
        let h1 := store_value h s i val in
        match rec h1 with
        | None => None
        | Some (n, h2) =>
            let solutions_found' := (solutions_found + n)%Z in
            let h3 := store_value h2 s i V_None in
            if (limit <=? solutions_found')%Z then Some (solutions_found', h3)
            else count_try rec s row col limit rest solutions_found' h3
        end
      else count_try rec s row col limit rest solutions_found h
  end.

(** [count_solutions].  The running total is an [int] in C and an unbounded
    integer here; the two agree as long as the total fits an [int], as it
    does with the limit 2 of the program (at most 82 on a 9x9 grid). *)
Fixpoint count_solutions (fuel : nat) (h : heap) (sudoku_ptr : Sudoku) (limit : Z)
  : option (Z * heap) :=
  match fuel with
  | 0 => None
  | S fuel' =>
      match first_empty h sudoku_ptr with
      | Some (row, col) =>
          count_try (λ h', count_solutions fuel' h' sudoku_ptr limit)
                    sudoku_ptr row col limit (seq V_1 9) 0%Z h
      | None => Some (1%Z, h)
      end
  end.

(** [has_unique_solution] *)
Definition has_unique_solution (fuel : nat) (h : heap) (sudoku_ptr : Sudoku)
  : option (bool * heap) :=
  let '(copy, h1) := game_open h (rows sudoku_ptr) (cols sudoku_ptr) in
  let h2 := memcpy h1 (grid copy) (grid sudoku_ptr) (rows sudoku_ptr * cols sudoku_ptr) in
  match count_solutions fuel h2 copy 2 with
  | None => None
  | Some (num_solutions, h3) => Some ((num_solutions =? 1)%Z, game_close h3 copy)
  end.

(** ** Puzzle carver *)

(** The closing pass of [remove_cells]: empty cells become [DYNAMIC], the
    others [FIXED]. *)
Definition classify (h : heap) (puzzle_grid : Sudoku) : heap :=
  foldl (λ h i, if value (load h puzzle_grid i) =? V_None
                then store_type h puzzle_grid i DYNAMIC
                else store_type h puzzle_grid i FIXED)
        h (seq 0 (rows puzzle_grid * cols puzzle_grid)).

(** The [while (removed_count < count)] loop of [remove_cells], with
    [probes] bounding the number of iterations and [fuel] given to every
    call of [has_unique_solution]. *)
Fixpoint remove_loop (probes fuel : nat) (h : heap) (r : RandState)
    (puzzle_grid : Sudoku) (count removed_count : Z) : option (heap * RandState) :=
  if (removed_count <? count)%Z then
    match probes with
    | 0 => None
    | S probes' =>
        let '(x, r1) := rand r in
        let row := x mod rows puzzle_grid in
        let '(y, r2) := rand r1 in
        let col := y mod cols puzzle_grid in
        let idx := row * cols puzzle_grid + col in
        let cell := load h puzzle_grid idx in
        if value cell =? V_None then
          remove_loop probes' fuel h r2 puzzle_grid count removed_count
        else
          let backup_value := value cell in
          let h1 := store_value h puzzle_grid idx V_None in
          let h2 := store_type h1 puzzle_grid idx DYNAMIC in
          match has_unique_solution fuel h2 puzzle_grid with
          | None => None
          | Some (false, h3) =>
              let h4 := store_value h3 puzzle_grid idx backup_value in
              let h5 := store_type h4 puzzle_grid idx FIXED in
              remove_loop probes' fuel h5 r2 puzzle_grid count removed_count
          | Some (true, h3) =>
              remove_loop probes' fuel h3 r2 puzzle_grid count (removed_count + 1)%Z
          end
    end
  else Some (h, r).

(** [remove_cells].  [solution_grid_ref] is not used by the source. *)
Definition remove_cells (probes fuel : nat) (h : heap) (r : RandState)
    (puzzle_grid solution_grid_ref : Sudoku) (count : Z) : option (heap * RandState) :=
  match remove_loop probes fuel h r puzzle_grid count 0%Z with
  | None => None
  | Some (h', r') => Some (classify h' puzzle_grid, r')
  end.

(** ** Game session facade *)

(** [generate_new_game].  The result of [fill_grid] is dropped, as in the
    source. *)
Definition generate_new_game (probes fuel : nat) (h : heap) (r : RandState)
    (g : Globals) (cells_to_remove : Z) : option (heap * RandState * Globals) :=
  let '(temp_solution, h1) := game_open h ROWS COLS in
  let h2 := grid_fill h1 temp_solution V_None DYNAMIC in
  match fill_grid fuel h2 r temp_solution 0 0 with
  | None => None
  | Some (_, h3, r1) =>
      let '(sol, h4) :=
        if decide (grid (solution_grid g) = NULL) then game_open h3 ROWS COLS
        else (solution_grid g, h3) in
      let h5 := memcpy h4 (grid sol) (grid temp_solution) (ROWS * COLS) in
      let '(cur, h6) :=
        if decide (grid (current_puzzle_grid g) = NULL) then game_open h5 ROWS COLS
        else (current_puzzle_grid g, h5) in
      let h7 := memcpy h6 (grid cur) (grid temp_solution) (ROWS * COLS) in
      match remove_cells probes fuel h7 r1 cur sol cells_to_remove with
      | None => None
      | Some (h8, r2) => Some (game_close h8 temp_solution, r2, mkGlobals cur sol)
      end
  end.

(** ** Specification vocabulary *)

(** The block of [s] has [rows * cols] cells. *)
Definition wf (h : heap) (s : Sudoku) : Prop :=
  ∃ b, h !! grid s = Some b ∧ length b = rows s * cols s.

(** A standard 9x9 grid. *)
Definition wf9 (h : heap) (s : Sudoku) : Prop :=
  rows s = 9 ∧ cols s = 9 ∧ wf h s.

(** The values of a grid, in row-major order. *)
Definition values (h : heap) (s : Sudoku) : list nat := value <$> block h s.

(** Number of empty cells. *)
Definition empties (vs : list nat) : nat := length (filter (λ v, v = 0) vs).

(** Number of filled cells. *)
Definition filled (vs : list nat) : nat := length (filter (λ v, v ≠ 0) vs).

(** A unit is the list of the nine cells at indices [f 0 .. f 8]. *)
Definition unit_of (vs : list nat) (f : nat → nat) : list nat :=
  (λ p, vs !!! f p) <$> seq 0 9.

(** Rows, columns and 3x3 boxes of a list of 81 values. *)
Definition row_of (vs : list nat) (k : nat) : list nat := unit_of vs (λ x, k * 9 + x).
Definition col_of (vs : list nat) (k : nat) : list nat := unit_of vs (λ y, y * 9 + k).
(** Index of the cell at position [p] of box [k], and back: the box and the
    position in it of cell [i]. *)
Definition box_cell (k p : nat) : nat :=
  (3 * (k / 3) + p / 3) * 9 + (3 * (k mod 3) + p mod 3).
Definition box_index (i : nat) : nat := 3 * (i / 27) + i mod 9 / 3.
Definition box_pos (i : nat) : nat := 3 * (i / 9 mod 3) + i mod 3.
Definition box_of (vs : list nat) (k : nat) : list nat := unit_of vs (box_cell k).

(** A complete valid grid: every row, column and box is a permutation of
    1..9. *)
Definition solved (c : list nat) : Prop :=
  length c = 81 ∧
  ∀ k, k < 9 → row_of c k ≡ₚ seq 1 9 ∧ col_of c k ≡ₚ seq 1 9 ∧ box_of c k ≡ₚ seq 1 9.

(** [c] is a valid completion of the partial grid [g]: it is solved and
    keeps every filled cell of [g]. *)
Definition completion (g c : list nat) : Prop :=
  solved c ∧ ∀ i, i < 81 → g !!! i ≠ 0 → c !!! i = g !!! i.

(** Two cell indices share a row, a column or a box. *)
Definition peer (i j : nat) : Prop :=
  i / 9 = j / 9 ∨ i mod 9 = j mod 9 ∨ (i / 27 = j / 27 ∧ i mod 9 / 3 = j mod 9 / 3).

(** A partial grid whose filled cells hold 1..9 and do not clash. *)
Definition consistent (g : list nat) : Prop :=
  length g = 81 ∧
  (∀ i, i < 81 → g !!! i ≤ 9) ∧
  ∀ i j, i < 81 → j < 81 → i ≠ j → peer i j → g !!! i ≠ 0 → g !!! i ≠ g !!! j.

(** The grid has exactly one valid completion. *)
Definition unique_completion (g : list nat) : Prop :=
  ∃ c, completion g c ∧ ∀ c', completion g c' → c' = c.

(** The three ways [is_valid] can refuse [val] at [(row, col)]: it occurs
    elsewhere in the row, elsewhere in the column, or elsewhere in the 3x3
    box with origin [(3 * (row / 3), 3 * (col / 3))]. *)
Definition row_hit (h : heap) (s : Sudoku) (row col : nat) (val : CellValue) : Prop :=
  ∃ x, x < 9 ∧ x ≠ col ∧ value (load h s (row * 9 + x)) = val.
Definition col_hit (h : heap) (s : Sudoku) (row col : nat) (val : CellValue) : Prop :=
  ∃ y, y < 9 ∧ y ≠ row ∧ value (load h s (y * 9 + col)) = val.
Definition box_hit (h : heap) (s : Sudoku) (row col : nat) (val : CellValue) : Prop :=
  ∃ y x, 3 * (row / 3) ≤ y < 3 * (row / 3) + 3 ∧
         3 * (col / 3) ≤ x < 3 * (col / 3) + 3 ∧
         (y, x) ≠ (row, col) ∧ value (load h s (y * 9 + x)) = val.

(** The grid while [fill_grid] is at cell [k]: the cells before [k] hold
    values that do not clash, the cells from [k] on are empty. *)
Definition filled_upto (k : nat) (vs : list nat) : Prop :=
  consistent vs ∧ (∀ i, i < k → vs !!! i ≠ 0) ∧ (∀ i, k ≤ i < 81 → vs !!! i = 0).

(** The classification the closing pass of [remove_cells] gives a cell. *)
Definition classify_cell (c : Cell) : Cell :=
  mkCell (value c) (if value c =? V_None then DYNAMIC else FIXED).

(** What a count [n] returned with limit 2 says about the set [P] of
    completions: none, exactly one, or at least two. *)
Definition count_spec (n : Z) (P : list nat → Prop) : Prop :=
  (n = 0%Z ∧ ∀ c, ¬ P c) ∨
  (n = 1%Z ∧ ∃ c, P c ∧ ∀ c', P c' → c' = c) ∨
  ((2 ≤ n)%Z ∧ ∃ c1 c2, c1 ≠ c2 ∧ P c1 ∧ P c2).

(** [h'] differs from [h] at most in the cells of the block of [s]. *)
Definition modifies_only (s : Sudoku) (h h' : heap) : Prop :=
  (∀ a, a ≠ grid s → h' !! a = h !! a) ∧
  (is_Some (h' !! grid s) ↔ is_Some (h !! grid s)) ∧
  length (block h' s) = length (block h s).

(** The global grids are either not yet allocated or two distinct live 9x9
    blocks. *)
Definition globals_ok (h : heap) (g : Globals) : Prop :=
  (grid (solution_grid g) = NULL ∨ wf9 h (solution_grid g)) ∧
  (grid (current_puzzle_grid g) = NULL ∨ wf9 h (current_puzzle_grid g)) ∧
  (grid (solution_grid g) ≠ NULL → grid (current_puzzle_grid g) ≠ NULL →
   grid (solution_grid g) ≠ grid (current_puzzle_grid g)).

(** ** Concrete grids used in the examples *)

Definition cells_of (vs : list nat) : list Cell := (λ v, mkCell v FIXED) <$> vs.
Definition heap_of (vs : list nat) : gmap nat (list Cell) := {[ 1 := cells_of vs ]}.
Definition s9 : Sudoku := mkSudoku 9 9 1.

(** A solved grid. *)
Definition solved_vals : list nat :=
  [1; 2; 3; 4; 5; 6; 7; 8; 9;
   4; 5; 6; 7; 8; 9; 1; 2; 3;
   7; 8; 9; 1; 2; 3; 4; 5; 6;
   2; 3; 4; 5; 6; 7; 8; 9; 1;
   5; 6; 7; 8; 9; 1; 2; 3; 4;
   8; 9; 1; 2; 3; 4; 5; 6; 7;
   3; 4; 5; 6; 7; 8; 9; 1; 2;
   6; 7; 8; 9; 1; 2; 3; 4; 5;
   9; 1; 2; 3; 4; 5; 6; 7; 8].

(** The solved grid with its first 24 cells cleared. *)
Definition open24_vals : list nat := replicate 24 0 ++ drop 24 solved_vals.

(** A full grid that breaks the rules: the solved grid with a second 2 in
    its first row. *)
Definition clash_vals : list nat := <[0 := 2]> solved_vals.

(** A sample random sequence that reaches every cell. *)
Definition sample_rand : RandState := λ n, if Nat.even n then n / 2 else n / 18.

(** No globals allocated yet, as at program start. *)
Definition fresh_globals : Globals := mkGlobals (mkSudoku 0 0 NULL) (mkSudoku 0 0 NULL).

(** ** Further vocabulary *)

(** The classifications of a grid, in row-major order. *)
Definition types (h : heap) (s : Sudoku) : list CellType := type <$> block h s.

(** Two grids of the same dimensions holding the same values. *)
Definition same_grid (h1 : heap) (s1 : Sudoku) (h2 : heap) (s2 : Sudoku) : Prop :=
  rows s1 = rows s2 ∧ cols s1 = cols s2 ∧ values h1 s1 = values h2 s2.

(** [h'] differs from [h] at most in the values of the cells of [s] from
    index [k] on. *)
Definition writes_from (k : nat) (s : Sudoku) (h h' : heap) : Prop :=
  modifies_only s h h' ∧ types h' s = types h s ∧
  ∀ i, i < k → values h' s !!! i = values h s !!! i.

(** The largest [int], for the 32-bit [int] of the platforms the program is
    built for. *)
Definition INT_MAX : Z := 2147483647.

(** ** The session ([main]) *)

(** [typedef enum { STATE_MENU, STATE_PLAYING, STATE_WIN, STATE_LOSE } GameState;] *)
Inductive GameState := STATE_MENU | STATE_PLAYING | STATE_WIN | STATE_LOSE.

(** The scalar globals of the session: [gameState], [selectedRow],
    [selectedCol], [selectedDifficulty], [mistakeCount] and [score].  The
    clock ([startTime], [elapsed]) is an input of each frame. *)
Record Session := mkSession {
  gameState : GameState;
  selectedRow : Z;
  selectedCol : Z;
  selectedDifficulty : Z;
  mistakeCount : Z;
  score : Z
}.

(** The key codes of raylib the source names; the header is not part of the
    repository, so they are taken as parameters. *)
Record KeyCodes := mkKeyCodes {
  KEY_ZERO : Z;
  KEY_ONE : Z;
  KEY_TWO : Z;
  KEY_THREE : Z;
  KEY_NINE : Z;
  KEY_R : Z;
  KEY_BACKSPACE : Z;
  KEY_DELETE : Z
}.

(** What a frame reads from the outside: [IsKeyPressed], the position of a
    left click if there is one ([IsMouseButtonPressed], [GetMousePosition];
    a finite [float] is a rational), and [(int)elapsed]. *)
Record Input := mkInput {
  key_pressed : Z → bool;
  mouse_click : option (QArith_base.Q * QArith_base.Q);
  elapsed : Z
}.

(** [#define windowWidth 900] and its siblings. *)
Definition windowWidth : Z := 900.
Definition windowHeight : Z := 900.
Definition cellWidth : Z := Z.quot windowWidth (Z.of_nat COLS).
Definition cellHeight : Z := Z.quot windowHeight (Z.of_nat ROWS).

(** [#define EASY_CELLS_REMOVED 35] and its siblings. *)
Definition EASY_CELLS_REMOVED : Z := 35.
Definition MEDIUM_CELLS_REMOVED : Z := 45.
Definition HARD_CELLS_REMOVED : Z := 55.

Definition is_dynamic (t : CellType) : bool :=
  match t with DYNAMIC => true | FIXED => false end.

(** The cast [(int)x] of a [float]: truncation towards zero. *)
Definition trunc (x : QArith_base.Q) : Z :=
  Z.quot (QArith_base.Qnum x) (Z.pos (QArith_base.Qden x)).

(** [x < y] on rationals, as a test. *)
Definition Qlt_bool (x y : QArith_base.Q) : bool := negb (QArith_base.Qle_bool y x).

Definition select (row col : Z) (ss : Session) : Session :=
  mkSession (gameState ss) row col (selectedDifficulty ss) (mistakeCount ss) (score ss).

(** The mouse handling of a frame: a left click inside the window selects
    the cell under the pointer, a click outside drops the selection. *)
Definition mouse_select (click : option (QArith_base.Q * QArith_base.Q)) (ss : Session) : Session :=
  match click with
  | None => ss
  | Some (mouse_x, mouse_y) =>
      if QArith_base.Qle_bool (QArith_base.inject_Z 0) mouse_x &&
         Qlt_bool mouse_x (QArith_base.inject_Z windowWidth) &&
         QArith_base.Qle_bool (QArith_base.inject_Z 0) mouse_y &&
         Qlt_bool mouse_y (QArith_base.inject_Z windowHeight)
      then select (Z.quot (trunc mouse_y) cellHeight) (Z.quot (trunc mouse_x) cellWidth) ss
      else select (-1) (-1) ss
  end.

(** The loop of [main] that looks for a [DYNAMIC] cell still empty
    ([all_filled], with its [break]). *)
Definition all_filled (h : heap) (g : Globals) : bool :=
  forallb (λ i, negb (is_dynamic (type (load h (current_puzzle_grid g) i)) &&
                      (value (load h (current_puzzle_grid g) i) =? V_None)))
          (seq 0 (ROWS * COLS)).

(** The index [selectedRow * COLS + selectedCol]. *)
Definition selected_index (ss : Session) : nat :=
  Z.to_nat (selectedRow ss * Z.of_nat COLS + selectedCol ss).

(** One round of the loop [for (key = KEY_ONE; key <= KEY_NINE; key++)] of
    [main]: [pressed] is [IsKeyPressed] during the frame and [secs] is
    [(int)elapsed]. *)
Definition number_key (kc : KeyCodes) (pressed : Z → bool) (secs : Z) (g : Globals)
    (st : heap * Session) (key : Z) : heap * Session :=
  let '(h, ss) := st in
  if pressed key && (0 <=? selectedRow ss)%Z && (0 <=? selectedCol ss)%Z then
    let idx := selected_index ss in
    let current_cell := load h (current_puzzle_grid g) idx in
    let correct_value := value (load h (solution_grid g) idx) in
    if is_dynamic (type current_cell) then
      let guess := (key - KEY_ZERO kc)%Z in
      if (guess =? Z.of_nat correct_value)%Z then
        let h1 := store_value h (current_puzzle_grid g) idx (Z.to_nat guess) in
        if all_filled h1 g then
          let score0 := (1000 - secs - mistakeCount ss * 100)%Z in
          (h1, mkSession STATE_WIN (selectedRow ss) (selectedCol ss)
                 (selectedDifficulty ss) (mistakeCount ss)
                 (if (score0 <? 0)%Z then 0%Z else score0))
        else (h1, ss)
      else
        let mistakes := (mistakeCount ss + 1)%Z in
        (h, mkSession (if (3 <=? mistakes)%Z then STATE_LOSE else gameState ss)
              (selectedRow ss) (selectedCol ss) (selectedDifficulty ss)
              mistakes (score ss))
    else (h, ss)
  else (h, ss).

(** The whole loop over the number keys. *)
Definition number_keys (kc : KeyCodes) (pressed : Z → bool) (secs : Z) (g : Globals)
    (st : heap * Session) : heap * Session :=
  foldl (number_key kc pressed secs g) st
        (seqZ (KEY_ONE kc) (KEY_NINE kc - KEY_ONE kc + 1)).

(** Backspace or delete clears the selected cell when it is [DYNAMIC]. *)
Definition clear_key (kc : KeyCodes) (pressed : Z → bool) (g : Globals)
    (st : heap * Session) : heap * Session :=
  let '(h, ss) := st in
  if (pressed (KEY_BACKSPACE kc) || pressed (KEY_DELETE kc)) &&
     (0 <=? selectedRow ss)%Z && (0 <=? selectedCol ss)%Z then
    let idx := selected_index ss in
    if is_dynamic (type (load h (current_puzzle_grid g) idx)) then
      (store_value h (current_puzzle_grid g) idx V_None, ss)
    else (h, ss)
  else (h, ss).

(** The input handling of a frame in [STATE_PLAYING], guarded by
    [mistakeCount < 3]: mouse, number keys, backspace and delete. *)
Definition playing_input (kc : KeyCodes) (inp : Input) (g : Globals)
    (st : heap * Session) : heap * Session :=
  if (mistakeCount (snd st) <? 3)%Z then
    clear_key kc (key_pressed inp) g
      (number_keys kc (key_pressed inp) (elapsed inp) g
         (fst st, mouse_select (mouse_click inp) (snd st)))
  else st.

(** The difficulty selection of a frame in [STATE_MENU]: on key 1, 2 or 3 a
    new game is generated and the session is reset. *)
Definition menu_input (kc : KeyCodes) (pressed : Z → bool) (probes fuel : nat)
    (h : heap) (r : RandState) (g : Globals) (ss : Session)
  : option (heap * RandState * Globals * Session) :=
  if pressed (KEY_ONE kc) || pressed (KEY_TWO kc) || pressed (KEY_THREE kc) then
    let difficulty :=
      if pressed (KEY_ONE kc) then EASY_CELLS_REMOVED
      else if pressed (KEY_TWO kc) then MEDIUM_CELLS_REMOVED
      else HARD_CELLS_REMOVED in
    match generate_new_game probes fuel h r g difficulty with
    | None => None
    | Some (h', r', g') =>
        Some (h', r', g', mkSession STATE_PLAYING (-1) (-1) difficulty 0 0)
    end
  else Some (h, r, g, ss).

(** The end screens: R goes back to the menu. *)
Definition restart_key (kc : KeyCodes) (pressed : Z → bool) (ss : Session) : Session :=
  if pressed (KEY_R kc) then
    mkSession STATE_MENU (selectedRow ss) (selectedCol ss) (selectedDifficulty ss)
              (mistakeCount ss) (score ss)
  else ss.

(** One round of the game loop of [main], drawing left out. *)
Definition frame (kc : KeyCodes) (probes fuel : nat) (inp : Input)
    (st : heap * RandState * Globals * Session)
  : option (heap * RandState * Globals * Session) :=
  let '(h, r, g, ss) := st in
  match gameState ss with
  | STATE_MENU => menu_input kc (key_pressed inp) probes fuel h r g ss
  | STATE_PLAYING =>
      let '(h', ss') := playing_input kc inp g (h, ss) in Some (h', r, g, ss')
  | STATE_WIN | STATE_LOSE => Some (h, r, g, restart_key kc (key_pressed inp) ss)
  end.

(** The game loop over the frames until the window is closed. *)
Fixpoint game_loop (kc : KeyCodes) (probes fuel : nat) (inps : list Input)
    (st : heap * RandState * Globals * Session)
  : option (heap * RandState * Globals * Session) :=
  match inps with
  | [] => Some st
  | inp :: inps =>
      match frame kc probes fuel inp st with
      | None => None
      | Some st' => game_loop kc probes fuel inps st'
      end
  end.

(** The scalar globals as their initialisers leave them. *)
Definition initial_session : Session := mkSession STATE_MENU (-1) (-1) 0 0 0.

(** [main]: the game loop, then [game_close] of both grids.  The result is
    the heap the process leaves. *)
Definition main (kc : KeyCodes) (probes fuel : nat) (inps : list Input)
    (h : heap) (r : RandState) : option heap :=
  match game_loop kc probes fuel inps (h, r, fresh_globals, initial_session) with
  | None => None
  | Some (h', _, g, _) =>
      Some (game_close (game_close h' (current_puzzle_grid g)) (solution_grid g))
  end.

(** What the session keeps true while a game is played: the two grids are
    distinct live 9x9 blocks, the solution is a solved grid, every filled
    puzzle cell holds the solution's value, and [FIXED] cells are filled. *)
Definition answer_key_inv (h : heap) (g : Globals) : Prop :=
  wf9 h (current_puzzle_grid g) ∧ wf9 h (solution_grid g) ∧
  grid (current_puzzle_grid g) ≠ grid (solution_grid g) ∧
  solved (values h (solution_grid g)) ∧
  (∀ i, i < 81 → values h (current_puzzle_grid g) !!! i = 0 ∨
                 values h (current_puzzle_grid g) !!! i = values h (solution_grid g) !!! i) ∧
  (∀ i, i < 81 → type (load h (current_puzzle_grid g) i) = FIXED →
                 value (load h (current_puzzle_grid g) i) ≠ V_None).

(** What key input may do to the heap: change the value of the puzzle cell
    at [idx], and only when that cell is not [FIXED]. *)
Definition input_frame (g : Globals) (idx : nat) (h h' : heap) : Prop :=
  modifies_only (current_puzzle_grid g) h h' ∧
  types h' (current_puzzle_grid g) = types h (current_puzzle_grid g) ∧
  (∀ i, i ≠ idx → values h' (current_puzzle_grid g) !!! i =
                  values h (current_puzzle_grid g) !!! i) ∧
  (type (load h (current_puzzle_grid g) idx) = FIXED → h' = h).

(** A frame in which exactly the key [k] is down. *)
Definition only_key (k : Z) : Z → bool := λ key, (key =? k)%Z.

(** The selection is a cell of the board or the marker -1 for none. *)
Definition on_board (ss : Session) : Prop :=
  (0 ≤ selectedRow ss < 9)%Z ∧ (0 ≤ selectedCol ss < 9)%Z.
Definition selection_ok (ss : Session) : Prop :=
  (selectedRow ss = -1 ∧ selectedCol ss = -1)%Z ∨ on_board ss.

(** The session once the puzzle is completed, and after a wrong guess. *)
Definition won (secs : Z) (ss : Session) : Session :=
  mkSession STATE_WIN (selectedRow ss) (selectedCol ss) (selectedDifficulty ss)
            (mistakeCount ss)
            (if (1000 - secs - mistakeCount ss * 100 <? 0)%Z then 0%Z
             else (1000 - secs - mistakeCount ss * 100)%Z).
Definition mistaken (ss : Session) : Session :=
  mkSession (if (3 <=? mistakeCount ss + 1)%Z then STATE_LOSE else gameState ss)
            (selectedRow ss) (selectedCol ss) (selectedDifficulty ss)
            (mistakeCount ss + 1) (score ss).

Definition same_selection (ss ss' : Session) : Prop :=
  selectedRow ss' = selectedRow ss ∧ selectedCol ss' = selectedCol ss.

(** Keys do nothing: no cell is selected, or the selected cell is [FIXED]. *)
Definition idle (g : Globals) (h : heap) (ss : Session) : Prop :=
  ¬ ((0 ≤ selectedRow ss)%Z ∧ (0 ≤ selectedCol ss)%Z) ∨
  type (load h (current_puzzle_grid g) (selected_index ss)) = FIXED.

(** What the keys of a frame may do. *)
Definition key_effect (g : Globals) (h : heap) (ss : Session)
    (h' : heap) (ss' : Session) : Prop :=
  input_frame g (selected_index ss) h h' ∧ same_selection ss ss' ∧
  (mistakeCount ss ≤ mistakeCount ss')%Z ∧
  (idle g h ss → h' = h ∧ ss' = ss).

(** The counters of a session: the mistakes are counted from zero, a game
    being played has fewer than three, a lost game at least three, and the
    score is not negative. *)
Definition tally_ok (ss : Session) : Prop :=
  (0 ≤ mistakeCount ss)%Z ∧
  (gameState ss = STATE_PLAYING → (mistakeCount ss < 3)%Z) ∧
  (gameState ss = STATE_LOSE → (3 ≤ mistakeCount ss)%Z) ∧
  (0 ≤ score ss)%Z.

(** Both global grids have been allocated. *)
Definition allocated (g : Globals) : Prop :=
  grid (current_puzzle_grid g) ≠ NULL ∧ grid (solution_grid g) ≠ NULL.

(** What holds of the session between two frames: outside the menu there
    is a game, with its answer key. *)
Definition session_inv (h : heap) (g : Globals) (ss : Session) : Prop :=
  globals_ok h g ∧ selection_ok ss ∧
  (gameState ss ≠ STATE_MENU → answer_key_inv h g ∧ allocated g) ∧
  tally_ok ss.

(** The heap [h] is [h0] plus the blocks of the global grids. *)
Definition owns_only (h0 h : heap) (g : Globals) : Prop :=
  ∀ a, if decide ((a = grid (current_puzzle_grid g) ∨ a = grid (solution_grid g)) ∧ a ≠ NULL)
       then h0 !! a = None else h !! a = h0 !! a.

(** The first 24 cells of the solved grid, the rest empty. *)
Definition prefix24_vals : list nat := take 24 solved_vals ++ replicate 57 0.

(** A sample session: the key codes of raylib, a game in which only the
    first cell is left to fill, and the first cell selected. *)
Definition sample_keys : KeyCodes := mkKeyCodes 48 49 50 51 57 82 259 261.
Definition play_heap : gmap nat (list Cell) :=
  {[ 1 := <[0 := mkCell V_None DYNAMIC]> (cells_of solved_vals); 2 := cells_of solved_vals ]}.
Definition play_globals : Globals := mkGlobals (mkSudoku 9 9 1) (mkSudoku 9 9 2).
Definition sample_session : Session := mkSession STATE_PLAYING 0 0 35 0 0.
Definition key_only (k : Z) : Input := mkInput (only_key k) None 10.
Definition sample_click : Input :=
  mkInput (λ _, false) (Some (QArith_base.Qmake 501 2, QArith_base.Qmake 40 1)) 5.
Definition sample_inputs : list Input :=
  [key_only 49; sample_click; key_only 53; key_only 259; key_only 82].

(** * Lemmas *)

(** * Memory lemmas *)

Lemma block_store_value (h : gmap nat (list Cell)) s i v :
  block (store_value h s i v) s = alter (set_value v) i (block h s).
Proof.
  unfold block, store_value. rewrite lookup_alter_eq.
  by destruct (h !! grid s).
Qed.

Lemma block_store_type (h : gmap nat (list Cell)) s i t :
  block (store_type h s i t) s = alter (set_type t) i (block h s).
Proof.
  unfold block, store_type. rewrite lookup_alter_eq.
  by destruct (h !! grid s).
Qed.

Lemma values_alter_value (l : list Cell) i v :
  value <$> alter (set_value v) i l = <[i := v]> (value <$> l).
Proof.
  revert i. induction l as [|c l IH]; intros [|i]; simpl; f_equal; try done.
  apply IH.
Qed.

Lemma values_alter_type (l : list Cell) i t :
  value <$> alter (set_type t) i l = value <$> l.
Proof.
  revert i. induction l as [|c l IH]; intros [|i]; simpl; f_equal; try done.
  apply IH.
Qed.

Lemma values_store_value (h : gmap nat (list Cell)) s i v :
  values (store_value h s i v) s = <[i := v]> (values h s).
Proof. unfold values. by rewrite block_store_value, values_alter_value. Qed.

Lemma values_store_type (h : gmap nat (list Cell)) s i t :
  values (store_type h s i t) s = values h s.
Proof. unfold values. by rewrite block_store_type, values_alter_type. Qed.

Lemma value_load (h : gmap nat (list Cell)) s i :
  value (load h s i) = values h s !!! i.
Proof.
  unfold load, values. rewrite list_lookup_total_alt, list_lookup_fmap.
  by destruct (block h s !! i).
Qed.

Lemma length_values (h : gmap nat (list Cell)) s :
  length (values h s) = length (block h s).
Proof. unfold values. by rewrite length_fmap. Qed.

Lemma wf_length (h : gmap nat (list Cell)) s :
  wf h s → length (values h s) = rows s * cols s.
Proof.
  intros (b & Hb & Hlen). rewrite length_values. unfold block. by rewrite Hb.
Qed.

Lemma wf9_length (h : gmap nat (list Cell)) s : wf9 h s → length (values h s) = 81.
Proof. intros (Hr & Hc & Hwf). rewrite (wf_length _ _ Hwf), Hr, Hc. done. Qed.

(** Clearing a cell that was empty before a value was placed in it gives
    back the heap one started from. *)
Lemma store_value_restore (h : gmap nat (list Cell)) s i v :
  value (load h s i) = V_None →
  store_value (store_value h s i v) s i V_None = h.
Proof.
  intros Hv. unfold store_value. apply map_eq. intros a.
  destruct (decide (a = grid s)) as [->|Hne].
  - rewrite !lookup_alter_eq.
    unfold load, block in Hv.
    destruct (h !! grid s) as [b|] eqn:Hb; simpl in *; [|done].
    f_equal. apply list_eq. intros j.
    destruct (decide (j = i)) as [->|Hji].
    + rewrite !list_lookup_alter_eq.
      destruct (b !! i) as [[cv ct]|]; simpl in *; [|done].
      unfold set_value. simpl. by rewrite Hv.
    + by rewrite !list_lookup_alter_ne.
  - by rewrite !lookup_alter_ne.
Qed.

(** Putting back the value a cell held. *)
Lemma store_value_back (h : gmap nat (list Cell)) s i v :
  values (store_value (store_value h s i V_None) s i v) s = <[i := v]> (values h s).
Proof. by rewrite !values_store_value, list_insert_insert_eq. Qed.

(** * Frames *)

Lemma modifies_only_refl s (h : gmap nat (list Cell)) : modifies_only s h h.
Proof. by repeat split. Qed.

Lemma modifies_only_trans s (h1 h2 h3 : gmap nat (list Cell)) :
  modifies_only s h1 h2 → modifies_only s h2 h3 → modifies_only s h1 h3.
Proof.
  intros (A1 & B1 & C1) (A2 & B2 & C2). split; [|split].
  - intros a Ha. by rewrite A2, A1.
  - by rewrite B2.
  - by rewrite C2.
Qed.

Lemma modifies_only_store_value s (h : gmap nat (list Cell)) i v :
  modifies_only s h (store_value h s i v).
Proof.
  split; [|split].
  - intros a Ha. unfold store_value. by rewrite lookup_alter_ne.
  - unfold store_value. rewrite lookup_alter_eq. by rewrite fmap_is_Some.
  - by rewrite block_store_value, length_alter.
Qed.

Lemma modifies_only_store_type s (h : gmap nat (list Cell)) i t :
  modifies_only s h (store_type h s i t).
Proof.
  split; [|split].
  - intros a Ha. unfold store_type. by rewrite lookup_alter_ne.
  - unfold store_type. rewrite lookup_alter_eq. by rewrite fmap_is_Some.
  - by rewrite block_store_type, length_alter.
Qed.

Lemma modifies_only_wf s (h h' : gmap nat (list Cell)) :
  modifies_only s h h' → wf h s → wf h' s.
Proof.
  intros (_ & Hs & Hl) (b & Hb & Hlen).
  destruct Hs as [_ Hs]. destruct Hs as [b' Hb']; [by rewrite Hb|].
  exists b'. split; [done|]. unfold block in Hl. rewrite Hb, Hb' in Hl. simpl in Hl. congruence.
Qed.

Lemma modifies_only_wf9 s (h h' : gmap nat (list Cell)) :
  modifies_only s h h' → wf9 h s → wf9 h' s.
Proof. intros Hm (Hr & Hc & Hwf). repeat split; eauto using modifies_only_wf. Qed.

Lemma modifies_only_block s s' (h h' : gmap nat (list Cell)) :
  modifies_only s h h' → grid s' ≠ grid s → block h' s' = block h s'.
Proof. intros (A & _) Hne. unfold block. by rewrite A. Qed.

Lemma modifies_only_wf_other s s' (h h' : gmap nat (list Cell)) :
  modifies_only s h h' → grid s' ≠ grid s → wf h s' → wf h' s'.
Proof. intros (A & _) Hne (b & Hb & Hl). exists b. by rewrite A. Qed.

(** * The constraint checker *)

Lemma existsb_seq_true (f : nat → bool) n :
  existsb f (seq 0 n) = true ↔ ∃ x, x < n ∧ f x = true.
Proof.
  rewrite existsb_exists. split.
  - intros (x & Hin & Hf). apply in_seq in Hin. exists x. split; [lia|done].
  - intros (x & Hlt & Hf). exists x. split; [apply in_seq; lia|done].
Qed.

Lemma existsb_seq_false (f : nat → bool) n :
  existsb f (seq 0 n) = false ↔ ∀ x, x < n → f x = false.
Proof.
  split.
  - intros He x Hx. destruct (f x) eqn:Hf; [|done].
    assert (existsb f (seq 0 n) = true) by (apply existsb_seq_true; eauto). congruence.
  - intros Hall. destruct (existsb f (seq 0 n)) eqn:He; [|done].
    apply existsb_seq_true in He as (x & Hx & Hf). rewrite Hall in Hf; done.
Qed.

Lemma is_valid_false_iff (h : gmap nat (list Cell)) s row col val :
  rows s = 9 → cols s = 9 →
  is_valid h s row col val = false ↔
  row_hit h s row col val ∨ col_hit h s row col val ∨ box_hit h s row col val.
Proof.
  intros Hr Hc. unfold is_valid. rewrite Hr, Hc.
  destruct (existsb _ (seq 0 9)) eqn:E1.
  { split; [intros _|done]. left.
    apply existsb_seq_true in E1 as (x & Hx & Hf).
    apply andb_true_iff in Hf as [Hne Heq].
    apply negb_true_iff, Nat.eqb_neq in Hne. apply Nat.eqb_eq in Heq.
    by exists x. }
  destruct (existsb (λ y, negb (y =? row) && _) (seq 0 9)) eqn:E2.
  { split; [intros _|done]. right; left.
    apply existsb_seq_true in E2 as (y & Hy & Hf).
    apply andb_true_iff in Hf as [Hne Heq].
    apply negb_true_iff, Nat.eqb_neq in Hne. apply Nat.eqb_eq in Heq.
    by exists y. }
  destruct (existsb _ (seq 0 3)) eqn:E3.
  { split; [intros _|done]. right; right.
    apply existsb_seq_true in E3 as (r & Hr3 & Hf).
    apply existsb_seq_true in Hf as (c & Hc3 & Hf).
    apply andb_true_iff in Hf as [Hne Heq]. apply Nat.eqb_eq in Heq.
    exists (row / 3 * 3 + r), (col / 3 * 3 + c).
    split; [lia|]. split; [lia|]. split; [|done].
    intros [Ha Hb]%pair_equal_spec.
    apply orb_true_iff in Hne as [Hne|Hne];
      apply negb_true_iff, Nat.eqb_neq in Hne; done. }
  split; [done|]. intros [Hrow|[Hcol|Hbox]]; exfalso.
  - destruct Hrow as (x & Hx & Hne & Heq).
    rewrite existsb_seq_false in E1. specialize (E1 x Hx).
    apply andb_false_iff in E1 as [E1|E1].
    + apply negb_false_iff, Nat.eqb_eq in E1. done.
    + apply Nat.eqb_neq in E1. done.
  - destruct Hcol as (y & Hy & Hne & Heq).
    rewrite existsb_seq_false in E2. specialize (E2 y Hy).
    apply andb_false_iff in E2 as [E2|E2].
    + apply negb_false_iff, Nat.eqb_eq in E2. done.
    + apply Nat.eqb_neq in E2. done.
  - destruct Hbox as (y & x & Hy & Hx & Hne & Heq).
    rewrite existsb_seq_false in E3.
    assert (Hy3 : y - row / 3 * 3 < 3) by lia. specialize (E3 _ Hy3).
    rewrite existsb_seq_false in E3. specialize (E3 (x - col / 3 * 3)).
    cbv zeta in E3.
    replace (row / 3 * 3 + (y - row / 3 * 3)) with y in E3 by lia.
    replace (col / 3 * 3 + (x - col / 3 * 3)) with x in E3 by lia.
    assert (Hlt : x - col / 3 * 3 < 3) by lia. specialize (E3 Hlt).
    apply andb_false_iff in E3 as [E3|E3].
    + apply orb_false_iff in E3 as [Ea Eb].
      apply negb_false_iff, Nat.eqb_eq in Ea.
      apply negb_false_iff, Nat.eqb_eq in Eb. apply Hne. congruence.
    + apply Nat.eqb_neq in E3. done.
Qed.

Lemma is_valid_true_iff (h : gmap nat (list Cell)) s row col val :
  rows s = 9 → cols s = 9 →
  is_valid h s row col val = true ↔
  ¬ (row_hit h s row col val ∨ col_hit h s row col val ∨ box_hit h s row col val).
Proof.
  intros Hr Hc. rewrite <- (is_valid_false_iff h s row col val Hr Hc).
  destruct (is_valid h s row col val); split; congruence.
Qed.

(** [is_valid] in terms of peers of the cell index. *)
Lemma is_valid_peers (h : gmap nat (list Cell)) s row col v :
  rows s = 9 → cols s = 9 → row < 9 → col < 9 →
  is_valid h s row col v = true ↔
  ∀ j, j < 81 → j ≠ row * 9 + col → peer (row * 9 + col) j → values h s !!! j ≠ v.
Proof.
  intros Hr Hc Hrow Hcol. rewrite is_valid_true_iff by done. split.
  - intros Hno j Hj Hne Hpeer Hv. apply Hno. clear Hno.
    rewrite <- value_load in Hv.
    assert (Hi9 : (row * 9 + col) / 9 = row) by lia.
    assert (Him : (row * 9 + col) mod 9 = col) by lia.
    assert (Hi27 : (row * 9 + col) / 27 = row / 3) by lia.
    assert (Hj27 : j / 27 = j / 9 / 3) by lia.
    assert (Hjd : j = j / 9 * 9 + j mod 9) by lia.
    destruct (decide (j / 9 = row)) as [Hjr|Hjr].
    { left. exists (j mod 9). split; [lia|]. split; [lia|].
      rewrite <- Hjr, <- Hjd. done. }
    destruct (decide (j mod 9 = col)) as [Hjc|Hjc].
    { right; left. exists (j / 9). split; [lia|]. split; [lia|].
      rewrite <- Hjc, <- Hjd. done. }
    right; right. exists (j / 9), (j mod 9).
    destruct Hpeer as [Hp|[Hp|[Hp1 Hp2]]]; [lia|lia|].
    rewrite Hi27, Hj27 in Hp1. rewrite Him in Hp2.
    split; [lia|]. split; [lia|]. split.
    + intros [Ha Hb]%pair_equal_spec. done.
    + rewrite <- Hjd. done.
  - intros Hall [Hhit|[Hhit|Hhit]].
    + destruct Hhit as (x & Hx & Hne & Hv).
      apply (Hall (row * 9 + x)); [lia|lia|left; lia|by rewrite <- value_load].
    + destruct Hhit as (y & Hy & Hne & Hv).
      apply (Hall (y * 9 + col)); [lia|lia|right; left; lia|by rewrite <- value_load].
    + destruct Hhit as (y & x & Hy & Hx & Hne & Hv).
      apply (Hall (y * 9 + x)); [lia| |right; right; lia|by rewrite <- value_load].
      intros Heq. apply Hne. f_equal; lia.
Qed.

(** * The scan for the first empty cell *)

Lemma scan_row_Some (h : gmap nat (list Cell)) s row col :
  scan_row h s row = Some col →
  col < cols s ∧ value (load h s (row * cols s + col)) = V_None.
Proof.
  unfold scan_row. intros Hf. apply find_some in Hf as [Hin Hz].
  apply in_seq in Hin. apply Nat.eqb_eq in Hz. split; [lia|done].
Qed.

Lemma scan_row_None (h : gmap nat (list Cell)) s row col :
  scan_row h s row = None → col < cols s →
  value (load h s (row * cols s + col)) ≠ V_None.
Proof.
  unfold scan_row. intros Hf Hcol.
  pose proof (find_none _ _ Hf col) as Hn.
  apply Nat.eqb_neq, Hn, in_seq. lia.
Qed.

Lemma scan_rows_Some (h : gmap nat (list Cell)) s rws row col :
  scan_rows h s rws = Some (row, col) →
  row ∈ rws ∧ col < cols s ∧ value (load h s (row * cols s + col)) = V_None.
Proof.
  induction rws as [|r rws IH]; simpl; [done|].
  destruct (scan_row h s r) as [c|] eqn:Hrow.
  - intros [= -> ->]. split; [left|by apply scan_row_Some].
  - intros Hs. destruct (IH Hs) as (? & ? & ?). split; [by right|done].
Qed.

Lemma scan_rows_None (h : gmap nat (list Cell)) s rws row col :
  scan_rows h s rws = None → row ∈ rws → col < cols s →
  value (load h s (row * cols s + col)) ≠ V_None.
Proof.
  induction rws as [|r rws IH]; simpl; [by intros _ ?%elem_of_nil|].
  destruct (scan_row h s r) as [c|] eqn:Hrow; [done|].
  intros Hs [->|Hin]%elem_of_cons Hcol; [by apply scan_row_None|by apply IH].
Qed.

Lemma first_empty_Some (h : gmap nat (list Cell)) s row col :
  first_empty h s = Some (row, col) →
  row < rows s ∧ col < cols s ∧ value (load h s (row * cols s + col)) = V_None.
Proof.
  intros (Hin & Hc & Hv)%scan_rows_Some. apply elem_of_seq in Hin.
  split; [lia|done].
Qed.

Lemma first_empty_None (h : gmap nat (list Cell)) s i :
  first_empty h s = None → i < rows s * cols s → value (load h s i) ≠ V_None.
Proof.
  intros Hs Hi.
  assert (Hc : cols s ≠ 0) by lia.
  pose proof (Nat.div_mod i (cols s) Hc) as Hdm.
  pose proof (Nat.mod_upper_bound i (cols s) Hc) as Hm.
  assert (Hrow : i / cols s < rows s).
  { apply Nat.Div0.div_lt_upper_bound. lia. }
  replace i with (i / cols s * cols s + i mod cols s) by lia.
  apply (scan_rows_None h s _ _ _ Hs); [|done].
  apply elem_of_seq. lia.
Qed.

(** * Counting empty cells *)

Lemma empties_insert (vs : list nat) i v :
  i < length vs → vs !!! i = 0 → v ≠ 0 →
  S (empties (<[i := v]> vs)) = empties vs.
Proof.
  unfold empties. revert i. induction vs as [|x vs IH]; intros [|i] Hi Hz Hv; simpl in *; try lia.
  - rewrite !filter_cons. destruct (decide (v = 0)), (decide (x = 0)); simpl; lia.
  - rewrite !filter_cons. destruct (decide (x = 0)); simpl; rewrite <- (IH i); auto; lia.
Qed.

Lemma empties_clear (vs : list nat) i :
  i < length vs → vs !!! i ≠ 0 →
  empties (<[i := 0]> vs) = S (empties vs).
Proof.
  unfold empties. revert i. induction vs as [|x vs IH]; intros [|i] Hi Hz; simpl in *; try lia.
  - rewrite !filter_cons. destruct (decide (0 = 0)), (decide (x = 0)); simpl; lia.
  - rewrite !filter_cons. destruct (decide (x = 0)); simpl; rewrite (IH i); auto; lia.
Qed.

Lemma empties_zero (vs : list nat) :
  empties vs = 0 ↔ ∀ i, i < length vs → vs !!! i ≠ 0.
Proof.
  unfold empties. induction vs as [|x vs IH]; simpl.
  - split; [intros _ i Hi; lia|done].
  - rewrite filter_cons. destruct (decide (x = 0)) as [->|Hx]; simpl.
    + split; [done|]. intros Hall. specialize (Hall 0). simpl in Hall. lia.
    + rewrite IH. split.
      * intros Hall [|i] Hi; simpl; [done|]. apply Hall. lia.
      * intros Hall i Hi. apply (Hall (S i)). lia.
Qed.

(** * [count_solutions] gives the grid back as it received it *)

Lemma count_try_restore rec s row col limit (h : gmap nat (list Cell)) :
  (∀ h1 n h2, rec h1 = Some (n, h2) → h2 = h1) →
  value (load h s (row * cols s + col)) = V_None →
  ∀ vals sf n h',
    count_try rec s row col limit vals sf h = Some (n, h') → h' = h.
Proof.
  intros Hrec Hz. induction vals as [|v vals IH]; intros sf n h'; simpl.
  - by intros [= _ <-].
  - destruct (is_valid h s row col v); [|apply IH].
    destruct (rec _) as [[m h2]|] eqn:Hr; [|done].
    apply Hrec in Hr as ->. rewrite store_value_restore by done.
    destruct (limit <=? sf + m)%Z; [by intros [= _ <-]|apply IH].
Qed.

Lemma count_solutions_S fuel (h : gmap nat (list Cell)) s limit :
  count_solutions (S fuel) h s limit =
  match first_empty h s with
  | Some (row, col) =>
      count_try (λ h', count_solutions fuel h' s limit) s row col limit (seq V_1 9) 0%Z h
  | None => Some (1%Z, h)
  end.
Proof. reflexivity. Qed.

Lemma count_solutions_restore fuel (h : gmap nat (list Cell)) s limit n h' :
  count_solutions fuel h s limit = Some (n, h') → h' = h.
Proof.
  revert h n h'. induction fuel as [|fuel IH]; intros h n h'; [done|].
  rewrite count_solutions_S.
  destruct (first_empty h s) as [[row col]|] eqn:Hfe; [|by intros [= _ <-]].
  apply first_empty_Some in Hfe as (_ & _ & Hz).
  apply count_try_restore; [|done]. intros h1 m h2. apply IH.
Qed.

(** * [count_solutions] terminates *)

Lemma count_try_total rec s row col limit (h : gmap nat (list Cell)) :
  (∀ h1 n h2, rec h1 = Some (n, h2) → h2 = h1) →
  value (load h s (row * cols s + col)) = V_None →
  ∀ vals,
    (∀ v, v ∈ vals → is_Some (rec (store_value h s (row * cols s + col) v))) →
    ∀ sf, is_Some (count_try rec s row col limit vals sf h).
Proof.
  intros Hrec Hz. induction vals as [|v vals IH]; intros Hsome sf; simpl; [done|].
  destruct (is_valid h s row col v).
  - destruct (Hsome v) as [[m h2] Hr]; [left|]. rewrite Hr.
    apply Hrec in Hr as ->. rewrite store_value_restore by done.
    destruct (limit <=? sf + m)%Z; [done|]. apply IH. intros; apply Hsome. by right.
  - apply IH. intros; apply Hsome. by right.
Qed.

Lemma wf_store_value (h : gmap nat (list Cell)) s i v : wf h s → wf (store_value h s i v) s.
Proof. apply modifies_only_wf, modifies_only_store_value. Qed.

Lemma count_solutions_total fuel (h : gmap nat (list Cell)) s limit :
  wf h s → empties (values h s) < fuel →
  is_Some (count_solutions fuel h s limit).
Proof.
  revert h. induction fuel as [|fuel IH]; intros h Hwf Hfuel; [lia|].
  rewrite count_solutions_S.
  destruct (first_empty h s) as [[row col]|] eqn:Hfe; [|done].
  apply first_empty_Some in Hfe as (Hrow & Hcol & Hz).
  apply count_try_total; [|done|].
  - intros h1 m h2. apply count_solutions_restore.
  - intros v Hv%elem_of_seq. apply IH; [by apply wf_store_value|].
    rewrite values_store_value.
    assert (row * cols s + col < length (values h s)).
    { rewrite (wf_length _ _ Hwf). nia. }
    pose proof (empties_insert (values h s) (row * cols s + col) v) as He.
    rewrite value_load in Hz. unfold V_1 in Hv. specialize (He ltac:(done) Hz ltac:(lia)). lia.
Qed.

(** * Solved grids and peers *)

(** Facts on box indices, by enumeration. *)
Lemma box_cell_of_index i :
  i < 81 → box_index i < 9 ∧ box_pos i < 9 ∧ box_cell (box_index i) (box_pos i) = i.
Proof.
  assert (H : Forall (λ i, box_index i < 9 ∧ box_pos i < 9 ∧
                           box_cell (box_index i) (box_pos i) = i) (seq 0 81)).
  { eapply bool_decide_unpack. by vm_compute. }
  intros Hi. rewrite Forall_forall in H. apply H, elem_of_seq. lia.
Qed.

Lemma box_cell_peers k p q :
  k < 9 → p < 9 → q < 9 →
  box_cell k p < 81 ∧
  (p ≠ q → box_cell k p ≠ box_cell k q ∧
           box_cell k p / 27 = box_cell k q / 27 ∧
           box_cell k p mod 9 / 3 = box_cell k q mod 9 / 3).
Proof.
  assert (H : Forall (λ k, Forall (λ p, Forall (λ q,
     box_cell k p < 81 ∧
     (p ≠ q → box_cell k p ≠ box_cell k q ∧
       box_cell k p / 27 = box_cell k q / 27 ∧
       box_cell k p mod 9 / 3 = box_cell k q mod 9 / 3))
     (seq 0 9)) (seq 0 9)) (seq 0 9)).
  { eapply bool_decide_unpack. by vm_compute. }
  intros Hk Hp Hq. rewrite Forall_forall in H.
  specialize (H k ltac:(apply elem_of_seq; lia)). rewrite Forall_forall in H.
  specialize (H p ltac:(apply elem_of_seq; lia)). rewrite Forall_forall in H.
  apply H, elem_of_seq. lia.
Qed.

Lemma peer_sym i j : peer i j → peer j i.
Proof. unfold peer. intros [H|[H|[H1 H2]]]; auto. Qed.

Section units.
Variable c : list nat.
Variable f : nat → nat.

Lemma unit_lookup p : p < 9 → unit_of c f !! p = Some (c !!! f p).
Proof.
  intros Hp. unfold unit_of. rewrite list_lookup_fmap, lookup_seq_lt by done. done.
Qed.

Lemma unit_length : length (unit_of c f) = 9.
Proof. unfold unit_of. by rewrite length_fmap, length_seq. Qed.

Lemma unit_perm_range p :
  (unit_of c f) ≡ₚ seq 1 9 → p < 9 → 1 ≤ c !!! f p ≤ 9.
Proof.
  intros Hperm Hp.
  assert (Hin : c !!! f p ∈ (unit_of c f)) by (eapply list_elem_of_lookup_2, unit_lookup; done).
  rewrite Hperm in Hin. apply elem_of_seq in Hin. lia.
Qed.

Lemma unit_perm_inj p q :
  (unit_of c f) ≡ₚ seq 1 9 → p < 9 → q < 9 → c !!! f p = c !!! f q → p = q.
Proof.
  intros Hperm Hp Hq Heq.
  assert (Hnd : NoDup (unit_of c f)) by (rewrite Hperm; apply NoDup_seq).
  eapply NoDup_alt; [exact Hnd|by apply unit_lookup|].
  rewrite Heq. by apply unit_lookup.
Qed.

Lemma unit_perm_intro :
  (∀ p, p < 9 → 1 ≤ c !!! f p ≤ 9) →
  (∀ p q, p < 9 → q < 9 → p ≠ q → c !!! f p ≠ c !!! f q) →
  (unit_of c f) ≡ₚ seq 1 9.
Proof.
  intros Hrange Hinj.
  apply submseteq_length_Permutation; [|by rewrite unit_length].
  apply NoDup_submseteq.
  - apply NoDup_alt. intros a b x Ha Hb.
    assert (a < 9) by (apply lookup_lt_Some in Ha; by rewrite unit_length in Ha).
    assert (b < 9) by (apply lookup_lt_Some in Hb; by rewrite unit_length in Hb).
    rewrite unit_lookup in Ha, Hb by done.
    destruct (decide (a = b)) as [|Hne]; [done|].
    exfalso. apply (Hinj a b); congruence.
  - intros x (p & Hp)%list_elem_of_lookup_1.
    assert (p < 9) by (apply lookup_lt_Some in Hp; by rewrite unit_length in Hp).
    rewrite unit_lookup in Hp by done. injection Hp as <-.
    apply elem_of_seq. specialize (Hrange p). lia.
Qed.
End units.

Lemma solved_range (c : list nat) i : solved c → i < 81 → 1 ≤ c !!! i ≤ 9.
Proof.
  intros [_ Hu] Hi. destruct (Hu (i / 9)) as (Hrow & _ & _); [lia|].
  pose proof (unit_perm_range c (λ x, i / 9 * 9 + x) (i mod 9) Hrow) as Hr.
  cbv beta in Hr. replace (i / 9 * 9 + i mod 9) with i in Hr by lia. apply Hr. lia.
Qed.

Lemma solved_peers (c : list nat) i j :
  solved c → i < 81 → j < 81 → i ≠ j → peer i j → c !!! i ≠ c !!! j.
Proof.
  intros [_ Hu] Hi Hj Hne Hpeer Heq.
  destruct (decide (i / 9 = j / 9)) as [Hr|Hr].
  { destruct (Hu (i / 9)) as (Hrow & _ & _); [lia|].
    pose proof (unit_perm_inj c (λ x, i / 9 * 9 + x) (i mod 9) (j mod 9) Hrow) as Hinj.
    cbv beta in Hinj.
    replace (i / 9 * 9 + i mod 9) with i in Hinj by lia.
    replace (i / 9 * 9 + j mod 9) with j in Hinj by lia.
    specialize (Hinj ltac:(lia) ltac:(lia) Heq). lia. }
  destruct (decide (i mod 9 = j mod 9)) as [Hc|Hc].
  { destruct (Hu (i mod 9)) as (_ & Hcol & _); [lia|].
    pose proof (unit_perm_inj c (λ y, y * 9 + i mod 9) (i / 9) (j / 9) Hcol) as Hinj.
    cbv beta in Hinj.
    replace (i / 9 * 9 + i mod 9) with i in Hinj by lia.
    replace (j / 9 * 9 + i mod 9) with j in Hinj by lia.
    specialize (Hinj ltac:(lia) ltac:(lia) Heq). lia. }
  destruct Hpeer as [?|[?|[Hb1 Hb2]]]; [done|done|].
  destruct (box_cell_of_index i Hi) as (Hki & Hpi & Hci).
  destruct (box_cell_of_index j Hj) as (Hkj & Hpj & Hcj).
  assert (Hk : box_index j = box_index i) by (unfold box_index; congruence).
  rewrite Hk in Hcj.
  destruct (Hu (box_index i) Hki) as (_ & _ & Hbox).
  pose proof (unit_perm_inj c (box_cell (box_index i)) (box_pos i) (box_pos j) Hbox) as Hinj.
  rewrite Hci, Hcj in Hinj. specialize (Hinj Hpi Hpj Heq). congruence.
Qed.

Lemma peers_solved (c : list nat) :
  length c = 81 →
  (∀ i, i < 81 → 1 ≤ c !!! i ≤ 9) →
  (∀ i j, i < 81 → j < 81 → i ≠ j → peer i j → c !!! i ≠ c !!! j) →
  solved c.
Proof.
  intros Hlen Hrange Hpeers. split; [done|]. intros k Hk. split; [|split].
  - apply (unit_perm_intro c (λ x, k * 9 + x)).
    + intros p Hp. apply Hrange. lia.
    + intros p q Hp Hq Hne. apply Hpeers; [lia|lia|lia|left; lia].
  - apply (unit_perm_intro c (λ y, y * 9 + k)).
    + intros p Hp. apply Hrange. lia.
    + intros p q Hp Hq Hne. apply Hpeers; [lia|lia|lia|right; left; lia].
  - apply (unit_perm_intro c (box_cell k)).
    + intros p Hp. apply Hrange. by destruct (box_cell_peers k p p Hk Hp Hp).
    + intros p q Hp Hq Hne.
      destruct (box_cell_peers k p q Hk Hp Hq) as (Hlt & Hpq).
      destruct (box_cell_peers k q p Hk Hq Hp) as (Hlt' & _).
      destruct (Hpq Hne) as (? & ? & ?). apply Hpeers; [done|done|done|by right; right].
Qed.

(** * Partial grids and their completions *)

Lemma list_eq_total (l1 l2 : list nat) n :
  length l1 = n → length l2 = n → (∀ i, i < n → l1 !!! i = l2 !!! i) → l1 = l2.
Proof.
  intros H1 H2 Hall. apply (list_eq_same_length l1 l2 n); [done|done|].
  intros i x y Hi Hx Hy. specialize (Hall i Hi).
  rewrite (list_lookup_total_correct _ _ _ Hx), (list_lookup_total_correct _ _ _ Hy) in Hall.
  done.
Qed.

Lemma solved_consistent (c : list nat) : solved c → consistent c.
Proof.
  intros Hs. split; [by destruct Hs|]. split.
  - intros i Hi. pose proof (solved_range c i Hs Hi). lia.
  - intros i j Hi Hj Hne Hp _. by apply solved_peers.
Qed.

Lemma consistent_full_solved (g : list nat) :
  consistent g → (∀ i, i < 81 → g !!! i ≠ 0) → solved g.
Proof.
  intros (Hlen & Hrange & Hpeers) Hfull. apply peers_solved; [done| |].
  - intros i Hi. specialize (Hrange i Hi). specialize (Hfull i Hi). lia.
  - intros i j Hi Hj Hne Hp. apply Hpeers; auto.
Qed.

Lemma consistent_insert (g : list nat) i v :
  consistent g → i < 81 → 1 ≤ v ≤ 9 →
  (∀ j, j < 81 → j ≠ i → peer i j → g !!! j ≠ v) →
  consistent (<[i := v]> g).
Proof.
  intros (Hlen & Hrange & Hpeers) Hi Hv Hfree.
  split; [by rewrite length_insert|]. split.
  - intros a Ha. destruct (decide (a = i)) as [->|Hai].
    + rewrite list_lookup_total_insert_eq by lia. lia.
    + rewrite list_lookup_total_insert_ne by done. by apply Hrange.
  - intros a b Ha Hb Hab Hp.
    destruct (decide (a = i)) as [->|Hai]; destruct (decide (b = i)) as [->|Hbi]; [done| | |].
    + rewrite list_lookup_total_insert_eq by lia.
      rewrite list_lookup_total_insert_ne by done.
      intros _ Heq. by apply (Hfree b).
    + rewrite list_lookup_total_insert_eq by lia.
      rewrite list_lookup_total_insert_ne by done.
      intros _. apply Hfree; [done|done|by apply peer_sym].
    + rewrite !list_lookup_total_insert_ne by done. by apply Hpeers.
Qed.

Lemma consistent_clear (g : list nat) i :
  consistent g → i < 81 → consistent (<[i := 0]> g).
Proof.
  intros (Hlen & Hrange & Hpeers) Hi.
  split; [by rewrite length_insert|]. split.
  - intros a Ha. destruct (decide (a = i)) as [->|Hai].
    + rewrite list_lookup_total_insert_eq by lia. lia.
    + rewrite list_lookup_total_insert_ne by done. by apply Hrange.
  - intros a b Ha Hb Hab Hp.
    destruct (decide (a = i)) as [->|Hai].
    { rewrite list_lookup_total_insert_eq by lia. done. }
    rewrite (list_lookup_total_insert_ne _ i a) by done. intros Hnz.
    destruct (decide (b = i)) as [->|Hbi].
    + rewrite list_lookup_total_insert_eq by lia. done.
    + rewrite list_lookup_total_insert_ne by done. by apply Hpeers.
Qed.

(** A completion never puts in an empty cell a value one of its peers
    already holds. *)
Lemma completion_free (g c : list nat) i j :
  completion g c → i < 81 → j < 81 → j ≠ i → peer i j → g !!! j ≠ c !!! i.
Proof.
  intros [Hs Hkeep] Hi Hj Hne Hp Heq.
  pose proof (solved_range c i Hs Hi) as Hr.
  assert (Hgj : g !!! j ≠ 0) by lia.
  specialize (Hkeep j Hj Hgj).
  apply (solved_peers c i j Hs Hi Hj); [done|done|congruence].
Qed.

Lemma completion_insert (g c : list nat) i v :
  length g = 81 → i < 81 → g !!! i = 0 → v ≠ 0 →
  completion (<[i := v]> g) c ↔ completion g c ∧ c !!! i = v.
Proof.
  intros Hlen Hi Hz Hv. split.
  - intros [Hs Hkeep]. split; [split; [done|]|].
    + intros a Ha Hnz. destruct (decide (a = i)) as [->|Hai]; [done|].
      specialize (Hkeep a Ha). rewrite list_lookup_total_insert_ne in Hkeep by done. auto.
    + specialize (Hkeep i Hi). rewrite list_lookup_total_insert_eq in Hkeep by lia. auto.
  - intros [[Hs Hkeep] Hci]. split; [done|].
    intros a Ha. destruct (decide (a = i)) as [->|Hai].
    + rewrite list_lookup_total_insert_eq by lia. done.
    + rewrite list_lookup_total_insert_ne by done. auto.
Qed.

Lemma completion_solved (g c : list nat) :
  solved g → completion g c ↔ c = g.
Proof.
  intros Hs. split.
  - intros [Hc Hkeep]. apply (list_eq_total c g 81); [by destruct Hc|by destruct Hs|].
    intros i Hi. apply Hkeep; [done|]. pose proof (solved_range g i Hs Hi). lia.
  - intros ->. split; done.
Qed.

Lemma solved_unique_completion (g : list nat) : solved g → unique_completion g.
Proof.
  intros Hs. exists g. split; [by apply completion_solved|].
  intros c'. by apply completion_solved.
Qed.

(** * What a count says *)

Lemma count_spec_ext (n : Z) (P Q : list nat → Prop) :
  (∀ c, P c ↔ Q c) → count_spec n P → count_spec n Q.
Proof.
  intros Hext [[-> H0]|[[-> (c & Hc & Hu)]|[Hn (c1 & c2 & Hne & H1 & H2)]]].
  - left. split; [done|]. intros c. rewrite <- Hext. apply H0.
  - right; left. split; [done|]. exists c. split; [by apply Hext|].
    intros c' Hc'. apply Hu. by apply Hext.
  - right; right. split; [done|]. exists c1, c2. rewrite <- !Hext. done.
Qed.

Lemma count_spec_nonneg (n : Z) (P : list nat → Prop) : count_spec n P → (0 ≤ n)%Z.
Proof. intros [[-> _]|[[-> _]|[Hn _]]]; lia. Qed.

Lemma count_spec_add (a b : Z) (P Q : list nat → Prop) :
  (∀ c, P c → Q c → False) →
  count_spec a P → count_spec b Q → count_spec (a + b) (λ c, P c ∨ Q c).
Proof.
  intros Hdisj HP HQ.
  pose proof (count_spec_nonneg _ _ HP) as Ha.
  pose proof (count_spec_nonneg _ _ HQ) as Hb.
  destruct HP as [[-> P0]|[[-> (c & Hc & Hu)]|[Hn (c1 & c2 & Hne & H1 & H2)]]].
  - destruct HQ as [[-> Q0]|[[-> (d & Hd & Hv)]|[Hm (d1 & d2 & Hne & H1 & H2)]]].
    + left. split; [done|]. intros c [?|?]; [by eapply P0|by eapply Q0].
    + right; left. split; [done|]. exists d. split; [by right|].
      intros c' [?|?]; [by edestruct P0|by apply Hv].
    + right; right. split; [lia|]. exists d1, d2. auto.
  - destruct HQ as [[-> Q0]|[[-> (d & Hd & Hv)]|[Hm (d1 & d2 & Hne & H1 & H2)]]].
    + right; left. split; [done|]. exists c. split; [by left|].
      intros c' [?|?]; [by apply Hu|by edestruct Q0].
    + right; right. split; [done|]. exists c, d. split; [|auto].
      intros ->. by eapply Hdisj.
    + right; right. split; [lia|]. exists d1, d2. auto.
  - right; right. split; [lia|]. exists c1, c2. auto.
Qed.

Lemma count_spec_ge2_mono (n : Z) (P Q : list nat → Prop) :
  (2 ≤ n)%Z → (∀ c, P c → Q c) → count_spec n P → count_spec n Q.
Proof.
  intros Hn Hsub [[-> _]|[[-> _]|[_ (c1 & c2 & Hne & H1 & H2)]]]; [lia|lia|].
  right; right. split; [done|]. exists c1, c2. auto.
Qed.

(** The three verdicts exclude one another, so each is also necessary. *)
Lemma count_spec_zero_iff (n : Z) (P : list nat → Prop) :
  count_spec n P → (n = 0%Z ↔ ¬ ∃ c, P c).
Proof.
  intros [[-> H0]|[[-> (c & Hc & _)]|[Hn (c1 & _ & _ & H1 & _)]]].
  - split; [|done]. intros _ [c Hc]. by eapply H0.
  - split; [done|]. intros []. eauto.
  - split; [lia|]. intros []. eauto.
Qed.

Lemma count_spec_one_iff (n : Z) (P : list nat → Prop) :
  count_spec n P → (n = 1%Z ↔ ∃ c, P c ∧ ∀ c', P c' → c' = c).
Proof.
  intros [[-> H0]|[[-> Hex]|[Hn (c1 & c2 & Hne & H1 & H2)]]].
  - split; [done|]. intros (c & Hc & _). by edestruct H0.
  - done.
  - split; [lia|]. intros (c & Hc & Hu). destruct Hne.
    by rewrite (Hu c1 H1), (Hu c2 H2).
Qed.

Lemma count_spec_many_iff (n : Z) (P : list nat → Prop) :
  count_spec n P → ((2 ≤ n)%Z ↔ ∃ c1 c2, c1 ≠ c2 ∧ P c1 ∧ P c2).
Proof.
  intros [[-> H0]|[[-> (c & Hc & Hu)]|[Hn Hex]]].
  - split; [lia|]. intros (c1 & _ & _ & H1 & _). by edestruct H0.
  - split; [lia|]. intros (c1 & c2 & Hne & H1 & H2). destruct Hne.
    by rewrite (Hu c1 H1), (Hu c2 H2).
  - done.
Qed.

(** * [count_solutions] counts completions *)

Section count_try.
Variable rec : gmap nat (list Cell) → option (Z * gmap nat (list Cell)).
Variable s : Sudoku.
Variables row col : nat.
Variable h : gmap nat (list Cell).
Hypothesis Hrows : rows s = 9.
Hypothesis Hcols : cols s = 9.
Hypothesis Hrow : row < 9.
Hypothesis Hcol : col < 9.
Hypothesis Hcons : consistent (values h s).
Hypothesis Hempty : values h s !!! (row * 9 + col) = 0.
Hypothesis Hrec : ∀ v n h',
  1 ≤ v ≤ 9 → is_valid h s row col v = true →
  rec (store_value h s (row * 9 + col) v) = Some (n, h') →
  h' = store_value h s (row * 9 + col) v ∧
  count_spec n (completion (<[row * 9 + col := v]> (values h s))).

Lemma no_completion_when_invalid v c :
  is_valid h s row col v = false → completion (values h s) c →
  c !!! (row * 9 + col) ≠ v.
Proof.
  intros Hinv Hc Heq.
  assert (is_valid h s row col v = true); [|congruence].
  apply is_valid_peers; [done..|]. intros j Hj Hne Hp. rewrite <- Heq.
  apply completion_free; [done|lia|done|done|done].
Qed.

Lemma count_try_spec len : ∀ lo sf n h',
  lo + len = 10 → 1 ≤ lo → (sf < 2)%Z →
  count_spec sf (λ c, completion (values h s) c ∧ c !!! (row * 9 + col) < lo) →
  count_try rec s row col 2 (seq lo len) sf h = Some (n, h') →
  h' = h ∧ count_spec n (completion (values h s)).
Proof.
  assert (Hi : row * 9 + col < 81) by lia.
  assert (Hlen : length (values h s) = 81) by (by destruct Hcons).
  induction len as [|len IH]; intros lo sf n h' Hsum Hlo Hsf Hinv; simpl.
  - intros [= <- <-]. split; [done|]. revert Hinv. apply count_spec_ext.
    intros c. split; [by intros [? _]|]. intros Hc. split; [done|].
    destruct Hc as [Hs _]. pose proof (solved_range c _ Hs Hi). lia.
  - rewrite Hcols. destruct (is_valid h s row col lo) eqn:Hv.
    + destruct (rec _) as [[m h2]|] eqn:Hr; [|done].
      destruct (Hrec lo m h2 ltac:(lia) Hv Hr) as [-> Hm].
      rewrite store_value_restore by (by rewrite value_load).
      assert (Hnew : count_spec (sf + m)
                (λ c, completion (values h s) c ∧ c !!! (row * 9 + col) < S lo)).
      { assert (Hdisj : ∀ c,
                  completion (values h s) c ∧ c !!! (row * 9 + col) < lo →
                  completion (<[row * 9 + col := lo]> (values h s)) c → False).
        { intros c [_ Hc1] Hc2.
          apply completion_insert in Hc2 as [_ Hc2]; [|done|lia|done|lia]. lia. }
        eapply count_spec_ext; [|apply (count_spec_add sf m _ _ Hdisj Hinv Hm)].
        intros c. cbv beta.
        rewrite (completion_insert (values h s) c (row * 9 + col) lo) by (done || lia).
        split.
          + intros [[? ?]|[? ?]]; split; auto; lia.
          + intros [Hc Hlt].
            destruct (decide (c !!! (row * 9 + col) = lo)); [right|left]; split; auto; lia. }
      destruct (Z.leb_spec 2 (sf + m)) as [Hge|Hlt].
      * intros [= <- <-]. split; [done|]. revert Hnew.
        apply count_spec_ge2_mono; [done|]. by intros c [? _].
      * apply IH; [lia|lia|done|done].
    + apply IH; [lia|lia|done|]. revert Hinv. apply count_spec_ext.
      intros c. split; [intros [? ?]; split; [done|lia]|].
      intros [Hc Hlt]. split; [done|].
      pose proof (no_completion_when_invalid lo c Hv Hc). lia.
Qed.
End count_try.

Lemma count_solutions_spec fuel (h : gmap nat (list Cell)) s n h' :
  rows s = 9 → cols s = 9 → consistent (values h s) →
  count_solutions fuel h s 2 = Some (n, h') →
  h' = h ∧ count_spec n (completion (values h s)).
Proof.
  intros Hrows Hcols. revert h n h'.
  induction fuel as [|fuel IH]; intros h n h' Hcons; [done|].
  rewrite count_solutions_S.
  destruct (first_empty h s) as [[row col]|] eqn:Hfe.
  - apply first_empty_Some in Hfe as (Hrow & Hcol & Hz).
    rewrite Hrows in Hrow. rewrite Hcols in Hcol, Hz. rewrite value_load in Hz.
    assert (Hlen : length (values h s) = 81) by (by destruct Hcons).
    intros Hct.
    refine (count_try_spec _ s row col h Hrows Hcols Hrow Hcol Hcons Hz _
                           9 1 0%Z n h' _ _ _ _ Hct); [|lia|lia|done|].
    + intros v m h2 Hv Hvalid Hr. apply IH in Hr.
      * by rewrite values_store_value in Hr.
      * rewrite values_store_value. apply consistent_insert; [done|lia|done|].
        intros j Hj Hne. by apply is_valid_peers.
    + left. split; [done|]. intros c [[Hs _] Hlt].
      pose proof (solved_range c (row * 9 + col) Hs ltac:(lia)). lia.
  - intros [= <- <-]. split; [done|].
    assert (Hs : solved (values h s)).
    { apply consistent_full_solved; [done|]. intros i Hi. rewrite <- value_load.
      apply first_empty_None; [done|]. rewrite Hrows, Hcols. lia. }
    right; left. split; [done|]. apply solved_unique_completion, Hs.
Qed.

(** * The shuffle yields a permutation of 1..9 *)

Lemma swap_perm (l : list nat) i j :
  i < length l → j < length l → swap l i j ≡ₚ l.
Proof.
  intros Hi Hj. unfold swap.
  destruct (lookup_lt_is_Some_2 l i Hi) as [x Hx].
  destruct (lookup_lt_is_Some_2 l j Hj) as [y Hy].
  rewrite Hx, Hy. simpl. by apply Permutation_insert_swap.
Qed.

Lemma shuffle_from_perm n : ∀ i (l : list nat) r,
  length l = 9 → i + n ≤ 9 → (shuffle_from n i l r).1 ≡ₚ l.
Proof.
  induction n as [|n IH]; intros i l r Hlen Hin; [done|].
  change (shuffle_from (S n) i l r)
    with (shuffle_from n (S i) (swap l i (r 0 mod 9)) (λ n, r (S n))).
  assert (Hsw : swap l i (r 0 mod 9) ≡ₚ l).
  { apply swap_perm; [lia|]. rewrite Hlen. apply Nat.mod_upper_bound. lia. }
  rewrite IH; [exact Hsw| |lia].
  by rewrite (Permutation_length Hsw).
Qed.

Lemma shuffle_perm r : (shuffle r).1 ≡ₚ seq 1 9.
Proof. unfold shuffle. by rewrite shuffle_from_perm. Qed.

(** * [fill_grid] *)

Lemma fill_grid_S fuel (h : gmap nat (list Cell)) r s row col :
  fill_grid (S fuel) h r s row col =
  if row =? rows s then Some (true, h, r)
  else
    let nextRow := if col =? cols s - 1 then row + 1 else row in
    let nextCol := (col + 1) mod cols s in
    let '(numbers, r1) := shuffle r in
    fill_try (λ h' r', fill_grid fuel h' r' s nextRow nextCol) s row col numbers h r1.
Proof. reflexivity. Qed.

Section fill_try.
Variable rec : gmap nat (list Cell) → RandState →
               option (bool * gmap nat (list Cell) * RandState).
Variable s : Sudoku.
Variables row col : nat.
Variable h : gmap nat (list Cell).
Hypothesis Hrows : rows s = 9.
Hypothesis Hcols : cols s = 9.
Hypothesis Hrow : row < 9.
Hypothesis Hcol : col < 9.
Hypothesis Hcons : consistent (values h s).
Hypothesis Hempty : values h s !!! (row * 9 + col) = 0.
Hypothesis Hrec : ∀ v r1 b h2 r2,
  1 ≤ v ≤ 9 → is_valid h s row col v = true →
  rec (store_value h s (row * 9 + col) v) r1 = Some (b, h2, r2) →
  modifies_only s (store_value h s (row * 9 + col) v) h2 ∧
  if b then solved (values h2 s)
  else h2 = store_value h s (row * 9 + col) v ∧
       ∀ c, ¬ completion (<[row * 9 + col := v]> (values h s)) c.

Lemma fill_try_spec numbers : ∀ r b h' r',
  (∀ v, v ∈ numbers → 1 ≤ v ≤ 9) →
  fill_try rec s row col numbers h r = Some (b, h', r') →
  modifies_only s h h' ∧
  if b then solved (values h' s)
  else h' = h ∧ ∀ c, completion (values h s) c → c !!! (row * 9 + col) ∉ numbers.
Proof.
  assert (Hi : row * 9 + col < 81) by lia.
  assert (Hlen : length (values h s) = 81) by (by destruct Hcons).
  induction numbers as [|v numbers IH]; intros r b h' r' Hrange; simpl.
  - intros [= <- <- <-]. split; [apply modifies_only_refl|].
    split; [done|]. intros c _. apply not_elem_of_nil.
  - rewrite Hcols.
    assert (Hv : 1 ≤ v ≤ 9) by (apply Hrange; left).
    assert (Hrest : ∀ v', v' ∈ numbers → 1 ≤ v' ≤ 9) by (intros; apply Hrange; by right).
    destruct (is_valid h s row col v) eqn:Hvalid.
    + destruct (rec _ r) as [[[[] h2] r2]|] eqn:Hr; [| |done].
      * intros [= <- <- <-].
        destruct (Hrec v r true h2 r2 Hv Hvalid Hr) as [Hmod Hs].
        split; [|done].
        eapply modifies_only_trans; [apply modifies_only_store_value|done].
      * destruct (Hrec v r false h2 r2 Hv Hvalid Hr) as [_ [-> Hnone]].
        rewrite store_value_restore by (by rewrite value_load).
        intros Hft. destruct (IH _ _ _ _ Hrest Hft) as [Hmod Hres].
        split; [done|]. destruct b; [done|].
        destruct Hres as [-> Hres]. split; [done|].
        intros c Hc [Heq|Hin]%elem_of_cons; [|by eapply Hres].
        apply (Hnone c). apply completion_insert; [done|lia|done|lia|done].
    + intros Hft. destruct (IH _ _ _ _ Hrest Hft) as [Hmod Hres].
      split; [done|]. destruct b; [done|].
      destruct Hres as [-> Hres]. split; [done|].
      intros c Hc [Heq|Hin]%elem_of_cons; [|by eapply Hres].
      by eapply (no_completion_when_invalid s row col h).
Qed.
End fill_try.

Lemma fill_try_total rec s row col numbers :
  (∀ h r, is_Some (rec h r)) →
  ∀ (h : gmap nat (list Cell)) r, is_Some (fill_try rec s row col numbers h r).
Proof.
  intros Hrec. induction numbers as [|v numbers IH]; intros h r; simpl; [done|].
  destruct (is_valid h s row col v); [|apply IH].
  destruct (Hrec (store_value h s (row * cols s + col) v) r) as [[[[] h2] r2] ->]; [done|apply IH].
Qed.

Lemma next_cell k :
  k < 81 →
  (if k mod 9 =? 9 - 1 then k / 9 + 1 else k / 9) = S k / 9 ∧
  (k mod 9 + 1) mod 9 = S k mod 9.
Proof.
  intros Hk. destruct (Nat.eqb_spec (k mod 9) (9 - 1)); lia.
Qed.

Lemma fill_grid_total s fuel : ∀ k (h : gmap nat (list Cell)) r,
  rows s = 9 → cols s = 9 → k ≤ 81 → 81 - k < fuel →
  is_Some (fill_grid fuel h r s (k / 9) (k mod 9)).
Proof.
  induction fuel as [|fuel IH]; intros k h r Hrows Hcols Hk Hfuel; [lia|].
  rewrite fill_grid_S, Hrows, Hcols.
  destruct (Nat.eqb_spec (k / 9) 9) as [|Hne]; [done|].
  assert (Hlt : k < 81) by lia.
  destruct (next_cell k Hlt) as [-> ->]. cbv zeta.
  destruct (shuffle r) as [numbers r1].
  apply fill_try_total. intros h' r'. apply IH; [done|done|lia|lia].
Qed.

Lemma fill_grid_spec s fuel : ∀ k (h : gmap nat (list Cell)) r b h' r',
  rows s = 9 → cols s = 9 → k ≤ 81 → filled_upto k (values h s) →
  fill_grid fuel h r s (k / 9) (k mod 9) = Some (b, h', r') →
  modifies_only s h h' ∧
  if b then solved (values h' s)
  else h' = h ∧ ∀ c, ¬ completion (values h s) c.
Proof.
  induction fuel as [|fuel IH]; intros k h r b h' r' Hrows Hcols Hk Hinv; [done|].
  destruct Hinv as (Hcons & Hfull & Hrest).
  rewrite fill_grid_S, Hrows, Hcols.
  destruct (Nat.eqb_spec (k / 9) 9) as [Heq|Hne].
  { intros [= <- <- <-]. split; [apply modifies_only_refl|].
    apply consistent_full_solved; [done|]. intros i Hi. apply Hfull. lia. }
  assert (Hlt : k < 81) by lia.
  destruct (next_cell k Hlt) as [-> ->]. cbv zeta.
  pose proof (shuffle_perm r) as Hperm.
  destruct (shuffle r) as [numbers r1]. change (numbers ≡ₚ seq 1 9) in Hperm.
  assert (Hkk : k / 9 * 9 + k mod 9 = k) by lia.
  intros Hft.
  eapply (fill_try_spec _ s (k / 9) (k mod 9) h Hrows Hcols) in Hft.
  - destruct Hft as [Hmod Hres]. split; [done|]. destruct b; [done|].
    destruct Hres as [-> Hres]. split; [done|]. intros c Hc.
    apply (Hres c Hc). rewrite Hperm. apply elem_of_seq. rewrite Hkk.
    destruct Hc as [Hs _]. pose proof (solved_range c k Hs Hlt). lia.
  - lia.
  - lia.
  - done.
  - rewrite Hkk. apply Hrest. lia.
  - rewrite Hkk. intros v r2 b2 h2 r3 Hv Hvalid Hr.
    apply IH in Hr; [|done|done|lia|].
    + by rewrite values_store_value in Hr.
    + rewrite values_store_value.
      assert (Hlen : length (values h s) = 81) by (by destruct Hcons).
      split; [|split].
      * apply consistent_insert; [done|done|done|].
        intros j Hj Hjk Hp.
        refine (proj1 (is_valid_peers h s (k / 9) (k mod 9) v Hrows Hcols
                         ltac:(lia) ltac:(lia)) Hvalid j Hj _ _); by rewrite Hkk.
      * intros i Hi. destruct (decide (i = k)) as [->|Hik].
        -- rewrite list_lookup_total_insert_eq by lia. lia.
        -- rewrite list_lookup_total_insert_ne by done. apply Hfull. lia.
      * intros i Hi. rewrite list_lookup_total_insert_ne by lia. apply Hrest. lia.
  - intros v Hv. rewrite Hperm in Hv. apply elem_of_seq in Hv. lia.
Qed.

(** * Allocation and copying *)

Lemma game_open_spec (h : gmap nat (list Cell)) n m s h1 :
  game_open h n m = (s, h1) →
  rows s = n ∧ cols s = m ∧ grid s ≠ NULL ∧ h !! grid s = None ∧
  h1 = <[grid s := replicate (n * m) (mkCell V_None FIXED)]> h.
Proof.
  unfold game_open. intros [= <- <-]. simpl.
  pose proof (is_fresh ({[NULL]} ∪ dom h)) as Hf.
  repeat split.
  - intros Heq. apply Hf. rewrite Heq. set_solver.
  - apply not_elem_of_dom. set_solver.
Qed.

Lemma memcpy_other (h : gmap nat (list Cell)) dst src n a :
  a ≠ dst → memcpy h dst src n !! a = h !! a.
Proof.
  intros Hne. unfold memcpy. destruct (h !! src); [|done].
  by rewrite lookup_alter_ne.
Qed.

Lemma memcpy_full (h : gmap nat (list Cell)) dst src n b d :
  h !! src = Some b → length b = n → h !! dst = Some d → length d = n →
  memcpy h dst src n !! dst = Some b.
Proof.
  intros Hb Hlb Hd Hld. unfold memcpy. rewrite Hb, lookup_alter_eq, Hd. simpl.
  by rewrite take_ge, drop_ge, app_nil_r by lia.
Qed.

Lemma empties_le (vs : list nat) : empties vs ≤ length vs.
Proof. apply length_filter. Qed.

(** * [has_unique_solution] *)

Lemma has_unique_solution_heap fuel (h : gmap nat (list Cell)) s b h' :
  has_unique_solution fuel h s = Some (b, h') → h' = h.
Proof.
  unfold has_unique_solution.
  destruct (game_open h (rows s) (cols s)) as [copy h1] eqn:Hopen.
  apply game_open_spec in Hopen as (_ & _ & Hnn & Hfresh & ->).
  destruct (count_solutions _ _ _ _) as [[n h3]|] eqn:Hcount; [|done].
  apply count_solutions_restore in Hcount as ->.
  intros [= _ <-]. unfold game_close. rewrite decide_False by done.
  apply map_eq. intros a. destruct (decide (a = grid copy)) as [->|Hne].
  - by rewrite lookup_delete_eq.
  - by rewrite lookup_delete_ne, memcpy_other, lookup_insert_ne.
Qed.

Lemma has_unique_solution_spec fuel (h : gmap nat (list Cell)) s b h' :
  rows s = 9 → cols s = 9 → wf h s → consistent (values h s) →
  has_unique_solution fuel h s = Some (b, h') →
  (b = true ↔ unique_completion (values h s)).
Proof.
  intros Hrows Hcols (blk & Hblk & Hlen) Hcons. unfold has_unique_solution.
  destruct (game_open h (rows s) (cols s)) as [copy h1] eqn:Hopen.
  apply game_open_spec in Hopen as (Hr & Hc & Hnn & Hfresh & ->).
  assert (Hne : grid s ≠ grid copy) by congruence.
  assert (Hvals : values (memcpy (<[grid copy := replicate (rows s * cols s)
                     (mkCell V_None FIXED)]> h) (grid copy) (grid s) (rows s * cols s)) copy
                  = values h s).
  { unfold values, block.
    erewrite memcpy_full;
      [|by rewrite lookup_insert_ne|done|by rewrite lookup_insert_eq|by rewrite length_replicate].
    by rewrite Hblk. }
  destruct (count_solutions _ _ _ _) as [[n h3]|] eqn:Hcount; [|done].
  apply count_solutions_spec in Hcount as [_ Hspec]; [|congruence|congruence|by rewrite Hvals].
  rewrite Hvals in Hspec. intros [= <- _].
  rewrite <- (count_spec_one_iff n _ Hspec). apply Z.eqb_eq.
Qed.

Lemma has_unique_solution_total fuel (h : gmap nat (list Cell)) s :
  wf h s → rows s * cols s < fuel → is_Some (has_unique_solution fuel h s).
Proof.
  intros (blk & Hblk & Hlen) Hfuel. unfold has_unique_solution.
  destruct (game_open h (rows s) (cols s)) as [copy h1] eqn:Hopen.
  apply game_open_spec in Hopen as (Hr & Hc & Hnn & Hfresh & ->).
  assert (Hne : grid s ≠ grid copy) by congruence.
  match goal with |- context [count_solutions fuel ?h2 copy 2] =>
    assert (Hcopy : h2 !! grid copy = Some blk) end.
  { eapply memcpy_full;
      [by rewrite lookup_insert_ne|done|by rewrite lookup_insert_eq|by rewrite length_replicate]. }
  match goal with |- context [count_solutions fuel ?h2 copy 2] =>
    assert (Hwf : wf h2 copy) by (exists blk; split; [done|by rewrite Hr, Hc]);
    destruct (count_solutions_total fuel h2 copy 2) as [[n h3] ->] end; [done| |done].
  match type of Hwf with wf ?h2 _ =>
    pose proof (empties_le (values h2 copy)) as Hle end.
  rewrite (wf_length _ _ Hwf), Hr, Hc in Hle. lia.
Qed.

(** * Passes over all cells *)

Section foldl_cells.
Variable step : gmap nat (list Cell) → nat → gmap nat (list Cell).
Variable f : Cell → Cell.
Variable s : Sudoku.
Hypothesis step_frame : ∀ h i, modifies_only s h (step h i).
Hypothesis step_cell : ∀ h i j,
  block (step h i) s !! j =
  if decide (j = i) then f <$> block h s !! j else block h s !! j.

Lemma foldl_cells_spec n : ∀ h,
  modifies_only s h (foldl step h (seq 0 n)) ∧
  ∀ j, block (foldl step h (seq 0 n)) s !! j =
       if decide (j < n) then f <$> block h s !! j else block h s !! j.
Proof.
  induction n as [|n IH]; intros h.
  - split; [apply modifies_only_refl|]. intros j. by rewrite decide_False by lia.
  - rewrite seq_S, foldl_snoc. simpl. destruct (IH h) as [Hmod Hcells]. split.
    + eapply modifies_only_trans; [exact Hmod|apply step_frame].
    + intros j. rewrite step_cell, Hcells.
      destruct (decide (j = n)) as [->|Hne].
      * by rewrite decide_False, decide_True by lia.
      * destruct (decide (j < n)); [by rewrite decide_True by lia|by rewrite decide_False by lia].
Qed.

Lemma foldl_cells_block n h :
  length (block h s) ≤ n → block (foldl step h (seq 0 n)) s = f <$> block h s.
Proof.
  intros Hlen. apply list_eq. intros j.
  rewrite (proj2 (foldl_cells_spec n h)), list_lookup_fmap.
  destruct (decide (j < n)); [done|].
  rewrite lookup_ge_None_2 by lia. done.
Qed.
End foldl_cells.

Lemma classify_spec (h : gmap nat (list Cell)) s :
  wf h s →
  modifies_only s h (classify h s) ∧
  block (classify h s) s = classify_cell <$> block h s.
Proof.
  intros (blk & Hblk & Hlen). unfold classify.
  set (step := λ (h : gmap nat (list Cell)) i,
         if value (load h s i) =? V_None then store_type h s i DYNAMIC
         else store_type h s i FIXED).
  assert (Hframe : ∀ h i, modifies_only s h (step h i)).
  { intros h0 i. unfold step. destruct (_ =? _); apply modifies_only_store_type. }
  assert (Hcell : ∀ h i j, block (step h i) s !! j =
            if decide (j = i) then classify_cell <$> block h s !! j else block h s !! j).
  { intros h0 i j. unfold step, load.
    destruct (decide (j = i)) as [->|Hne].
    - destruct (block h0 s !! i) as [c|] eqn:Hc; simpl.
      + destruct (value c =? V_None) eqn:Hv;
          rewrite block_store_type, list_lookup_alter_eq, Hc; simpl;
          unfold set_type, classify_cell; by rewrite Hv.
      + rewrite block_store_type, list_lookup_alter_eq, Hc. done.
    - destruct (_ =? _); by rewrite block_store_type, list_lookup_alter_ne. }
  split.
  - apply (foldl_cells_spec step classify_cell s Hframe Hcell).
  - apply (foldl_cells_block step classify_cell s Hframe Hcell).
    unfold block. rewrite Hblk. simpl. lia.
Qed.

Lemma values_classify (h : gmap nat (list Cell)) s :
  wf h s → values (classify h s) s = values h s.
Proof.
  intros Hwf. unfold values. rewrite (proj2 (classify_spec h s Hwf)).
  rewrite <- list_fmap_compose. done.
Qed.

Lemma grid_fill_spec (h : gmap nat (list Cell)) s v t :
  wf h s →
  modifies_only s h (grid_fill h s v t) ∧
  block (grid_fill h s v t) s = (λ _, mkCell v t) <$> block h s.
Proof.
  intros (blk & Hblk & Hlen). unfold grid_fill.
  set (step := λ (h : gmap nat (list Cell)) i, store_type (store_value h s i v) s i t).
  assert (Hframe : ∀ h i, modifies_only s h (step h i)).
  { intros h0 i. unfold step.
    eapply modifies_only_trans; [apply modifies_only_store_value|apply modifies_only_store_type]. }
  assert (Hcell : ∀ h i j, block (step h i) s !! j =
            if decide (j = i) then (λ _, mkCell v t) <$> block h s !! j else block h s !! j).
  { intros h0 i j. unfold step. rewrite block_store_type, block_store_value.
    destruct (decide (j = i)) as [->|Hne].
    - rewrite !list_lookup_alter_eq. by destruct (block h0 s !! i).
    - by rewrite !list_lookup_alter_ne. }
  split.
  - apply (foldl_cells_spec step _ s Hframe Hcell).
  - apply (foldl_cells_block step _ s Hframe Hcell).
    unfold block. rewrite Hblk. simpl. lia.
Qed.

(** * The carving loop *)

Lemma remove_loop_eq probes fuel (h : gmap nat (list Cell)) r s count rc :
  remove_loop probes fuel h r s count rc =
  if (rc <? count)%Z then
    match probes with
    | 0 => None
    | S probes' =>
        let r2 : RandState := λ n, r (S (S n)) in
        let idx := (r 0 mod rows s) * cols s + r 1 mod cols s in
        if value (load h s idx) =? V_None then
          remove_loop probes' fuel h r2 s count rc
        else
          let h2 := store_type (store_value h s idx V_None) s idx DYNAMIC in
          match has_unique_solution fuel h2 s with
          | None => None
          | Some (false, h3) =>
              remove_loop probes' fuel
                (store_type (store_value h3 s idx (value (load h s idx))) s idx FIXED)
                r2 s count rc
          | Some (true, h3) => remove_loop probes' fuel h3 r2 s count (rc + 1)%Z
          end
    end
  else Some (h, r).
Proof. destruct probes; reflexivity. Qed.

Lemma wf_values_lookup (h : gmap nat (list Cell)) s i :
  i < length (values h s) → values h s !! i = Some (values h s !!! i).
Proof. intros Hi. apply list_lookup_lookup_total_lt. done. Qed.

Lemma remove_loop_spec s :
  rows s = 9 → cols s = 9 →
  ∀ probes fuel (h : gmap nat (list Cell)) r count rc h' r',
  wf h s →
  remove_loop probes fuel h r s count rc = Some (h', r') →
  modifies_only s h h' ∧
  (∀ i, values h' s !!! i = 0 ∨ values h' s !!! i = values h s !!! i) ∧
  (Z.of_nat (empties (values h' s)) =
   Z.of_nat (empties (values h s)) + Z.max 0 (count - rc))%Z ∧
  (consistent (values h s) → unique_completion (values h s) →
   consistent (values h' s) ∧ unique_completion (values h' s)).
Proof.
  intros Hrows Hcols.
  induction probes as [|probes IH]; intros fuel h r count rc h' r' Hwf;
    rewrite remove_loop_eq; destruct (Z.ltb_spec rc count) as [Hlt|Hge];
    try done;
    try (intros [= <- <-]; split; [apply modifies_only_refl|];
         split; [by right|]; split; [lia|done]).
  rewrite Hrows, Hcols. cbv zeta.
  set (idx := r 0 mod 9 * 9 + r 1 mod 9).
  assert (Hidx : idx < 81).
  { pose proof (Nat.mod_upper_bound (r 0) 9). pose proof (Nat.mod_upper_bound (r 1) 9).
    unfold idx. lia. }
  assert (Hlen : length (values h s) = 81).
  { rewrite (wf_length _ _ Hwf), Hrows, Hcols. done. }
  rewrite value_load.
  destruct (Nat.eqb_spec (values h s !!! idx) V_None) as [Hz|Hnz].
  { apply IH. done. }
  set (h2 := store_type (store_value h s idx V_None) s idx DYNAMIC).
  assert (Hmod2 : modifies_only s h h2).
  { eapply modifies_only_trans; [apply modifies_only_store_value|apply modifies_only_store_type]. }
  assert (Hwf2 : wf h2 s) by (by eapply modifies_only_wf).
  assert (Hvals2 : values h2 s = <[idx := 0]> (values h s)).
  { unfold h2. by rewrite values_store_type, values_store_value. }
  destruct (has_unique_solution fuel h2 s) as [[b h3]|] eqn:Huniq; [|done].
  pose proof (has_unique_solution_heap _ _ _ _ _ Huniq) as ->.
  destruct b.
  - (* the removal is kept *)
    intros Hloop. destruct (IH _ _ _ _ _ _ _ Hwf2 Hloop) as (Hmod & Hval & Hemp & Huc).
    split; [by eapply modifies_only_trans|]. split; [|split].
    + intros i. destruct (Hval i) as [?|Hi]; [by left|]. rewrite Hi, Hvals2.
      destruct (decide (i = idx)) as [->|Hne].
      * left. by rewrite list_lookup_total_insert_eq by lia.
      * right. by rewrite list_lookup_total_insert_ne.
    + rewrite Hemp, Hvals2, empties_clear by (done || lia). lia.
    + intros Hcons _.
      assert (Hcons2 : consistent (values h2 s)).
      { rewrite Hvals2. by apply consistent_clear. }
      apply Huc; [done|].
      by apply (has_unique_solution_spec fuel h2 s true h2 Hrows Hcols Hwf2 Hcons2).
  - (* the removal is undone *)
    set (h5 := store_type (store_value h2 s idx (values h s !!! idx)) s idx FIXED).
    assert (Hmod5 : modifies_only s h h5).
    { eapply modifies_only_trans; [exact Hmod2|].
      eapply modifies_only_trans; [apply modifies_only_store_value|apply modifies_only_store_type]. }
    assert (Hwf5 : wf h5 s) by (by eapply modifies_only_wf).
    assert (Hvals5 : values h5 s = values h s).
    { unfold h5. rewrite values_store_type, values_store_value, Hvals2.
      rewrite list_insert_insert_eq. apply list_insert_id.
      apply wf_values_lookup. lia. }
    intros Hloop. destruct (IH _ _ _ _ _ _ _ Hwf5 Hloop) as (Hmod & Hval & Hemp & Huc).
    rewrite Hvals5 in Hval, Hemp, Huc.
    split; [by eapply modifies_only_trans|done].
Qed.

Lemma remove_cells_spec s probes fuel (h : gmap nat (list Cell)) r ref count h' r' :
  rows s = 9 → cols s = 9 → wf h s →
  remove_cells probes fuel h r s ref count = Some (h', r') →
  modifies_only s h h' ∧
  block h' s = classify_cell <$> block h' s ∧
  (∀ i, values h' s !!! i = 0 ∨ values h' s !!! i = values h s !!! i) ∧
  (Z.of_nat (empties (values h' s)) =
   Z.of_nat (empties (values h s)) + Z.max 0 count)%Z ∧
  (consistent (values h s) → unique_completion (values h s) →
   consistent (values h' s) ∧ unique_completion (values h' s)).
Proof.
  intros Hrows Hcols Hwf. unfold remove_cells.
  destruct (remove_loop _ _ _ _ _ _ _) as [[h1 r1]|] eqn:Hloop; [|done].
  intros [= <- <-].
  destruct (remove_loop_spec s Hrows Hcols _ _ _ _ _ _ _ _ Hwf Hloop)
    as (Hmod & Hval & Hemp & Huc).
  assert (Hwf1 : wf h1 s) by (by eapply modifies_only_wf).
  destruct (classify_spec h1 s Hwf1) as [Hmodc Hblk].
  rewrite (values_classify _ _ Hwf1).
  split; [by eapply modifies_only_trans|]. split; [|split; [done|split; [|done]]].
  - rewrite Hblk, <- list_fmap_compose. apply list_fmap_ext. by intros _ [v t] _.
  - rewrite Hemp. lia.
Qed.

(** * A solved grid exists *)

Lemma solved_vals_solved : solved solved_vals.
Proof.
  split; [done|]. intros k Hk.
  assert (H : Forall (λ k, row_of solved_vals k ≡ₚ seq 1 9 ∧
                           col_of solved_vals k ≡ₚ seq 1 9 ∧
                           box_of solved_vals k ≡ₚ seq 1 9) (seq 0 9)).
  { eapply bool_decide_unpack. by vm_compute. }
  rewrite Forall_forall in H. apply H, elem_of_seq. lia.
Qed.

Lemma empty_grid_completion (g : list nat) :
  (∀ i, i < 81 → g !!! i = 0) → completion g solved_vals.
Proof. intros Hz. split; [apply solved_vals_solved|]. intros i Hi Hnz. by destruct Hnz; apply Hz. Qed.

Lemma empty_grid_filled_upto (g : list nat) :
  length g = 81 → (∀ i, i < 81 → g !!! i = 0) → filled_upto 0 g.
Proof.
  intros Hlen Hz. split; [split; [done|split]|split].
  - intros i Hi. rewrite Hz by done. lia.
  - intros i j Hi _ _ _ Hnz. by destruct Hnz; apply Hz.
  - intros i Hi. lia.
  - intros i Hi. apply Hz. lia.
Qed.

(** [fill_grid] on an empty 9x9 grid: it returns, it returns [true], and
    the grid is solved. *)
Lemma fill_grid_empty fuel (h : gmap nat (list Cell)) r s :
  wf9 h s → (∀ i, i < 81 → values h s !!! i = 0) → 81 < fuel →
  ∃ h' r', fill_grid fuel h r s 0 0 = Some (true, h', r') ∧
           modifies_only s h h' ∧ solved (values h' s).
Proof.
  intros Hwf Hz Hfuel. pose proof Hwf as (Hrows & Hcols & _).
  destruct (fill_grid_total s fuel 0 h r Hrows Hcols ltac:(lia) ltac:(lia))
    as [[[b h'] r'] Hfg].
  change (0 / 9) with 0 in Hfg. change (0 mod 9) with 0 in Hfg.
  pose proof (fill_grid_spec s fuel 0 h r b h' r' Hrows Hcols ltac:(lia)
                (empty_grid_filled_upto _ (wf9_length _ _ Hwf) Hz) Hfg) as [Hmod Hres].
  destruct b.
  - by exists h', r'.
  - destruct Hres as [_ Hnone]. destruct (Hnone solved_vals).
    by apply empty_grid_completion.
Qed.

(** The same for any fuel with which the call returns. *)
Lemma fill_grid_empty_partial fuel (h : gmap nat (list Cell)) r s b h' r' :
  wf9 h s → (∀ i, i < 81 → values h s !!! i = 0) →
  fill_grid fuel h r s 0 0 = Some (b, h', r') →
  b = true ∧ modifies_only s h h' ∧ solved (values h' s).
Proof.
  intros Hwf Hz Hfg. pose proof Hwf as (Hrows & Hcols & _).
  pose proof (fill_grid_spec s fuel 0 h r b h' r' Hrows Hcols ltac:(lia)
                (empty_grid_filled_upto _ (wf9_length _ _ Hwf) Hz) Hfg) as [Hmod Hres].
  destruct b; [done|].
  destruct Hres as [_ Hnone]. destruct (Hnone solved_vals).
  by apply empty_grid_completion.
Qed.

(** * The facade *)

Lemma block_lookup_eq (h h' : gmap nat (list Cell)) s :
  h' !! grid s = h !! grid s → block h' s = block h s.
Proof. unfold block. by intros ->. Qed.

Lemma wf9_lookup_eq (h h' : gmap nat (list Cell)) s :
  h' !! grid s = h !! grid s → wf9 h s → wf9 h' s.
Proof.
  intros Heq (Hr & Hc & b & Hb & Hl). repeat split; [done..|].
  exists b. by rewrite Heq.
Qed.

Lemma wf9_live (h : gmap nat (list Cell)) s : wf9 h s → is_Some (h !! grid s).
Proof. intros (_ & _ & b & Hb & _). by exists b. Qed.

Lemma wf9_block (h : gmap nat (list Cell)) s b :
  rows s = 9 → cols s = 9 → h !! grid s = Some b → length b = 81 → wf9 h s.
Proof.
  intros Hr Hc Hb Hl. repeat split; [done..|]. exists b. by rewrite Hr, Hc.
Qed.

(** A global grid is allocated on first use and kept afterwards. *)
Lemma keep_or_open (h3 : gmap nat (list Cell)) g0 s h4 :
  grid g0 = NULL ∨ wf9 h3 g0 →
  (if decide (grid g0 = NULL) then game_open h3 ROWS COLS else (g0, h3)) = (s, h4) →
  wf9 h4 s ∧ grid s ≠ NULL ∧ (∀ a, a ≠ grid s → h4 !! a = h3 !! a) ∧
  ((s = g0 ∧ grid g0 ≠ NULL) ∨ h3 !! grid s = None).
Proof.
  intros Hg. destruct (decide (grid g0 = NULL)) as [Hnull|Hnn].
  - intros (Hr & Hc & Hn & Hfresh & ->)%game_open_spec.
    split; [|split; [done|split; [|by right]]].
    + eapply wf9_block; [done|done|apply lookup_insert_eq|by rewrite length_replicate].
    + intros a Ha. by rewrite lookup_insert_ne.
  - intros [= <- <-]. destruct Hg as [?|Hwf]; [done|].
    split; [done|]. split; [done|]. split; [done|by left].
Qed.

Lemma generate_new_game_spec probes fuel (h : gmap nat (list Cell)) r g n h' r' g' :
  globals_ok h g →
  generate_new_game probes fuel h r g n = Some (h', r', g') →
  wf9 h' (current_puzzle_grid g') ∧ wf9 h' (solution_grid g') ∧
  grid (current_puzzle_grid g') ≠ grid (solution_grid g') ∧
  solved (values h' (solution_grid g')) ∧
  block h' (current_puzzle_grid g') = classify_cell <$> block h' (current_puzzle_grid g') ∧
  (∀ i, values h' (current_puzzle_grid g') !!! i = 0 ∨
        values h' (current_puzzle_grid g') !!! i = values h' (solution_grid g') !!! i) ∧
  (Z.of_nat (empties (values h' (current_puzzle_grid g'))) = Z.max 0 n)%Z ∧
  consistent (values h' (current_puzzle_grid g')) ∧
  unique_completion (values h' (current_puzzle_grid g')).
Proof.
  intros (Hgs & Hgc & Hdist). unfold generate_new_game.
  (* the scratch grid *)
  destruct (game_open h ROWS COLS) as [temp h1] eqn:Hopen.
  apply game_open_spec in Hopen as (Htr & Htc & Htn & Htfresh & ->).
  set (h1 := <[grid temp := replicate (ROWS * COLS) (mkCell V_None FIXED)]> h).
  assert (Hwf1 : wf9 h1 temp).
  { eapply wf9_block; [done|done|apply lookup_insert_eq|by rewrite length_replicate]. }
  destruct (grid_fill_spec h1 temp V_None DYNAMIC (proj2 (proj2 Hwf1))) as [Hmod2 Hblk2].
  set (h2 := grid_fill h1 temp V_None DYNAMIC) in *.
  assert (Hwf2 : wf9 h2 temp) by (by eapply modifies_only_wf9).
  assert (Hz2 : ∀ i, i < 81 → values h2 temp !!! i = 0).
  { intros i Hi. rewrite <- value_load. unfold load. rewrite Hblk2, list_lookup_fmap.
    by destruct (block h1 temp !! i). }
  destruct (fill_grid fuel h2 r temp 0 0) as [[[b h3] r1]|] eqn:Hfg; [|done].
  apply fill_grid_empty_partial in Hfg as (_ & Hmod3 & Hsolved); [|done|done].
  assert (Hwf3 : wf9 h3 temp) by (by eapply modifies_only_wf9).
  assert (Hold3 : ∀ a, a ≠ grid temp → h3 !! a = h !! a).
  { intros a Ha. rewrite (proj1 Hmod3), (proj1 Hmod2) by done.
    unfold h1. by rewrite lookup_insert_ne. }
  assert (Hkeep3 : ∀ g0, grid g0 = NULL ∨ wf9 h g0 →
            (grid g0 = NULL ∨ wf9 h3 g0) ∧ (grid g0 ≠ NULL → grid g0 ≠ grid temp)).
  { intros g0 [?|Hwf0]; [split; [by left|done]|].
    assert (grid g0 ≠ grid temp).
    { intros Heq. apply wf9_live in Hwf0. rewrite Heq, Htfresh in Hwf0. by destruct Hwf0. }
    split; [right|done]. eapply wf9_lookup_eq; [|done]. by apply Hold3. }
  destruct (wf9_live _ _ Hwf3) as [tb Htb].
  assert (Htbl : length tb = 81).
  { pose proof (wf9_length _ _ Hwf3) as Hl. by rewrite length_values in Hl; unfold block in Hl;
      rewrite Htb in Hl. }
  (* the solution grid *)
  destruct (Hkeep3 _ Hgs) as [Hgs3 Hgst]. destruct (Hkeep3 _ Hgc) as [Hgc3 Hgct].
  destruct (if decide (grid (solution_grid g) = NULL) then _ else _) as [sol h4] eqn:Hsol.
  apply keep_or_open in Hsol as (Hwf4 & Hsn & Hold4 & Hsol); [|done].
  assert (Hst : grid sol ≠ grid temp).
  { destruct Hsol as [[-> ?]|Hnone]; [by apply Hgst|]. intros Heq. by rewrite Heq, Htb in Hnone. }
  destruct (wf9_live _ _ Hwf4) as [sb Hsb].
  assert (Hsbl : length sb = 81).
  { pose proof (wf9_length _ _ Hwf4) as Hl. by rewrite length_values in Hl; unfold block in Hl;
      rewrite Hsb in Hl. }
  assert (Htb4 : h4 !! grid temp = Some tb) by (by rewrite Hold4).
  set (h5 := memcpy h4 (grid sol) (grid temp) (ROWS * COLS)).
  assert (Hsol5 : h5 !! grid sol = Some tb) by (by eapply memcpy_full).
  assert (Hold5 : ∀ a, a ≠ grid sol → h5 !! a = h3 !! a).
  { intros a Ha. unfold h5. by rewrite memcpy_other, Hold4. }
  (* the puzzle grid *)
  assert (Hgc5 : grid (current_puzzle_grid g) = NULL ∨ wf9 h5 (current_puzzle_grid g)).
  { destruct (decide (grid (current_puzzle_grid g) = NULL)) as [?|Hcn]; [by left|right].
    destruct Hgc3 as [?|Hwfc]; [done|].
    eapply wf9_lookup_eq; [|done]. apply Hold5.
    destruct Hsol as [[-> ?]|Hnone]; [by apply not_eq_sym, Hdist|].
    intros Heq. apply wf9_live in Hwfc. rewrite Heq, Hnone in Hwfc. by destruct Hwfc. }
  destruct (if decide (grid (current_puzzle_grid g) = NULL) then _ else _)
    as [cur h6] eqn:Hcur.
  apply keep_or_open in Hcur as (Hwf6 & Hcn & Hold6 & Hcur); [|done].
  assert (Hct : grid cur ≠ grid temp).
  { destruct Hcur as [[-> ?]|Hnone]; [by apply Hgct|].
    intros Heq. rewrite Heq, Hold5, Htb in Hnone; done. }
  assert (Hcs : grid cur ≠ grid sol).
  { destruct Hcur as [[-> Hcnn]|Hnone].
    - destruct Hgc5 as [?|Hwfc]; [done|].
      destruct Hsol as [[-> ?]|Hnone]; [by apply not_eq_sym, Hdist|].
      destruct Hgc3 as [?|Hwfc3]; [done|].
      intros Heq. apply wf9_live in Hwfc3. rewrite Heq, Hnone in Hwfc3. by destruct Hwfc3.
    - intros Heq. by rewrite Heq, Hsol5 in Hnone. }
  destruct (wf9_live _ _ Hwf6) as [cb Hcb].
  assert (Hcbl : length cb = 81).
  { pose proof (wf9_length _ _ Hwf6) as Hl. by rewrite length_values in Hl; unfold block in Hl;
      rewrite Hcb in Hl. }
  assert (Htb6 : h6 !! grid temp = Some tb) by (by rewrite Hold6, Hold5).
  set (h7 := memcpy h6 (grid cur) (grid temp) (ROWS * COLS)).
  assert (Hcur7 : h7 !! grid cur = Some tb) by (by eapply memcpy_full).
  assert (Hsol7 : h7 !! grid sol = Some tb).
  { unfold h7. rewrite memcpy_other, Hold6 by done. done. }
  assert (Hwf7 : wf9 h7 cur).
  { destruct Hwf6 as (? & ? & _). by eapply wf9_block. }
  (* carving *)
  destruct (remove_cells probes fuel h7 r1 cur sol n) as [[h8 r2]|] eqn:Hrm; [|done].
  intros [= <- <- <-]. simpl.
  pose proof Hwf7 as (Hcr & Hcc & Hwfc7).
  destruct (remove_cells_spec cur _ _ _ _ _ _ _ _ Hcr Hcc Hwfc7 Hrm)
    as (Hmod8 & Hcls & Hval & Hemp & Huc).
  assert (Hvals7 : values h7 cur = values h3 temp).
  { unfold values, block. by rewrite Hcur7, Htb. }
  rewrite Hvals7 in Hval, Hemp, Huc.
  assert (Hclose : ∀ a, a ≠ grid temp → game_close h8 temp !! a = h8 !! a).
  { intros a Ha. unfold game_close. rewrite decide_False by done. by rewrite lookup_delete_ne. }
  assert (Hsol8 : game_close h8 temp !! grid sol = Some tb).
  { rewrite Hclose by done. rewrite (proj1 Hmod8) by done. done. }
  assert (Hblkc : block (game_close h8 temp) cur = block h8 cur).
  { apply block_lookup_eq, Hclose. done. }
  assert (Hvalc : values (game_close h8 temp) cur = values h8 cur).
  { unfold values. by rewrite Hblkc. }
  assert (Hvals : values (game_close h8 temp) sol = values h3 temp).
  { unfold values, block. by rewrite Hsol8, Htb. }
  rewrite Hblkc, Hvalc, Hvals.
  assert (Hempty3 : empties (values h3 temp) = 0).
  { apply empties_zero. intros i Hi. destruct Hsolved as [Hl Hu].
    pose proof (solved_range _ i (conj Hl Hu) ltac:(lia)). lia. }
  split; [|split; [|split; [done|split; [done|split; [done|split; [done|split]]]]]].
  - eapply wf9_lookup_eq; [by apply Hclose|]. by eapply modifies_only_wf9.
  - destruct Hwf4 as (? & ? & _). by eapply wf9_block.
  - rewrite Hemp, Hempty3. lia.
  - apply Huc; [by apply solved_consistent|by apply solved_unique_completion].
Qed.

(** * Facts on the concrete grids *)

Lemma values_heap_of (vs : list nat) : values (heap_of vs) s9 = vs.
Proof.
  unfold values, block, heap_of, s9, cells_of. simpl. rewrite lookup_singleton_eq. simpl.
  rewrite <- list_fmap_compose. apply list_fmap_id.
Qed.

Lemma wf9_heap_of (vs : list nat) : length vs = 81 → wf9 (heap_of vs) s9.
Proof.
  intros Hlen. apply (wf9_block _ _ (cells_of vs)); [done|done|apply lookup_singleton_eq|].
  unfold cells_of. by rewrite length_fmap.
Qed.

Lemma globals_ok_fresh (h : gmap nat (list Cell)) : globals_ok h fresh_globals.
Proof. split; [by left|]. split; [by left|done]. Qed.

(** Clearing cells of a consistent grid leaves it consistent. *)
Lemma consistent_sub (g g' : list nat) :
  consistent g → length g' = 81 →
  (∀ i, i < 81 → g' !!! i = 0 ∨ g' !!! i = g !!! i) → consistent g'.
Proof.
  intros (Hlen & Hrange & Hpeers) Hlen' Hsub. split; [done|]. split.
  - intros i Hi. destruct (Hsub i Hi) as [->| ->]; [lia|by apply Hrange].
  - intros i j Hi Hj Hne Hp Hnz.
    destruct (Hsub i Hi) as [?|Hgi]; [done|]. rewrite Hgi in Hnz |- *.
    destruct (Hsub j Hj) as [->| ->]; [done|by apply Hpeers].
Qed.

Lemma open24_consistent : consistent open24_vals.
Proof.
  apply (consistent_sub solved_vals); [apply solved_consistent, solved_vals_solved|done|].
  assert (H : Forall (λ i, open24_vals !!! i = 0 ∨ open24_vals !!! i = solved_vals !!! i)
                     (seq 0 81)).
  { eapply bool_decide_unpack. by vm_compute. }
  intros i Hi. rewrite Forall_forall in H. apply H, elem_of_seq. lia.
Qed.

Lemma clash_no_completion c : ¬ completion clash_vals c.
Proof.
  intros [Hs Hkeep].
  apply (solved_peers c 0 1 Hs); [lia|lia|done|by left|].
  assert (H0 : c !!! 0 = 2) by (apply (Hkeep 0); [lia|by vm_compute]).
  assert (H1 : c !!! 1 = 2) by (apply (Hkeep 1); [lia|by vm_compute]).
  congruence.
Qed.

Lemma empties_filled (vs : list nat) : empties vs + filled vs = length vs.
Proof.
  unfold empties, filled. induction vs as [|v vs IH]; [done|].
  rewrite !filter_cons. destruct (decide (v = 0)), (decide (v ≠ 0)); simpl; lia.
Qed.

Lemma first_empty_full (h : gmap nat (list Cell)) s :
  (∀ i, i < rows s * cols s → value (load h s i) ≠ V_None) → first_empty h s = None.
Proof.
  intros Hfull. destruct (first_empty h s) as [[row col]|] eqn:Hfe; [|done].
  apply first_empty_Some in Hfe as (Hrow & Hcol & Hz).
  destruct (Hfull (row * cols s + col)); [nia|done].
Qed.

(** * The claims *)

(** C4.  On a 9x9 grid and for [row], [col] below 9, [is_valid] returns
    false exactly when [val] occurs in the row at another column, in the
    column at another row, or in the 3x3 box with origin
    [(3 * (row / 3), 3 * (col / 3))] at another position; in particular it
    returns true when [val] occurs nowhere but in the target cell.  The
    function only reads the heap: it returns a boolean and no heap. *)
Theorem is_valid_correct (h : gmap nat (list Cell)) s row col val :
  wf9 h s → row < 9 → col < 9 →
  (is_valid h s row col val = false ↔
   (∃ x, x < 9 ∧ x ≠ col ∧ value (load h s (row * 9 + x)) = val) ∨
   (∃ y, y < 9 ∧ y ≠ row ∧ value (load h s (y * 9 + col)) = val) ∨
   (∃ y x, 3 * (row / 3) ≤ y < 3 * (row / 3) + 3 ∧
           3 * (col / 3) ≤ x < 3 * (col / 3) + 3 ∧
           (y, x) ≠ (row, col) ∧ value (load h s (y * 9 + x)) = val)) ∧
  ((∀ y x, y < 9 → x < 9 → value (load h s (y * 9 + x)) = val → (y, x) = (row, col)) →
   is_valid h s row col val = true).
Proof.
  intros (Hrows & Hcols & _) Hrow Hcol. split.
  - apply (is_valid_false_iff h s row col val Hrows Hcols).
  - intros Honly. apply is_valid_true_iff; [done|done|].
    intros [(x & Hx & Hne & Hv)|[(y & Hy & Hne & Hv)|(y & x & Hy & Hx & Hne & Hv)]].
    + apply Honly in Hv; [|done|done]. congruence.
    + apply Honly in Hv; [|done|done]. congruence.
    + apply Honly in Hv; [done|lia|lia].
Qed.

Lemma is_valid_correct_witness :
  is_valid (heap_of solved_vals) s9 0 0 1 = true ∧
  is_valid (heap_of solved_vals) s9 0 0 2 = false.
Proof.
  pose proof (is_valid_correct (heap_of solved_vals) s9 0 0 2
                (wf9_heap_of solved_vals eq_refl) ltac:(lia) ltac:(lia)) as [Hiff _].
  split; [by vm_compute|]. apply Hiff. left. exists 1.
  split; [lia|]. split; [lia|]. by vm_compute.
Defined.

(** C10.  The empty marker gets no special treatment: [is_valid] refuses
    [V_None] as soon as another cell of the row, the column or the box is
    empty. *)
Theorem is_valid_empty_marker (h : gmap nat (list Cell)) s row col y x :
  wf9 h s → row < 9 → col < 9 → y < 9 → x < 9 →
  (y, x) ≠ (row, col) →
  y = row ∨ x = col ∨ (y / 3 = row / 3 ∧ x / 3 = col / 3) →
  value (load h s (y * 9 + x)) = V_None →
  is_valid h s row col V_None = false.
Proof.
  intros (Hrows & Hcols & _) Hrow Hcol Hy Hx Hne Hpeer Hv.
  apply is_valid_false_iff; [done|done|].
  destruct (decide (y = row)) as [->|Hyr].
  { left. exists x. split; [done|]. split; [congruence|done]. }
  destruct (decide (x = col)) as [->|Hxc].
  { right; left. by exists y. }
  right; right. exists y, x. destruct Hpeer as [?|[?|[? ?]]]; [done|done|].
  split; [lia|]. split; [lia|done].
Qed.

Lemma is_valid_empty_marker_witness :
  is_valid (heap_of open24_vals) s9 0 0 V_None = false.
Proof.
  apply (is_valid_empty_marker (heap_of open24_vals) s9 0 0 0 1);
    [by apply wf9_heap_of|lia|lia|lia|lia|done|by left|by vm_compute].
Defined.

(** C8.  [count_solutions] is a round trip on its grid: whenever it returns,
    for any limit, the heap is the one it was given; and on a grid whose
    block has [rows * cols] cells it does return, with fuel above the number
    of empty cells. *)
Theorem count_solutions_round_trip fuel (h : gmap nat (list Cell)) s limit :
  (∀ n h', count_solutions fuel h s limit = Some (n, h') → h' = h) ∧
  (wf h s → empties (values h s) < fuel →
   ∃ n, count_solutions fuel h s limit = Some (n, h)).
Proof.
  split.
  - intros n h'. apply count_solutions_restore.
  - intros Hwf Hfuel.
    destruct (count_solutions_total fuel h s limit Hwf Hfuel) as [[n h'] Hc].
    exists n. by rewrite Hc, (count_solutions_restore _ _ _ _ _ _ Hc).
Qed.

Lemma count_solutions_round_trip_witness :
  ∃ n, count_solutions 25 (heap_of open24_vals) s9 5 = Some (n, heap_of open24_vals).
Proof.
  apply (count_solutions_round_trip 25 (heap_of open24_vals) s9 5).
  - apply (wf9_heap_of open24_vals eq_refl).
  - rewrite values_heap_of. vm_compute. lia.
Defined.

(** C7.  [has_unique_solution] runs the counter on a copy at a fresh
    non-null address, and whenever it returns the heap, hence the caller's
    grid, is as before the call; on a well-formed grid it returns. *)
Theorem has_unique_solution_frame fuel (h : gmap nat (list Cell)) s :
  grid (game_open h (rows s) (cols s)).1 ≠ NULL ∧
  h !! grid (game_open h (rows s) (cols s)).1 = None ∧
  (∀ b h', has_unique_solution fuel h s = Some (b, h') →
           h' = h ∧ block h' s = block h s) ∧
  (wf h s → rows s * cols s < fuel → is_Some (has_unique_solution fuel h s)).
Proof.
  destruct (game_open h (rows s) (cols s)) as [copy h1] eqn:Hopen.
  apply game_open_spec in Hopen as (_ & _ & Hnn & Hfresh & _).
  split; [done|]. split; [done|]. split.
  - intros b h' Hu. apply has_unique_solution_heap in Hu as ->. done.
  - apply has_unique_solution_total.
Qed.

Lemma has_unique_solution_frame_witness :
  ∃ b, has_unique_solution 82 (heap_of open24_vals) s9 = Some (b, heap_of open24_vals).
Proof.
  destruct (has_unique_solution_frame 82 (heap_of open24_vals) s9) as (_ & _ & Hret & Htot).
  destruct Htot as [[b h'] Hu].
  - apply (wf9_heap_of open24_vals eq_refl).
  - vm_compute. lia.
  - exists b. rewrite Hu. destruct (Hret b h' Hu) as [-> _]. reflexivity.
Defined.

(** C2 does not hold for every grid.  On a full grid that breaks the rules
    (two 2s in the first row) the counter returns 1 and
    [has_unique_solution] answers true, although the grid has no valid
    completion: the counter never checks the cells it is given. *)
Lemma count_solutions_clash :
  wf9 (heap_of clash_vals) s9 ∧
  count_solutions 82 (heap_of clash_vals) s9 2 = Some (1%Z, heap_of clash_vals) ∧
  has_unique_solution 82 (heap_of clash_vals) s9 = Some (true, heap_of clash_vals) ∧
  ¬ ∃ c, completion (values (heap_of clash_vals) s9) c.
Proof.
  split; [by apply wf9_heap_of|]. split; [by vm_compute|]. split; [by vm_compute|].
  rewrite values_heap_of. intros [c Hc]. by apply (clash_no_completion c).
Qed.

(** C2, for grids whose filled cells do not clash.  On a grid of any
    dimensions with no empty cell [count_solutions] returns 1, whatever the
    limit.  On a 9x9 grid whose filled cells hold values 1..9 and do not
    clash in a row, column or box, the count with limit 2 is 0 exactly when
    the grid has no valid completion, 1 exactly when it has one, and at
    least 2 exactly when it has two or more; and [has_unique_solution]
    answers true exactly when the grid has one valid completion. *)
Theorem count_solutions_oracle :
  (∀ fuel (h : gmap nat (list Cell)) s limit,
     0 < fuel →
     (∀ i, i < rows s * cols s → value (load h s i) ≠ V_None) →
     count_solutions fuel h s limit = Some (1%Z, h)) ∧
  (∀ fuel (h : gmap nat (list Cell)) s,
     wf9 h s → 81 < fuel → consistent (values h s) →
     ∃ n, count_solutions fuel h s 2 = Some (n, h) ∧
          (n = 0%Z ↔ ¬ ∃ c, completion (values h s) c) ∧
          (n = 1%Z ↔ unique_completion (values h s)) ∧
          ((2 ≤ n)%Z ↔ ∃ c1 c2, c1 ≠ c2 ∧ completion (values h s) c1 ∧
                                completion (values h s) c2) ∧
          ∃ b, has_unique_solution fuel h s = Some (b, h) ∧
               (b = true ↔ unique_completion (values h s))).
Proof.
  split.
  - intros fuel h s limit Hfuel Hfull. destruct fuel as [|fuel]; [lia|].
    by rewrite count_solutions_S, first_empty_full.
  - intros fuel h s Hwf9 Hfuel Hcons. pose proof Hwf9 as (Hrows & Hcols & Hwf).
    assert (Hemp : empties (values h s) < fuel).
    { pose proof (empties_le (values h s)). rewrite (wf9_length _ _ Hwf9) in *. lia. }
    destruct (count_solutions_total fuel h s 2 Hwf Hemp) as [[n h'] Hc].
    destruct (count_solutions_spec _ _ _ _ _ Hrows Hcols Hcons Hc) as [-> Hspec].
    exists n. split; [done|].
    split; [by apply count_spec_zero_iff|].
    split; [by apply count_spec_one_iff|].
    split; [by apply count_spec_many_iff|].
    destruct (has_unique_solution_total fuel h s Hwf) as [[b h'] Hu].
    { rewrite Hrows, Hcols. lia. }
    pose proof (has_unique_solution_heap _ _ _ _ _ Hu) as ->.
    exists b. split; [done|].
    by apply (has_unique_solution_spec fuel h s b h Hrows Hcols Hwf Hcons).
Qed.

Lemma count_solutions_oracle_witness :
  count_solutions 1 (heap_of solved_vals) s9 2 = Some (1%Z, heap_of solved_vals) ∧
  ∃ n, count_solutions 82 (heap_of open24_vals) s9 2 = Some (n, heap_of open24_vals) ∧
       ((2 ≤ n)%Z ↔ ∃ c1 c2, c1 ≠ c2 ∧ completion (values (heap_of open24_vals) s9) c1 ∧
                              completion (values (heap_of open24_vals) s9) c2).
Proof.
  split.
  - apply (proj1 count_solutions_oracle 1 (heap_of solved_vals) s9 2%Z ltac:(lia)).
    assert (H : Forall (λ i, value (load (heap_of solved_vals) s9 i) ≠ V_None) (seq 0 81)).
    { eapply bool_decide_unpack. by vm_compute. }
    intros i Hi. rewrite Forall_forall in H. apply H, elem_of_seq.
    change (rows s9 * cols s9) with 81 in Hi. lia.
  - destruct (proj2 count_solutions_oracle 82 (heap_of open24_vals) s9
                (wf9_heap_of open24_vals eq_refl) ltac:(lia))
      as (n & Hn & _ & _ & Hmany & _).
    { rewrite values_heap_of. apply open24_consistent. }
    exists n. split; [exact Hn|exact Hmany].
Defined.

(** C9.  The count is not capped at the limit: on a consistent puzzle with
    24 empty cells [count_solutions] with limit 2 returns 3. *)
Theorem count_solutions_above_limit :
  ∃ (h : gmap nat (list Cell)) s,
    wf9 h s ∧ consistent (values h s) ∧
    count_solutions 82 h s 2 = Some (3%Z, h) ∧ (2 < 3)%Z.
Proof.
  exists (heap_of open24_vals), s9.
  split; [by apply wf9_heap_of|].
  split; [rewrite values_heap_of; apply open24_consistent|].
  split; [by vm_compute|lia].
Qed.

(** C3.  For every random sequence, [fill_grid] started at [(0, 0)] on an
    empty 9x9 grid returns, and returns true; every cell then holds a
    non-zero value and every row, column and 3x3 box is a permutation of
    1..9. *)
Theorem fill_grid_completes fuel (h : gmap nat (list Cell)) (r : RandState) s :
  wf9 h s → (∀ i, i < 81 → value (load h s i) = V_None) → 81 < fuel →
  ∃ h' r',
    fill_grid fuel h r s 0 0 = Some (true, h', r') ∧
    (∀ i, i < 81 → value (load h' s i) ≠ V_None) ∧
    ∀ k, k < 9 → row_of (values h' s) k ≡ₚ seq 1 9 ∧
                 col_of (values h' s) k ≡ₚ seq 1 9 ∧
                 box_of (values h' s) k ≡ₚ seq 1 9.
Proof.
  intros Hwf Hz Hfuel.
  destruct (fill_grid_empty fuel h r s Hwf) as (h' & r' & Hfg & _ & Hs); [|done|].
  { intros i Hi. rewrite <- value_load. by apply Hz. }
  exists h', r'. split; [done|]. split.
  - intros i Hi. rewrite value_load. pose proof (solved_range _ i Hs Hi). unfold V_None. lia.
  - by destruct Hs.
Qed.

Lemma fill_grid_completes_witness :
  ∃ h' r',
    fill_grid 82 (heap_of (replicate 81 0)) sample_rand s9 0 0 = Some (true, h', r') ∧
    (∀ i, i < 81 → value (load h' s9 i) ≠ V_None) ∧
    ∀ k, k < 9 → row_of (values h' s9) k ≡ₚ seq 1 9 ∧
                 col_of (values h' s9) k ≡ₚ seq 1 9 ∧
                 box_of (values h' s9) k ≡ₚ seq 1 9.
Proof.
  apply fill_grid_completes; [by apply wf9_heap_of| |lia].
  assert (H : Forall (λ i, value (load (heap_of (replicate 81 0)) s9 i) = V_None) (seq 0 81)).
  { eapply bool_decide_unpack. by vm_compute. }
  intros i Hi. rewrite Forall_forall in H. apply H, elem_of_seq. lia.
Defined.

(** The count of a consistent grid with a unique completion is 1. *)
Lemma count_solutions_unique fuel (h : gmap nat (list Cell)) s :
  wf9 h s → consistent (values h s) → unique_completion (values h s) → 81 < fuel →
  count_solutions fuel h s 2 = Some (1%Z, h).
Proof.
  intros Hwf9 Hcons Huniq Hfuel. pose proof Hwf9 as (Hrows & Hcols & Hwf).
  assert (Hemp : empties (values h s) < fuel).
  { pose proof (empties_le (values h s)) as Hle. rewrite (wf9_length _ _ Hwf9) in Hle. lia. }
  destruct (count_solutions_total fuel h s 2 Hwf Hemp) as [[n h'] Hc].
  destruct (count_solutions_spec _ _ _ _ _ Hrows Hcols Hcons Hc) as [-> Hspec].
  rewrite Hc. do 2 f_equal. by apply (count_spec_one_iff n _ Hspec).
Qed.

(** C1.  Every puzzle produced by [generate_new_game], and every grid left by
    [remove_cells] started on a complete valid solution, has exactly one
    completion: its filled cells do not clash, exactly one complete valid
    grid agrees with it on its filled cells, and [count_solutions] with
    limit 2 returns 1 on it. *)
Theorem puzzle_unique probes fuel (h : gmap nat (list Cell)) (r : RandState) :
  (∀ g cells_to_remove h' r' g',
     globals_ok h g →
     generate_new_game probes fuel h r g cells_to_remove = Some (h', r', g') →
     consistent (values h' (current_puzzle_grid g')) ∧
     unique_completion (values h' (current_puzzle_grid g')) ∧
     ∀ f, 81 < f → count_solutions f h' (current_puzzle_grid g') 2 = Some (1%Z, h')) ∧
  (∀ s ref count h' r',
     wf9 h s → solved (values h s) →
     remove_cells probes fuel h r s ref count = Some (h', r') →
     consistent (values h' s) ∧
     unique_completion (values h' s) ∧
     ∀ f, 81 < f → count_solutions f h' s 2 = Some (1%Z, h')).
Proof.
  split.
  - intros g n h' r' g' Hg Hgen.
    destruct (generate_new_game_spec _ _ _ _ _ _ _ _ _ Hg Hgen)
      as (Hwf & _ & _ & _ & _ & _ & _ & Hcons & Huniq).
    split; [done|]. split; [done|]. intros f Hf.
    by apply count_solutions_unique.
  - intros s ref count h' r' Hwf9 Hsolved Hrm. pose proof Hwf9 as (Hrows & Hcols & Hwf).
    destruct (remove_cells_spec s _ _ _ _ _ _ _ _ Hrows Hcols Hwf Hrm)
      as (Hmod & _ & _ & _ & Huc).
    destruct Huc as [Hcons Huniq];
      [by apply solved_consistent|by apply solved_unique_completion|].
    split; [done|]. split; [done|]. intros f Hf.
    apply count_solutions_unique; [by eapply modifies_only_wf9|done|done|done].
Qed.

(** Sample runs, by evaluation. *)
Lemma sample_game2_returns :
  is_Some (generate_new_game 400 82 ∅ sample_rand fresh_globals 2).
Proof. vm_compute. eexists. reflexivity. Qed.

Lemma sample_game35_returns :
  is_Some (generate_new_game 400 82 ∅ sample_rand fresh_globals 35).
Proof. vm_compute. eexists. reflexivity. Qed.

Lemma sample_carve_returns :
  is_Some (remove_cells 400 82 (heap_of solved_vals) sample_rand s9 s9 3).
Proof. vm_compute. eexists. reflexivity. Qed.

Lemma puzzle_unique_witness :
  (∃ h' r' g',
     generate_new_game 400 82 ∅ sample_rand fresh_globals 2 = Some (h', r', g') ∧
     unique_completion (values h' (current_puzzle_grid g')) ∧
     count_solutions 82 h' (current_puzzle_grid g') 2 = Some (1%Z, h')) ∧
  (∃ h' r',
     remove_cells 400 82 (heap_of solved_vals) sample_rand s9 s9 3 = Some (h', r') ∧
     unique_completion (values h' s9) ∧
     count_solutions 82 h' s9 2 = Some (1%Z, h')).
Proof.
  split.
  - destruct sample_game2_returns as [[[h' r'] g'] E].
    exists h', r', g'. split; [exact E|].
    destruct (proj1 (puzzle_unique 400 82 ∅ sample_rand)
                fresh_globals 2%Z h' r' g' (globals_ok_fresh ∅) E) as (_ & Hu & Hc).
    split; [exact Hu|]. apply Hc. lia.
  - destruct sample_carve_returns as [[h' r'] E].
    exists h', r'. split; [exact E|].
    destruct (proj2 (puzzle_unique 400 82 (heap_of solved_vals) sample_rand)
                s9 s9 3%Z h' r' (wf9_heap_of solved_vals eq_refl)) as (_ & Hu & Hc).
    + rewrite values_heap_of. apply solved_vals_solved.
    + exact E.
    + split; [exact Hu|]. apply Hc. lia.
Defined.

(** The number of empty cells of a generated puzzle. *)
Lemma generate_new_game_empties probes fuel (h : gmap nat (list Cell)) r g n h' r' g' :
  globals_ok h g → (0 ≤ n ≤ 81)%Z →
  generate_new_game probes fuel h r g n = Some (h', r', g') →
  Z.of_nat (empties (values h' (current_puzzle_grid g'))) = n ∧
  Z.of_nat (filled (values h' (current_puzzle_grid g'))) = (81 - n)%Z.
Proof.
  intros Hg Hn Hgen.
  destruct (generate_new_game_spec _ _ _ _ _ _ _ _ _ Hg Hgen)
    as (Hwf & _ & _ & _ & _ & _ & Hemp & _).
  pose proof (empties_filled (values h' (current_puzzle_grid g'))) as Hsum.
  rewrite (wf9_length _ _ Hwf) in Hsum. lia.
Qed.

(** C5.  Whenever [remove_cells] returns on a 9x9 grid that had no empty
    cell, exactly [count] cells are empty, [count] being a number of cells
    to remove (0 or more); a puzzle produced by [generate_new_game] with 35
    has exactly 35 empty cells and 46 filled ones. *)
Theorem removal_count probes fuel (h : gmap nat (list Cell)) (r : RandState) :
  (∀ s ref count h' r',
     (0 ≤ count)%Z → wf9 h s →
     (∀ i, i < 81 → value (load h s i) ≠ V_None) →
     remove_cells probes fuel h r s ref count = Some (h', r') →
     Z.of_nat (empties (values h' s)) = count) ∧
  (∀ g h' r' g',
     globals_ok h g →
     generate_new_game probes fuel h r g 35 = Some (h', r', g') →
     empties (values h' (current_puzzle_grid g')) = 35 ∧
     filled (values h' (current_puzzle_grid g')) = 46).
Proof.
  split.
  - intros s ref count h' r' Hcount Hwf9 Hfull Hrm.
    pose proof Hwf9 as (Hrows & Hcols & Hwf).
    destruct (remove_cells_spec s _ _ _ _ _ _ _ _ Hrows Hcols Hwf Hrm)
      as (_ & _ & _ & Hemp & _).
    assert (Hz : empties (values h s) = 0).
    { apply empties_zero. intros i Hi. rewrite (wf9_length _ _ Hwf9) in Hi.
      rewrite <- value_load. by apply Hfull. }
    rewrite Hemp, Hz. lia.
  - intros g h' r' g' Hg Hgen.
    destruct (generate_new_game_empties probes fuel h r g 35%Z h' r' g' Hg
                ltac:(lia) Hgen). lia.
Qed.

Lemma removal_count_witness :
  (∃ h' r',
     remove_cells 400 82 (heap_of solved_vals) sample_rand s9 s9 3 = Some (h', r') ∧
     Z.of_nat (empties (values h' s9)) = 3%Z) ∧
  (∃ h' r' g',
     generate_new_game 400 82 ∅ sample_rand fresh_globals 35 = Some (h', r', g') ∧
     empties (values h' (current_puzzle_grid g')) = 35 ∧
     filled (values h' (current_puzzle_grid g')) = 46).
Proof.
  split.
  - destruct sample_carve_returns as [[h' r'] E].
    exists h', r'. split; [exact E|].
    refine (proj1 (removal_count 400 82 (heap_of solved_vals) sample_rand)
              s9 s9 3%Z h' r' ltac:(lia) (wf9_heap_of solved_vals eq_refl) _ E).
    assert (H : Forall (λ i, value (load (heap_of solved_vals) s9 i) ≠ V_None) (seq 0 81)).
    { eapply bool_decide_unpack. by vm_compute. }
    intros i Hi. rewrite Forall_forall in H. apply H, elem_of_seq. lia.
  - destruct sample_game35_returns as [[[h' r'] g'] E].
    exists h', r', g'. split; [exact E|].
    exact (proj2 (removal_count 400 82 ∅ sample_rand)
             fresh_globals h' r' g' (globals_ok_fresh ∅) E).
Defined.

(** C6.  After [generate_new_game], at every index of the puzzle: an empty
    cell is [DYNAMIC], a filled cell is [FIXED], and a filled cell holds the
    value of the solution grid at that index. *)
Theorem classification_consistent probes fuel (h : gmap nat (list Cell)) r g n h' r' g' :
  globals_ok h g →
  generate_new_game probes fuel h r g n = Some (h', r', g') →
  ∀ i, i < 81 →
    (value (load h' (current_puzzle_grid g') i) = V_None →
     type (load h' (current_puzzle_grid g') i) = DYNAMIC) ∧
    (value (load h' (current_puzzle_grid g') i) ≠ V_None →
     type (load h' (current_puzzle_grid g') i) = FIXED ∧
     value (load h' (current_puzzle_grid g') i) = value (load h' (solution_grid g') i)).
Proof.
  intros Hg Hgen i Hi.
  destruct (generate_new_game_spec _ _ _ _ _ _ _ _ _ Hg Hgen)
    as (Hwf & _ & _ & _ & Hcls & Hval & _).
  assert (Hty : type (load h' (current_puzzle_grid g') i) =
                if value (load h' (current_puzzle_grid g') i) =? V_None
                then DYNAMIC else FIXED).
  { assert (Hlen : i < length (block h' (current_puzzle_grid g'))).
    { rewrite <- length_values, (wf9_length _ _ Hwf). done. }
    destruct (lookup_lt_is_Some_2 _ _ Hlen) as [c Hc].
    unfold load. rewrite Hc. simpl.
    assert (Hcc : Some c = Some (classify_cell c)).
    { rewrite <- Hc at 1. rewrite Hcls, list_lookup_fmap, Hc. done. }
    injection Hcc as Hcc. rewrite Hcc at 1. done. }
  rewrite Hty. split.
  - intros ->. done.
  - intros Hnz. destruct (Nat.eqb_spec (value (load h' (current_puzzle_grid g') i)) V_None);
      [done|]. split; [done|].
    rewrite !value_load. rewrite value_load in Hnz.
    destruct (Hval i) as [?|?]; done.
Qed.

Lemma classification_consistent_witness :
  ∃ h' r' g',
    generate_new_game 400 82 ∅ sample_rand fresh_globals 2 = Some (h', r', g') ∧
    ∀ i, i < 81 →
      (value (load h' (current_puzzle_grid g') i) = V_None →
       type (load h' (current_puzzle_grid g') i) = DYNAMIC) ∧
      (value (load h' (current_puzzle_grid g') i) ≠ V_None →
       type (load h' (current_puzzle_grid g') i) = FIXED ∧
       value (load h' (current_puzzle_grid g') i) = value (load h' (solution_grid g') i)).
Proof.
  destruct sample_game2_returns as [[[h' r'] g'] E].
  exists h', r', g'. split; [exact E|].
  exact (classification_consistent 400 82 ∅ sample_rand fresh_globals 2%Z h' r' g'
           (globals_ok_fresh ∅) E).
Defined.

(** * Further properties of the engine *)

(** X2.  Allocation and release are a round trip on the heap: closing the
    grid [game_open] has just returned gives back the heap as it was. *)
Theorem game_open_close (h : gmap nat (list Cell)) n m :
  game_close (game_open h n m).2 (game_open h n m).1 = h.
Proof.
  destruct (game_open h n m) as [s h1] eqn:Hopen. simpl.
  apply game_open_spec in Hopen as (_ & _ & Hnn & Hfresh & ->).
  unfold game_close. rewrite decide_False by done. by apply delete_insert_id.
Qed.

(** X3.  [grid_fill] on a well-formed grid leaves every cell with the given
    value and classification, and changes no other block. *)
Theorem grid_fill_all (h : gmap nat (list Cell)) s val ty :
  wf h s →
  (∀ i, i < rows s * cols s → load (grid_fill h s val ty) s i = mkCell val ty) ∧
  modifies_only s h (grid_fill h s val ty).
Proof.
  intros Hwf. destruct (grid_fill_spec h s val ty Hwf) as [Hmod Hblk].
  split; [|done]. intros i Hi. unfold load. rewrite Hblk, list_lookup_fmap.
  destruct Hwf as (b & Hb & Hlen). unfold block. rewrite Hb. simpl.
  destruct (lookup_lt_is_Some_2 b i ltac:(lia)) as [c ->]. done.
Qed.

Lemma grid_fill_all_witness :
  load (grid_fill (heap_of solved_vals) s9 V_5 DYNAMIC) s9 40 = mkCell V_5 DYNAMIC.
Proof.
  apply (grid_fill_all (heap_of solved_vals) s9 V_5 DYNAMIC).
  - apply (wf9_heap_of solved_vals eq_refl).
  - vm_compute. lia.
Defined.

(** X4.  Self-exclusion: the answer of [is_valid] at [(row, col)] does not
    depend on what the target cell itself holds. *)
Theorem is_valid_ignores_target (h : gmap nat (list Cell)) s row col val v :
  rows s = 9 → cols s = 9 → row < 9 → col < 9 →
  is_valid (store_value h s (row * 9 + col) v) s row col val = is_valid h s row col val.
Proof.
  intros Hrows Hcols Hrow Hcol.
  assert (Hiff : is_valid (store_value h s (row * 9 + col) v) s row col val = true ↔
                 is_valid h s row col val = true).
  { rewrite !is_valid_peers by done. rewrite values_store_value.
    split; intros Hall j Hj Hne Hp.
    - specialize (Hall j Hj Hne Hp).
      by rewrite list_lookup_total_insert_ne in Hall.
    - rewrite list_lookup_total_insert_ne by done. by apply Hall. }
  destruct (is_valid (store_value _ _ _ _) s row col val), (is_valid h s row col val);
    try done.
  - symmetry. by apply Hiff.
  - by apply Hiff.
Qed.

Lemma is_valid_ignores_target_witness :
  is_valid (store_value (heap_of solved_vals) s9 (0 * 9 + 0) 7) s9 0 0 1 =
  is_valid (heap_of solved_vals) s9 0 0 1.
Proof.
  apply (is_valid_ignores_target (heap_of solved_vals) s9 0 0 1 7); done || lia.
Defined.

(** X5.  The shuffle of [fill_grid]: for every random sequence the nine
    candidates are a permutation of 1..9, and exactly nine numbers are
    drawn. *)
Theorem shuffle_permutation (r : RandState) :
  (shuffle r).1 ≡ₚ [V_1; V_2; V_3; V_4; V_5; V_6; V_7; V_8; V_9] ∧
  ∀ n, (shuffle r).2 n = r (9 + n).
Proof.
  split; [apply shuffle_perm|]. intros n. reflexivity.
Qed.

(** * The counter reads values only *)

Lemma existsb_pointwise {A} (f g : A → bool) l :
  (∀ x, f x = g x) → existsb f l = existsb g l.
Proof. intros Hfg. induction l as [|x l IH]; simpl; [done|]. by rewrite Hfg, IH. Qed.

Lemma find_pointwise {A} (f g : A → bool) l :
  (∀ x, f x = g x) → find f l = find g l.
Proof. intros Hfg. induction l as [|x l IH]; simpl; [done|]. by rewrite Hfg, IH. Qed.

Lemma same_grid_load (h1 h2 : gmap nat (list Cell)) s1 s2 i :
  same_grid h1 s1 h2 s2 → value (load h1 s1 i) = value (load h2 s2 i).
Proof. intros (_ & _ & Hv). by rewrite !value_load, Hv. Qed.

Lemma same_grid_is_valid (h1 h2 : gmap nat (list Cell)) s1 s2 row col val :
  same_grid h1 s1 h2 s2 → is_valid h1 s1 row col val = is_valid h2 s2 row col val.
Proof.
  intros Hsame. pose proof Hsame as (Hr & Hc & _). unfold is_valid. rewrite Hr, Hc.
  rewrite (existsb_pointwise
    (λ x, negb (x =? col) && (value (load h1 s1 (row * cols s2 + x)) =? val))
    (λ x, negb (x =? col) && (value (load h2 s2 (row * cols s2 + x)) =? val)))
    by (intros x; by rewrite (same_grid_load h1 h2 s1 s2)).
  rewrite (existsb_pointwise
    (λ y, negb (y =? row) && (value (load h1 s1 (y * cols s2 + col)) =? val))
    (λ y, negb (y =? row) && (value (load h2 s2 (y * cols s2 + col)) =? val)))
    by (intros x; by rewrite (same_grid_load h1 h2 s1 s2)).
  cbv zeta.
  rewrite (existsb_pointwise
    (λ r, existsb (λ c,
       (negb (row / 3 * 3 + r =? row) || negb (col / 3 * 3 + c =? col)) &&
       (value (load h1 s1 ((row / 3 * 3 + r) * cols s2 + (col / 3 * 3 + c))) =? val))
       (seq 0 3))
    (λ r, existsb (λ c,
       (negb (row / 3 * 3 + r =? row) || negb (col / 3 * 3 + c =? col)) &&
       (value (load h2 s2 ((row / 3 * 3 + r) * cols s2 + (col / 3 * 3 + c))) =? val))
       (seq 0 3))); [done|].
  intros r0. apply existsb_pointwise. intros c0.
  by rewrite (same_grid_load h1 h2 s1 s2).
Qed.

Lemma same_grid_scan_row (h1 h2 : gmap nat (list Cell)) s1 s2 row :
  same_grid h1 s1 h2 s2 → scan_row h1 s1 row = scan_row h2 s2 row.
Proof.
  intros Hsame. pose proof Hsame as (_ & Hc & _). unfold scan_row. rewrite Hc.
  apply find_pointwise. intros x. by rewrite (same_grid_load h1 h2 s1 s2).
Qed.

Lemma same_grid_first_empty (h1 h2 : gmap nat (list Cell)) s1 s2 :
  same_grid h1 s1 h2 s2 → first_empty h1 s1 = first_empty h2 s2.
Proof.
  intros Hsame. pose proof Hsame as (Hr & _ & _). unfold first_empty. rewrite Hr.
  induction (seq 0 (rows s2)) as [|row rws IH]; simpl; [done|].
  by rewrite (same_grid_scan_row h1 h2 s1 s2), IH.
Qed.

Lemma same_grid_store_value (h1 h2 : gmap nat (list Cell)) s1 s2 i v :
  same_grid h1 s1 h2 s2 → same_grid (store_value h1 s1 i v) s1 (store_value h2 s2 i v) s2.
Proof.
  intros (Hr & Hc & Hv). split; [done|]. split; [done|].
  by rewrite !values_store_value, Hv.
Qed.

Lemma same_grid_count_try rec1 rec2 s1 s2 row col limit (h1 h2 : gmap nat (list Cell)) :
  (∀ a n a', rec1 a = Some (n, a') → a' = a) →
  (∀ b n b', rec2 b = Some (n, b') → b' = b) →
  (∀ a b, same_grid a s1 b s2 → fst <$> rec1 a = fst <$> rec2 b) →
  same_grid h1 s1 h2 s2 →
  value (load h1 s1 (row * cols s1 + col)) = V_None →
  ∀ vals sf,
    fst <$> count_try rec1 s1 row col limit vals sf h1 =
    fst <$> count_try rec2 s2 row col limit vals sf h2.
Proof.
  intros Hres1 Hres2 Hrec Hsame Hz1.
  assert (Hz2 : value (load h2 s2 (row * cols s2 + col)) = V_None).
  { pose proof Hsame as (_ & Hc & _). by rewrite <- Hc, <- (same_grid_load h1 h2 s1 s2). }
  induction vals as [|v vals IH]; intros sf; simpl; [done|].
  rewrite (same_grid_is_valid h1 h2 s1 s2) by done.
  destruct (is_valid h2 s2 row col v); [|apply IH].
  pose proof Hsame as (_ & Hc & _).
  pose proof (Hrec _ _ (same_grid_store_value h1 h2 s1 s2 (row * cols s1 + col) v Hsame)) as Hfst.
  rewrite Hc in Hfst at 2.
  destruct (rec1 _) as [[m1 a']|] eqn:Hr1, (rec2 _) as [[m2 b']|] eqn:Hr2;
    simpl in Hfst; try done.
  injection Hfst as <-.
  apply Hres1 in Hr1 as ->. apply Hres2 in Hr2 as ->.
  rewrite !store_value_restore by done.
  destruct (limit <=? sf + m1)%Z; [done|apply IH].
Qed.

Lemma same_grid_count_solutions fuel limit : ∀ (h1 h2 : gmap nat (list Cell)) s1 s2,
  same_grid h1 s1 h2 s2 →
  fst <$> count_solutions fuel h1 s1 limit = fst <$> count_solutions fuel h2 s2 limit.
Proof.
  induction fuel as [|fuel IH]; intros h1 h2 s1 s2 Hsame; [done|].
  rewrite !count_solutions_S, (same_grid_first_empty h1 h2 s1 s2) by done.
  destruct (first_empty h2 s2) as [[row col]|] eqn:Hfe; [|done].
  apply same_grid_count_try; [| | |done|].
  - intros a n a'. apply count_solutions_restore.
  - intros b n b'. apply count_solutions_restore.
  - intros a b. apply IH.
  - rewrite <- (same_grid_first_empty h1 h2 s1 s2) in Hfe by done.
    by apply first_empty_Some in Hfe as (_ & _ & Hz).
Qed.

(** X6.  Working on a copy does not change the verdict: on a well-formed
    grid [has_unique_solution] answers whether [count_solutions], run with
    limit 2 on the caller's own grid, returns 1, and it runs out of fuel
    exactly when that call does. *)
Theorem has_unique_solution_agrees fuel (h : gmap nat (list Cell)) s :
  wf h s →
  has_unique_solution fuel h s =
  match count_solutions fuel h s 2 with
  | Some (n, _) => Some ((n =? 1)%Z, h)
  | None => None
  end.
Proof.
  intros (blk & Hblk & Hlen). unfold has_unique_solution.
  destruct (game_open h (rows s) (cols s)) as [copy h1] eqn:Hopen.
  apply game_open_spec in Hopen as (Hr & Hc & Hnn & Hfresh & ->).
  assert (Hne : grid s ≠ grid copy) by congruence.
  set (h2 := memcpy _ (grid copy) (grid s) (rows s * cols s)).
  assert (Hcopy : h2 !! grid copy = Some blk).
  { eapply memcpy_full;
      [by rewrite lookup_insert_ne|done|by rewrite lookup_insert_eq|by rewrite length_replicate]. }
  assert (Hsame : same_grid h2 copy h s).
  { split; [done|]. split; [done|]. unfold values, block. by rewrite Hcopy, Hblk. }
  pose proof (same_grid_count_solutions fuel 2 h2 h copy s Hsame) as Hfst.
  destruct (count_solutions fuel h2 copy 2) as [[n h3]|] eqn:Hc2,
           (count_solutions fuel h s 2) as [[n' h']|] eqn:Hc1; simpl in Hfst; try done.
  injection Hfst as <-. apply count_solutions_restore in Hc2 as ->.
  do 2 f_equal. unfold game_close. rewrite decide_False by done.
  apply map_eq. intros a. destruct (decide (a = grid copy)) as [->|Ha].
  - by rewrite lookup_delete_eq.
  - unfold h2. by rewrite lookup_delete_ne, memcpy_other, lookup_insert_ne.
Qed.

Lemma has_unique_solution_agrees_witness :
  has_unique_solution 82 (heap_of open24_vals) s9 =
  match count_solutions 82 (heap_of open24_vals) s9 2
        return option (bool * gmap nat (list Cell)) with
  | Some (n, _) => Some ((n =? 1)%Z, heap_of open24_vals)
  | None => None
  end.
Proof.
  exact (has_unique_solution_agrees 82 (heap_of open24_vals) s9
           (proj2 (proj2 (wf9_heap_of open24_vals eq_refl)))).
Defined.

(** * The running total stays small *)

Lemma count_try_bound rec s row col limit (h : gmap nat (list Cell)) (bound : Z) :
  (1 ≤ limit)%Z → (0 ≤ bound)%Z →
  (∀ h1 n h2, rec h1 = Some (n, h2) → h2 = h1) →
  value (load h s (row * cols s + col)) = V_None →
  ∀ vals,
    (∀ v n h2, v ∈ vals →
       rec (store_value h s (row * cols s + col) v) = Some (n, h2) → (0 ≤ n ≤ bound)%Z) →
    ∀ sf n h',
      (0 ≤ sf < limit)%Z →
      count_try rec s row col limit vals sf h = Some (n, h') →
      (0 ≤ n ≤ limit - 1 + bound)%Z.
Proof.
  intros Hlimit Hbound Hres Hz.
  induction vals as [|v vals IH]; intros Hrec sf n h' Hsf; simpl.
  - intros [= <- _]. lia.
  - assert (Hrest : ∀ v' n h2, v' ∈ vals →
              rec (store_value h s (row * cols s + col) v') = Some (n, h2) →
              (0 ≤ n ≤ bound)%Z) by (intros v' ? ? ?; apply Hrec; by right).
    destruct (is_valid h s row col v); [|by apply IH].
    destruct (rec _) as [[m h2]|] eqn:Hr; [|done].
    pose proof (Hrec v m h2 ltac:(left) Hr) as Hm.
    apply Hres in Hr as ->. rewrite store_value_restore by done.
    destruct (Z.leb_spec limit (sf + m)) as [Hge|Hlt].
    + intros [= <- _]. lia.
    + apply IH; [done|lia].
Qed.

Lemma count_solutions_le fuel (h : gmap nat (list Cell)) s limit n h' :
  wf h s → (1 ≤ limit)%Z →
  count_solutions fuel h s limit = Some (n, h') →
  (0 ≤ n ≤ 1 + Z.of_nat (empties (values h s)) * (limit - 1))%Z.
Proof.
  intros Hwf Hlimit. revert h n h' Hwf.
  induction fuel as [|fuel IH]; intros h n h' Hwf; [done|].
  rewrite count_solutions_S.
  destruct (first_empty h s) as [[row col]|] eqn:Hfe; [|intros [= <- _]; nia].
  apply first_empty_Some in Hfe as (Hrow & Hcol & Hz).
  assert (Hi : row * cols s + col < length (values h s)).
  { rewrite (wf_length _ _ Hwf). nia. }
  intros Hct.
  assert (He : 1 ≤ empties (values h s)).
  { pose proof (empties_insert (values h s) (row * cols s + col) 1 Hi) as He.
    rewrite value_load in Hz. specialize (He Hz ltac:(lia)). lia. }
  pose proof (count_try_bound _ s row col limit h
                (1 + (Z.of_nat (empties (values h s)) - 1) * (limit - 1))%Z
                Hlimit ltac:(nia)
                (λ h1 m h2, count_solutions_restore fuel h1 s limit m h2) Hz
                (seq V_1 9)) as Hb.
  eapply Hb in Hct; [nia| |lia].
  intros v m h2 Hv%elem_of_seq Hr.
  apply IH in Hr; [|by apply wf_store_value].
  rewrite values_store_value in Hr.
  pose proof (empties_insert (values h s) (row * cols s + col) v Hi) as He'.
  rewrite value_load in Hz. unfold V_1 in Hv. specialize (He' Hz ltac:(lia)). nia.
Qed.

(** X7.  As long as [1 + e * (limit - 1)] fits an [int], [e] being the
    number of empty cells and the limit at least 1, the count is never
    negative and at most that bound, so that the running total of the
    source does not overflow: with the limit 2 the source uses, at most 82
    on a 9x9 grid. *)
Theorem count_solutions_bound fuel (h : gmap nat (list Cell)) s limit n h' :
  wf h s → (1 ≤ limit)%Z →
  (1 + Z.of_nat (empties (values h s)) * (limit - 1) ≤ INT_MAX)%Z →
  count_solutions fuel h s limit = Some (n, h') →
  (0 ≤ n ≤ 1 + Z.of_nat (empties (values h s)) * (limit - 1))%Z ∧ (n ≤ INT_MAX)%Z.
Proof.
  intros Hwf Hlimit Hfit Hc.
  pose proof (count_solutions_le fuel h s limit n h' Hwf Hlimit Hc) as Hle.
  split; [exact Hle|lia].
Qed.

Lemma open24_fits :
  (1 + Z.of_nat (empties (values (heap_of open24_vals) s9)) * (2 - 1) ≤ INT_MAX)%Z.
Proof. by vm_compute. Qed.

Lemma count_solutions_bound_witness :
  ∃ n h', count_solutions 82 (heap_of open24_vals) s9 2 = Some (n, h') ∧
          (0 ≤ n ≤ 1 + Z.of_nat (empties (values (heap_of open24_vals) s9)) * (2 - 1))%Z ∧
          (n ≤ INT_MAX)%Z.
Proof.
  destruct (count_solutions_total 82 (heap_of open24_vals) s9 2) as [[n h'] Hc].
  - exact (proj2 (proj2 (wf9_heap_of open24_vals eq_refl))).
  - rewrite values_heap_of. vm_compute. lia.
  - exists n, h'. split; [exact Hc|].
    exact (count_solutions_bound 82 (heap_of open24_vals) s9 2 n h'
             (proj2 (proj2 (wf9_heap_of open24_vals eq_refl))) ltac:(lia) open24_fits Hc).
Defined.

(** * What [fill_grid] writes *)

Lemma types_store_value (h : gmap nat (list Cell)) s i v :
  types (store_value h s i v) s = types h s.
Proof.
  unfold types. rewrite block_store_value. generalize (block h s). intros l.
  revert i. induction l as [|c l IH]; intros [|i]; simpl; f_equal; try done. apply IH.
Qed.

Lemma writes_from_refl k s (h : gmap nat (list Cell)) : writes_from k s h h.
Proof. split; [apply modifies_only_refl|]. by split. Qed.

Lemma writes_from_trans k s (h1 h2 h3 : gmap nat (list Cell)) :
  writes_from k s h1 h2 → writes_from k s h2 h3 → writes_from k s h1 h3.
Proof.
  intros (M1 & T1 & P1) (M2 & T2 & P2). split; [by eapply modifies_only_trans|].
  split; [by rewrite T2|]. intros i Hi. by rewrite P2, P1.
Qed.

Lemma writes_from_weaken k k' s (h h' : gmap nat (list Cell)) :
  k ≤ k' → writes_from k' s h h' → writes_from k s h h'.
Proof. intros Hk (M & T & P). split; [done|]. split; [done|]. intros i Hi. apply P. lia. Qed.

Lemma writes_from_store_value k s (h : gmap nat (list Cell)) v :
  writes_from k s h (store_value h s k v).
Proof.
  split; [apply modifies_only_store_value|]. split; [apply types_store_value|].
  intros i Hi. rewrite values_store_value. apply list_lookup_total_insert_ne. lia.
Qed.

Lemma fill_try_writes rec s row col :
  cols s = 9 →
  (∀ h1 r1 b h2 r2, rec h1 r1 = Some (b, h2, r2) → writes_from (S (row * 9 + col)) s h1 h2) →
  ∀ numbers (h : gmap nat (list Cell)) r b h' r',
    fill_try rec s row col numbers h r = Some (b, h', r') →
    writes_from (row * 9 + col) s h h'.
Proof.
  intros Hcols Hrec. induction numbers as [|v numbers IH]; intros h r b h' r'; simpl.
  - intros [= _ <- _]. apply writes_from_refl.
  - rewrite Hcols. destruct (is_valid h s row col v); [|apply IH].
    destruct (rec _ r) as [[[[] h2] r2]|] eqn:Hr; [| |done].
    + intros [= _ <- _]. eapply writes_from_trans; [apply writes_from_store_value|].
      eapply writes_from_weaken; [|by eapply Hrec]. lia.
    + intros Hft. apply IH in Hft.
      eapply writes_from_trans; [apply writes_from_store_value|].
      eapply writes_from_trans; [|eapply writes_from_trans; [apply writes_from_store_value|done]].
      eapply writes_from_weaken; [|by eapply Hrec]. lia.
Qed.

Lemma fill_grid_writes s fuel : ∀ k (h : gmap nat (list Cell)) r b h' r',
  rows s = 9 → cols s = 9 → k ≤ 81 →
  fill_grid fuel h r s (k / 9) (k mod 9) = Some (b, h', r') →
  writes_from k s h h'.
Proof.
  induction fuel as [|fuel IH]; intros k h r b h' r' Hrows Hcols Hk; [done|].
  rewrite fill_grid_S, Hrows, Hcols.
  destruct (Nat.eqb_spec (k / 9) 9) as [Heq|Hne].
  { intros [= _ <- _]. apply writes_from_refl. }
  assert (Hlt : k < 81) by lia.
  destruct (next_cell k Hlt) as [-> ->]. cbv zeta.
  destruct (shuffle r) as [numbers r1].
  assert (Hkk : k / 9 * 9 + k mod 9 = k) by lia.
  intros Hft. apply fill_try_writes in Hft; [by rewrite Hkk in Hft|done|].
  intros h1 r2 b2 h2 r3 Hr. rewrite Hkk. apply IH in Hr; [done|done|done|lia].
Qed.

(** X8.  [fill_grid] started at cell [(row, col)] of a 9x9 grid never changes
    a cell before that cell, never changes a classification and never
    touches another block, whatever the grid and the random sequence. *)
Theorem fill_grid_frame fuel (h : gmap nat (list Cell)) (r : RandState) s row col b h' r' :
  rows s = 9 → cols s = 9 → row < 9 → col < 9 →
  fill_grid fuel h r s row col = Some (b, h', r') →
  (∀ i, i < row * 9 + col → value (load h' s i) = value (load h s i)) ∧
  (∀ i, type (load h' s i) = type (load h s i)) ∧
  (∀ a, a ≠ grid s → h' !! a = h !! a).
Proof.
  intros Hrows Hcols Hrow Hcol Hfg.
  assert (Hd : (row * 9 + col) / 9 = row) by lia.
  assert (Hm : (row * 9 + col) mod 9 = col) by lia.
  assert (Hfg' : fill_grid fuel h r s ((row * 9 + col) / 9) ((row * 9 + col) mod 9) =
                 Some (b, h', r')) by (rewrite Hd, Hm; exact Hfg).
  apply fill_grid_writes in Hfg' as (Hmod & Hty & Hpre); [|done|done|lia].
  split; [|split].
  - intros i Hi. rewrite !value_load. by apply Hpre.
  - intros i. unfold load.
    assert (Hl : type <$> block h' s !! i = type <$> block h s !! i).
    { rewrite <- !list_lookup_fmap. by fold (types h' s); fold (types h s); rewrite Hty. }
    destruct (block h' s !! i), (block h s !! i); simpl in *; congruence.
  - by destruct Hmod.
Qed.

Lemma fill_grid_frame_witness :
  ∃ b h' r',
    fill_grid 82 (heap_of open24_vals) sample_rand s9 2 6 = Some (b, h', r') ∧
    ∀ i, i < 2 * 9 + 6 → value (load h' s9 i) = value (load (heap_of open24_vals) s9 i).
Proof.
  destruct (fill_grid_total s9 82 24 (heap_of open24_vals) sample_rand eq_refl eq_refl
              ltac:(lia) ltac:(lia)) as [[[b h'] r'] Hfg].
  change (24 / 9) with 2 in Hfg. change (24 mod 9) with 6 in Hfg.
  exists b, h', r'. split; [exact Hfg|].
  exact (proj1 (fill_grid_frame 82 (heap_of open24_vals) sample_rand s9 2 6 b h' r'
                  eq_refl eq_refl ltac:(lia) ltac:(lia) Hfg)).
Defined.

(** X9.  [fill_grid] is a complete solver for grids filled in row-major
    order: started at cell [k] of a 9x9 grid whose cells before [k] hold
    values that do not clash and whose cells from [k] on are empty, it
    returns; when it returns true the grid is a valid completion of the grid
    it was given, and when it returns false the grid is as it was given and
    has no valid completion. *)
Theorem fill_grid_solves fuel (h : gmap nat (list Cell)) (r : RandState) s k :
  wf9 h s → k ≤ 81 → filled_upto k (values h s) → 81 - k < fuel →
  ∃ b h' r',
    fill_grid fuel h r s (k / 9) (k mod 9) = Some (b, h', r') ∧
    if b then completion (values h s) (values h' s)
    else h' = h ∧ ∀ c, ¬ completion (values h s) c.
Proof.
  intros Hwf Hk Hinv Hfuel. pose proof Hwf as (Hrows & Hcols & _).
  destruct (fill_grid_total s fuel k h r Hrows Hcols Hk Hfuel) as [[[b h'] r'] Hfg].
  exists b, h', r'. split; [done|].
  destruct (fill_grid_spec s fuel k h r b h' r' Hrows Hcols Hk Hinv Hfg) as [_ Hres].
  destruct b; [|exact Hres]. split; [exact Hres|].
  apply fill_grid_writes in Hfg as (_ & _ & Hpre); [|done|done|done].
  intros i Hi Hnz. destruct (decide (i < k)) as [Hik|Hik]; [by apply Hpre|].
  destruct Hinv as (_ & _ & Hrest). destruct Hnz. apply Hrest. lia.
Qed.

Lemma fill_grid_solves_witness :
  ∃ b h' r',
    fill_grid 82 (heap_of prefix24_vals) sample_rand s9 (24 / 9) (24 mod 9) = Some (b, h', r') ∧
    if b then completion (values (heap_of prefix24_vals) s9) (values h' s9)
    else h' = heap_of prefix24_vals ∧ ∀ c, ¬ completion (values (heap_of prefix24_vals) s9) c.
Proof.
  apply (fill_grid_solves 82 (heap_of prefix24_vals) sample_rand s9 24).
  - apply (wf9_heap_of prefix24_vals eq_refl).
  - lia.
  - rewrite values_heap_of.
    assert (H : Forall (λ i, (prefix24_vals !!! i = 0 ∨ prefix24_vals !!! i = solved_vals !!! i) ∧
                             (i < 24 → prefix24_vals !!! i ≠ 0) ∧
                             (24 ≤ i < 81 → prefix24_vals !!! i = 0)) (seq 0 81)).
    { eapply bool_decide_unpack. by vm_compute. }
    rewrite Forall_forall in H.
    assert (H' : ∀ i, i < 81 → (prefix24_vals !!! i = 0 ∨ prefix24_vals !!! i = solved_vals !!! i) ∧
                             (i < 24 → prefix24_vals !!! i ≠ 0) ∧
                             (24 ≤ i < 81 → prefix24_vals !!! i = 0)).
    { intros i Hi. apply H, elem_of_seq. lia. }
    split; [|split].
    + apply (consistent_sub solved_vals); [apply solved_consistent, solved_vals_solved|done|].
      intros i Hi. by destruct (H' i Hi).
    + intros i Hi. destruct (H' i ltac:(lia)) as (_ & Hp & _). by apply Hp.
    + intros i Hi. destruct (H' i ltac:(lia)) as (_ & _ & Hp). by apply Hp.
  - lia.
Defined.

(** * More on the carver *)

Lemma classified_type (h : gmap nat (list Cell)) s i :
  block h s = classify_cell <$> block h s → i < length (block h s) →
  type (load h s i) = if value (load h s i) =? V_None then DYNAMIC else FIXED.
Proof.
  intros Hcls Hlen. destruct (lookup_lt_is_Some_2 _ _ Hlen) as [c Hc].
  unfold load. rewrite Hc. simpl.
  assert (Hcc : Some c = Some (classify_cell c)).
  { rewrite <- Hc at 1. rewrite Hcls, list_lookup_fmap, Hc. done. }
  injection Hcc as Hcc. rewrite Hcc at 1. done.
Qed.

Lemma completion_cleared (g g' c : list nat) :
  (∀ i, i < 81 → g' !!! i = 0 ∨ g' !!! i = g !!! i) →
  completion g c → completion g' c.
Proof.
  intros Hsub [Hs Hkeep]. split; [done|]. intros i Hi Hnz.
  destruct (Hsub i Hi) as [?|Heq]; [done|]. rewrite Heq in Hnz |- *. by apply Hkeep.
Qed.

(** X10.  Whatever 9x9 grid it starts from, when [remove_cells] returns it
    has changed only that grid's block; every cell keeps its value or has
    become empty; exactly [max 0 count] more cells are empty; every cell is
    classified by its value; and every valid completion of the grid it was
    given is still one of the grid it leaves. *)
Theorem remove_cells_keeps_or_clears probes fuel (h : gmap nat (list Cell)) r s ref count h' r' :
  wf9 h s →
  remove_cells probes fuel h r s ref count = Some (h', r') →
  (∀ a, a ≠ grid s → h' !! a = h !! a) ∧
  (∀ i, i < 81 → value (load h' s i) = V_None ∨ value (load h' s i) = value (load h s i)) ∧
  (Z.of_nat (empties (values h' s)) =
   Z.of_nat (empties (values h s)) + Z.max 0 count)%Z ∧
  (∀ i, i < 81 →
        type (load h' s i) = if value (load h' s i) =? V_None then DYNAMIC else FIXED) ∧
  (∀ c, completion (values h s) c → completion (values h' s) c).
Proof.
  intros Hwf9 Hrm. pose proof Hwf9 as (Hrows & Hcols & Hwf).
  destruct (remove_cells_spec s _ _ _ _ _ _ _ _ Hrows Hcols Hwf Hrm)
    as (Hmod & Hcls & Hval & Hemp & _).
  assert (Hwf' : wf9 h' s) by (by eapply modifies_only_wf9).
  split; [by destruct Hmod|]. split; [|split; [done|split]].
  - intros i Hi. rewrite !value_load. apply Hval.
  - intros i Hi. apply classified_type; [done|].
    by rewrite <- length_values, (wf9_length _ _ Hwf').
  - intros c. apply completion_cleared. intros i _. apply Hval.
Qed.

Lemma remove_cells_keeps_or_clears_witness :
  ∃ h' r',
    remove_cells 400 82 (heap_of solved_vals) sample_rand s9 s9 3 = Some (h', r') ∧
    (Z.of_nat (empties (values h' s9)) =
     Z.of_nat (empties (values (heap_of solved_vals) s9)) + Z.max 0 3)%Z.
Proof.
  destruct sample_carve_returns as [[h' r'] E].
  exists h', r'. split; [exact E|].
  exact (proj1 (proj2 (proj2 (remove_cells_keeps_or_clears 400 82 (heap_of solved_vals)
           sample_rand s9 s9 3%Z h' r' (wf9_heap_of solved_vals eq_refl) E)))).
Defined.

Lemma remove_loop_stuck s fuel (h : gmap nat (list Cell)) count rc :
  rows s = 9 → cols s = 9 → (rc < count)%Z →
  ∀ probes (r : RandState),
    (∀ n, value (load h s (r (2 * n) mod 9 * 9 + r (2 * n + 1) mod 9)) = V_None) →
    remove_loop probes fuel h r s count rc = None.
Proof.
  intros Hrows Hcols Hlt. induction probes as [|probes IH]; intros r Hr;
    rewrite remove_loop_eq; destruct (Z.ltb_spec rc count); try lia; [done|].
  rewrite Hrows, Hcols. cbv zeta.
  pose proof (Hr 0) as H0. change (2 * 0) with 0 in H0. change (0 + 1) with 1 in H0.
  rewrite H0. simpl. apply IH. intros n.
  replace (S (S (2 * n))) with (2 * S n) by lia.
  replace (S (S (2 * n + 1))) with (2 * S n + 1) by lia. apply Hr.
Qed.

(** X11.  The carving loop has no bound of its own: when every cell the
    random sequence points at is already empty and at least one removal is
    asked for, [remove_cells] does not return, whatever the number of probes
    allowed. *)
Theorem remove_cells_may_spin probes fuel (h : gmap nat (list Cell)) (r : RandState) s ref count :
  rows s = 9 → cols s = 9 → (0 < count)%Z →
  (∀ n, value (load h s (r (2 * n) mod 9 * 9 + r (2 * n + 1) mod 9)) = V_None) →
  remove_cells probes fuel h r s ref count = None.
Proof.
  intros Hrows Hcols Hcount Hr. unfold remove_cells.
  by rewrite (remove_loop_stuck s fuel h count 0 Hrows Hcols Hcount probes r Hr).
Qed.

Lemma remove_cells_may_spin_witness :
  remove_cells 1000 82 (heap_of open24_vals) (λ _, 0) s9 s9 1 = None.
Proof.
  apply remove_cells_may_spin; [done|done|lia|]. intros n. by vm_compute.
Defined.

(** * More on the facade *)

(** X12.  The solution grid is the answer key of the puzzle: after
    [generate_new_game] the solution grid is a complete valid grid, it is a
    completion of the puzzle, and every valid completion of the puzzle is
    equal to it. *)
Theorem generate_new_game_answer_key probes fuel (h : gmap nat (list Cell)) r g n h' r' g' :
  globals_ok h g →
  generate_new_game probes fuel h r g n = Some (h', r', g') →
  solved (values h' (solution_grid g')) ∧
  completion (values h' (current_puzzle_grid g')) (values h' (solution_grid g')) ∧
  ∀ c, completion (values h' (current_puzzle_grid g')) c → c = values h' (solution_grid g').
Proof.
  intros Hg Hgen.
  destruct (generate_new_game_spec _ _ _ _ _ _ _ _ _ Hg Hgen)
    as (_ & _ & _ & Hsolved & _ & Hval & _ & _ & (c0 & Hc0 & Huniq)).
  assert (Hcomp : completion (values h' (current_puzzle_grid g'))
                             (values h' (solution_grid g'))).
  { split; [done|]. intros i Hi Hnz. destruct (Hval i) as [?|Heq]; [done|]. by symmetry. }
  split; [done|]. split; [done|].
  intros c Hc. by rewrite (Huniq c Hc), (Huniq _ Hcomp).
Qed.

Lemma generate_new_game_answer_key_witness :
  ∃ h' r' g',
    generate_new_game 400 82 ∅ sample_rand fresh_globals 35 = Some (h', r', g') ∧
    completion (values h' (current_puzzle_grid g')) (values h' (solution_grid g')).
Proof.
  destruct sample_game35_returns as [[[h' r'] g'] E].
  exists h', r', g'. split; [exact E|].
  exact (proj1 (proj2 (generate_new_game_answer_key 400 82 ∅ sample_rand fresh_globals
           35%Z h' r' g' (globals_ok_fresh ∅) E))).
Defined.

(** * The heap around a new game *)

Lemma generate_new_game_blocks probes fuel (h : gmap nat (list Cell)) r g n h' r' g' :
  globals_ok h g →
  generate_new_game probes fuel h r g n = Some (h', r', g') →
  grid (current_puzzle_grid g') ≠ NULL ∧ grid (solution_grid g') ≠ NULL ∧
  (grid (solution_grid g) ≠ NULL → solution_grid g' = solution_grid g) ∧
  (grid (current_puzzle_grid g) ≠ NULL → current_puzzle_grid g' = current_puzzle_grid g) ∧
  (∀ a, a ≠ grid (current_puzzle_grid g') → a ≠ grid (solution_grid g') →
        h' !! a = h !! a) ∧
  (grid (solution_grid g) = NULL → h !! grid (solution_grid g') = None) ∧
  (grid (current_puzzle_grid g) = NULL → h !! grid (current_puzzle_grid g') = None).
Proof.
  intros Hg Hgen.
  destruct (generate_new_game_spec _ _ _ _ _ _ _ _ _ Hg Hgen)
    as (Hwfc & Hwfs & Hdist & _).
  revert Hgen Hwfc Hwfs Hdist. destruct Hg as (Hgs & Hgc & Hgd).
  unfold generate_new_game.
  destruct (game_open h ROWS COLS) as [temp h1] eqn:Hopen.
  apply game_open_spec in Hopen as (Htr & Htc & Htn & Htfresh & ->).
  set (h1 := <[grid temp := replicate (ROWS * COLS) (mkCell V_None FIXED)]> h).
  assert (Hwf1 : wf9 h1 temp).
  { eapply wf9_block; [done|done|apply lookup_insert_eq|by rewrite length_replicate]. }
  destruct (grid_fill_spec h1 temp V_None DYNAMIC (proj2 (proj2 Hwf1))) as [Hmod2 _].
  set (h2 := grid_fill h1 temp V_None DYNAMIC) in *.
  destruct (fill_grid fuel h2 r temp 0 0) as [[[b h3] r1]|] eqn:Hfg; [|done].
  assert (Hmod3 : modifies_only temp h2 h3).
  { by destruct (fill_grid_writes temp fuel 0 h2 r b h3 r1 Htr Htc ltac:(lia) Hfg). }
  assert (Hold3 : ∀ a, a ≠ grid temp → h3 !! a = h !! a).
  { intros a Ha. rewrite (proj1 Hmod3), (proj1 Hmod2) by done.
    unfold h1. by rewrite lookup_insert_ne. }
  assert (Hlive3 : is_Some (h3 !! grid temp)).
  { apply (proj1 (proj2 Hmod3)), (proj1 (proj2 Hmod2)). unfold h1.
    rewrite lookup_insert_eq. done. }
  assert (Hkeep3 : ∀ g0, grid g0 = NULL ∨ wf9 h g0 → grid g0 = NULL ∨ wf9 h3 g0).
  { intros g0 [?|Hwf0]; [by left|right].
    eapply wf9_lookup_eq; [|done]. apply Hold3.
    intros Heq. apply wf9_live in Hwf0. rewrite Heq, Htfresh in Hwf0. by destruct Hwf0. }
  destruct (if decide (grid (solution_grid g) = NULL) then _ else _) as [sol h4] eqn:Hsol.
  pose proof Hsol as Hsol'.
  apply keep_or_open in Hsol' as (_ & Hsn & Hold4 & Hsfresh); [|by apply Hkeep3].
  set (h5 := memcpy h4 (grid sol) (grid temp) (ROWS * COLS)).
  assert (Hold5 : ∀ a, a ≠ grid sol → h5 !! a = h3 !! a).
  { intros a Ha. unfold h5. by rewrite memcpy_other, Hold4. }
  destruct (if decide (grid (current_puzzle_grid g) = NULL) then _ else _)
    as [cur h6] eqn:Hcur.
  assert (Hcn : grid cur ≠ NULL ∧ ∀ a, a ≠ grid cur → h6 !! a = h5 !! a).
  { destruct (decide (grid (current_puzzle_grid g) = NULL)) as [?|Hnn].
    - apply game_open_spec in Hcur as (_ & _ & ? & _ & ->). split; [done|].
      intros a Ha. by rewrite lookup_insert_ne.
    - injection Hcur as <- <-. done. }
  destruct Hcn as [Hcn Hold6].
  assert (Hcfresh : grid (current_puzzle_grid g) = NULL → h5 !! grid cur = None).
  { intros Hn. rewrite decide_True in Hcur by done.
    by apply game_open_spec in Hcur as (_ & _ & _ & ? & _). }
  set (h7 := memcpy h6 (grid cur) (grid temp) (ROWS * COLS)).
  destruct (remove_cells probes fuel h7 r1 cur sol n) as [[h8 r2]|] eqn:Hrm; [|done].
  intros [= <- <- <-] Hwfc Hwfs Hdist. simpl in *.
  destruct Hwfc as (Hcr & Hcc & _).
  assert (Hmod8 : ∀ a, a ≠ grid cur → h8 !! a = h7 !! a).
  { unfold remove_cells in Hrm.
    destruct (remove_loop _ _ _ _ _ _ _) as [[h9 r9]|] eqn:Hloop; [|done].
    injection Hrm as <- _. intros a Ha.
    unfold classify.
    assert (Hfold : ∀ l (h0 : gmap nat (list Cell)),
              foldl (λ h i, if value (load h cur i) =? V_None
                            then store_type h cur i DYNAMIC
                            else store_type h cur i FIXED) h0 l !! a = h0 !! a).
    { induction l as [|i l IHl]; intros h0; simpl; [done|].
      rewrite IHl. destruct (_ =? _); unfold store_type; by rewrite lookup_alter_ne. }
    rewrite Hfold. clear Hfold.
    revert Hloop. generalize 0%Z. generalize r1. generalize h7.
    induction probes as [|probes IHp]; intros h0 r0 rc; rewrite remove_loop_eq;
      destruct (rc <? n)%Z; try done; try (by intros [= <- _]).
    cbv zeta. destruct (_ =? V_None); [apply IHp|].
    destruct (has_unique_solution _ _ _) as [[[] hu]|] eqn:Hu; [| |done];
      apply has_unique_solution_heap in Hu as ->; intros Hloop;
      apply IHp in Hloop; rewrite Hloop; unfold store_type, store_value;
      by rewrite ?lookup_alter_ne. }
  split; [done|]. split; [done|]. split; [|split; [|split; [|split]]].
  - intros Hnn. rewrite decide_False in Hsol by done. by injection Hsol as <- _.
  - intros Hnn. rewrite decide_False in Hcur by done. by injection Hcur as <- _.
  - intros a Hac Has. unfold game_close. rewrite decide_False by done.
    destruct (decide (a = grid temp)) as [->|Hat].
    + by rewrite lookup_delete_eq.
    + rewrite lookup_delete_ne by done. rewrite Hmod8 by done.
      unfold h7. rewrite memcpy_other, Hold6, Hold5, Hold3 by done. done.
  - intros Hn. destruct Hsfresh as [[_ ?]|Hf]; [done|].
    rewrite <- Hold3; [done|]. intros Heq. rewrite Heq in Hf.
    destruct Hlive3 as [? Hl]. by rewrite Hl in Hf.
  - intros Hn. specialize (Hcfresh Hn). rewrite Hold5 in Hcfresh by done.
    rewrite <- Hold3; [done|]. intros Heq. rewrite Heq in Hcfresh.
    destruct Hlive3 as [? Hl]. by rewrite Hl in Hcfresh.
Qed.

(** X13.  [generate_new_game] allocates the two global grids only when they
    are null, at addresses that were unused, and reuses them otherwise; the
    scratch grid is freed; every other block of the heap is untouched; and
    the globals are again two distinct live 9x9 grids, so that a further
    game can be generated. *)
Theorem generate_new_game_heap probes fuel (h : gmap nat (list Cell)) r g n h' r' g' :
  globals_ok h g →
  generate_new_game probes fuel h r g n = Some (h', r', g') →
  grid (current_puzzle_grid g') ≠ NULL ∧ grid (solution_grid g') ≠ NULL ∧
  (grid (solution_grid g) ≠ NULL → solution_grid g' = solution_grid g) ∧
  (grid (current_puzzle_grid g) ≠ NULL → current_puzzle_grid g' = current_puzzle_grid g) ∧
  (∀ a, a ≠ grid (current_puzzle_grid g') → a ≠ grid (solution_grid g') →
        h' !! a = h !! a) ∧
  (grid (solution_grid g) = NULL → h !! grid (solution_grid g') = None) ∧
  (grid (current_puzzle_grid g) = NULL → h !! grid (current_puzzle_grid g') = None) ∧
  globals_ok h' g'.
Proof.
  intros Hg Hgen.
  destruct (generate_new_game_blocks _ _ _ _ _ _ _ _ _ Hg Hgen)
    as (Hcn & Hsn & Hsk & Hck & Hfr & Hsf & Hcf).
  destruct (generate_new_game_spec _ _ _ _ _ _ _ _ _ Hg Hgen)
    as (Hwfc & Hwfs & Hdist & _).
  split; [done|]. split; [done|]. split; [done|]. split; [done|].
  split; [done|]. split; [done|]. split; [done|].
  split; [by right|]. split; [by right|]. intros _ _. by apply not_eq_sym.
Qed.

Lemma generate_new_game_heap_witness :
  ∃ h' r' g',
    generate_new_game 400 82 ∅ sample_rand fresh_globals 2 = Some (h', r', g') ∧
    globals_ok h' g'.
Proof.
  destruct sample_game2_returns as [[[h' r'] g'] E].
  exists h', r', g'. split; [exact E|].
  exact (proj2 (proj2 (proj2 (proj2 (proj2 (proj2 (proj2 (generate_new_game_heap 400 82 ∅
           sample_rand fresh_globals 2%Z h' r' g' (globals_ok_fresh ∅) E)))))))).
Defined.

(** * The mouse *)

Lemma mouse_select_session click ss :
  gameState (mouse_select click ss) = gameState ss ∧
  mistakeCount (mouse_select click ss) = mistakeCount ss ∧
  score (mouse_select click ss) = score ss ∧
  selectedDifficulty (mouse_select click ss) = selectedDifficulty ss.
Proof.
  destruct click as [[x y]|]; [|done]. unfold mouse_select.
  by destruct (_ && _ && _ && _).
Qed.

Section mouse.
Import QArith_base.
Local Open Scope Q_scope.

Lemma trunc_cell (x : Q) :
  0 <= x → x < inject_Z 900 →
  (0 ≤ Z.quot (trunc x) 100 < 9)%Z ∧
  inject_Z (100 * Z.quot (trunc x) 100) <= x ∧
  x < inject_Z (100 * (Z.quot (trunc x) 100 + 1)).
Proof.
  destruct x as [n d]. unfold Qle, Qlt, trunc, inject_Z. cbn [Qnum Qden]. intros H0 H9.
  rewrite !(Z.quot_div_nonneg n (Z.pos d)) by lia.
  assert (Hq : (0 ≤ n / Z.pos d)%Z) by (apply Z.div_pos; lia).
  rewrite Z.quot_div_nonneg by lia.
  rewrite Z.div_div by lia.
  pose proof (Z.div_mod n (Z.pos d * 100) ltac:(lia)) as Hdm.
  pose proof (Z.mod_pos_bound n (Z.pos d * 100) ltac:(lia)) as Hmb.
  set (q := (n / (Z.pos d * 100))%Z) in *.
  split; [|split]; nia.
Qed.

Lemma Qlt_bool_iff (x y : Q) : Qlt_bool x y = true ↔ x < y.
Proof.
  unfold Qlt_bool. rewrite negb_true_iff. split.
  - intros Hle. apply Qnot_le_lt. intros H. apply Qle_bool_iff in H. congruence.
  - intros Hlt. destruct (Qle_bool y x) eqn:E; [|done].
    apply Qle_bool_iff in E. by destruct (Qlt_not_le _ _ Hlt).
Qed.

Lemma inside_iff (x y : Q) :
  Qle_bool (inject_Z 0) x && Qlt_bool x (inject_Z windowWidth) &&
  Qle_bool (inject_Z 0) y && Qlt_bool y (inject_Z windowHeight) = true ↔
  0 <= x ∧ x < inject_Z windowWidth ∧ 0 <= y ∧ y < inject_Z windowHeight.
Proof.
  rewrite !andb_true_iff, !Qlt_bool_iff, !Qle_bool_iff. change (inject_Z 0) with 0. tauto.
Qed.

Lemma mouse_select_inside (x y : Q) ss :
  0 <= x ∧ x < inject_Z windowWidth ∧ 0 <= y ∧ y < inject_Z windowHeight →
  mouse_select (Some (x, y)) ss =
  select (Z.quot (trunc y) cellHeight) (Z.quot (trunc x) cellWidth) ss.
Proof. intros Hin%inside_iff. unfold mouse_select. by rewrite Hin. Qed.

Lemma mouse_select_outside (x y : Q) ss :
  ¬ (0 <= x ∧ x < inject_Z windowWidth ∧ 0 <= y ∧ y < inject_Z windowHeight) →
  mouse_select (Some (x, y)) ss = select (-1) (-1) ss.
Proof.
  intros Hout. unfold mouse_select.
  destruct (_ && _ && _ && _) eqn:E; [|done]. by apply inside_iff in E.
Qed.

Lemma mouse_select_ok click ss : selection_ok ss → selection_ok (mouse_select click ss).
Proof.
  intros Hsel. destruct click as [[x y]|]; [|done].
  destruct (Qlt_le_dec x (inject_Z windowWidth)) as [Hx|Hx];
    [destruct (Qlt_le_dec y (inject_Z windowHeight)) as [Hy|Hy];
     [destruct (Qlt_le_dec x 0) as [Hx0|Hx0];
      [|destruct (Qlt_le_dec y 0) as [Hy0|Hy0]]|]|].
  - rewrite mouse_select_outside; [by left|]. intros (H & _). by apply Qlt_not_le in Hx0.
  - rewrite mouse_select_outside; [by left|]. intros (_ & _ & H & _). by apply Qlt_not_le in Hy0.
  - rewrite mouse_select_inside by done. right.
    destruct (trunc_cell x Hx0 Hx) as (Hc & _). destruct (trunc_cell y Hy0 Hy) as (Hr & _).
    split; exact Hr || exact Hc.
  - rewrite mouse_select_outside; [by left|]. intros (_ & _ & _ & H). by apply Qlt_not_le in H.
  - rewrite mouse_select_outside; [by left|]. intros (_ & H & _). by apply Qlt_not_le in H.
Qed.

(** X14.  A left click inside the window selects the cell whose square of
    the board contains the pointer, a click anywhere else drops the
    selection; the selection is all a click changes. *)
Theorem mouse_select_cell (x y : Q) ss :
  (0 <= x ∧ x < inject_Z windowWidth ∧ 0 <= y ∧ y < inject_Z windowHeight →
   on_board (mouse_select (Some (x, y)) ss) ∧
   inject_Z (cellWidth * selectedCol (mouse_select (Some (x, y)) ss)) <= x ∧
   x < inject_Z (cellWidth * (selectedCol (mouse_select (Some (x, y)) ss) + 1)) ∧
   inject_Z (cellHeight * selectedRow (mouse_select (Some (x, y)) ss)) <= y ∧
   y < inject_Z (cellHeight * (selectedRow (mouse_select (Some (x, y)) ss) + 1))) ∧
  (¬ (0 <= x ∧ x < inject_Z windowWidth ∧ 0 <= y ∧ y < inject_Z windowHeight) →
   selectedRow (mouse_select (Some (x, y)) ss) = (-1)%Z ∧
   selectedCol (mouse_select (Some (x, y)) ss) = (-1)%Z) ∧
  gameState (mouse_select (Some (x, y)) ss) = gameState ss ∧
  mistakeCount (mouse_select (Some (x, y)) ss) = mistakeCount ss ∧
  score (mouse_select (Some (x, y)) ss) = score ss.
Proof.
  split; [|split].
  - intros Hin. rewrite mouse_select_inside by done.
    destruct Hin as (Hx0 & Hx & Hy0 & Hy).
    destruct (trunc_cell x Hx0 Hx) as (Hc & Hcl & Hcu).
    destruct (trunc_cell y Hy0 Hy) as (Hr & Hrl & Hru).
    split; [split; exact Hr || exact Hc|]. done.
  - intros Hout. by rewrite mouse_select_outside.
  - destruct (mouse_select_session (Some (x, y)) ss) as (? & ? & ? & _). done.
Qed.

End mouse.

(** * Key input during play *)

Lemma foldl_step {A B} (f : A → B → A) a x l : foldl f a (x :: l) = foldl f (f a x) l.
Proof. reflexivity. Qed.

Lemma is_dynamic_true t : is_dynamic t = true ↔ t = DYNAMIC.
Proof. by destruct t. Qed.

Lemma is_dynamic_false t : is_dynamic t = false ↔ t = FIXED.
Proof. by destruct t. Qed.

Lemma type_load_types (h h' : gmap nat (list Cell)) s i :
  types h' s = types h s → type (load h' s i) = type (load h s i).
Proof.
  intros Hty. unfold load.
  assert (Hl : type <$> block h' s !! i = type <$> block h s !! i).
  { rewrite <- !list_lookup_fmap. by fold (types h' s); fold (types h s); rewrite Hty. }
  destruct (block h' s !! i), (block h s !! i); simpl in *; congruence.
Qed.

Lemma input_frame_refl g idx (h : gmap nat (list Cell)) : input_frame g idx h h.
Proof. split; [apply modifies_only_refl|]. by repeat split. Qed.

Lemma input_frame_trans g idx (h1 h2 h3 : gmap nat (list Cell)) :
  input_frame g idx h1 h2 → input_frame g idx h2 h3 → input_frame g idx h1 h3.
Proof.
  intros (M1 & T1 & V1 & F1) (M2 & T2 & V2 & F2).
  split; [by eapply modifies_only_trans|]. split; [by rewrite T2|]. split.
  - intros i Hi. by rewrite V2, V1.
  - intros Hf. rewrite F2; [by apply F1|].
    by rewrite (type_load_types h1 h2).
Qed.

Lemma input_frame_store g idx (h : gmap nat (list Cell)) v :
  type (load h (current_puzzle_grid g) idx) = DYNAMIC →
  input_frame g idx h (store_value h (current_puzzle_grid g) idx v).
Proof.
  intros Hdyn. split; [apply modifies_only_store_value|].
  split; [apply types_store_value|]. split.
  - intros i Hi. rewrite values_store_value. by apply list_lookup_total_insert_ne.
  - intros Hf. congruence.
Qed.

(** A key that is not down does nothing. *)
Lemma number_key_idle kc pressed secs g (st : gmap nat (list Cell) * Session) key :
  pressed key = false → number_key kc pressed secs g st key = st.
Proof. intros Hp. destruct st as [h ss]. unfold number_key. by rewrite Hp. Qed.

(** A number key on a selected [DYNAMIC] cell: a guess. *)
Lemma number_key_guess kc pressed secs g (h : gmap nat (list Cell)) ss key :
  pressed key = true → (0 ≤ selectedRow ss)%Z → (0 ≤ selectedCol ss)%Z →
  type (load h (current_puzzle_grid g) (selected_index ss)) = DYNAMIC →
  number_key kc pressed secs g (h, ss) key =
  if (key - KEY_ZERO kc =? Z.of_nat (value (load h (solution_grid g) (selected_index ss))))%Z
  then (store_value h (current_puzzle_grid g) (selected_index ss)
          (value (load h (solution_grid g) (selected_index ss))),
        if all_filled (store_value h (current_puzzle_grid g) (selected_index ss)
                         (value (load h (solution_grid g) (selected_index ss)))) g
        then won secs ss else ss)
  else (h, mistaken ss).
Proof.
  intros Hp Hr Hc Hty. unfold number_key. rewrite Hp, Hty.
  rewrite (proj2 (Z.leb_le _ _) Hr), (proj2 (Z.leb_le _ _) Hc). cbn [andb is_dynamic].
  destruct (Z.eqb_spec (key - KEY_ZERO kc)
              (Z.of_nat (value (load h (solution_grid g) (selected_index ss))))) as [Heq|Hne];
    [|done].
  rewrite Heq, Nat2Z.id. by destruct (all_filled _ g).
Qed.

(** The outcomes of a number key. *)
Lemma number_key_cases kc pressed secs g (h : gmap nat (list Cell)) ss key h' ss' :
  number_key kc pressed secs g (h, ss) key = (h', ss') →
  (h' = h ∧ ss' = ss) ∨
  ((0 ≤ selectedRow ss)%Z ∧ (0 ≤ selectedCol ss)%Z ∧
   type (load h (current_puzzle_grid g) (selected_index ss)) = DYNAMIC ∧
   (h' = store_value h (current_puzzle_grid g) (selected_index ss)
           (value (load h (solution_grid g) (selected_index ss))) ∧
    ss' = (if all_filled h' g then won secs ss else ss) ∨
    h' = h ∧ ss' = mistaken ss)).
Proof.
  destruct (pressed key) eqn:Hp; [|rewrite number_key_idle by done; intros [= <- <-]; by left].
  destruct (Z.leb_spec 0 (selectedRow ss)) as [Hr|Hr].
  2:{ unfold number_key. rewrite (proj2 (Z.leb_gt _ _) Hr), andb_false_r.
      intros [= <- <-]. by left. }
  destruct (Z.leb_spec 0 (selectedCol ss)) as [Hc|Hc].
  2:{ unfold number_key. rewrite (proj2 (Z.leb_gt _ _) Hc), andb_false_r.
      intros [= <- <-]. by left. }
  destruct (type (load h (current_puzzle_grid g) (selected_index ss))) eqn:Hty.
  { unfold number_key. rewrite Hty. cbn [is_dynamic]. destruct (_ && _ && _);
      intros [= <- <-]; by left. }
  rewrite number_key_guess by done.
  destruct (_ =? _)%Z; intros [= <- <-]; right; (split; [done|split; [done|split; [done|]]]).
  - by left.
  - by right.
Qed.

Lemma key_effect_refl g (h : gmap nat (list Cell)) ss : key_effect g h ss h ss.
Proof. split; [apply input_frame_refl|]. split; [done|]. split; [lia|done]. Qed.

Lemma same_selection_index ss ss' :
  same_selection ss ss' → selected_index ss' = selected_index ss.
Proof. intros [Hr Hc]. unfold selected_index. by rewrite Hr, Hc. Qed.

Lemma key_effect_trans g (h1 h2 h3 : gmap nat (list Cell)) s1 s2 s3 :
  key_effect g h1 s1 h2 s2 → key_effect g h2 s2 h3 s3 → key_effect g h1 s1 h3 s3.
Proof.
  intros (F1 & S1 & M1 & I1) (F2 & S2 & M2 & I2).
  pose proof (same_selection_index _ _ S1) as Hidx. rewrite Hidx in F2.
  split; [by eapply input_frame_trans|]. split.
  { destruct S1 as [? ?], S2 as [? ?]. split; congruence. }
  split; [lia|]. intros Hidle. destruct (I1 Hidle) as [-> ->]. by apply I2.
Qed.

Lemma number_key_effect kc pressed secs g (h : gmap nat (list Cell)) ss key h' ss' :
  number_key kc pressed secs g (h, ss) key = (h', ss') → key_effect g h ss h' ss'.
Proof.
  intros [[-> ->]|(Hr & Hc & Hty & [[-> ->]|[-> ->]])]%number_key_cases.
  - apply key_effect_refl.
  - split; [by apply input_frame_store|]. split; [by destruct (all_filled _ g)|].
    split; [by destruct (all_filled _ g); simpl; lia|].
    intros [Hno|Hfx]; [by destruct Hno|congruence].
  - split; [apply input_frame_refl|]. split; [done|]. split; [simpl; lia|].
    intros [Hno|Hfx]; [by destruct Hno|congruence].
Qed.

Lemma number_keys_effect kc pressed secs g keys : ∀ (h : gmap nat (list Cell)) ss h' ss',
  foldl (number_key kc pressed secs g) (h, ss) keys = (h', ss') → key_effect g h ss h' ss'.
Proof.
  induction keys as [|key keys IH]; intros h ss h' ss'; [simpl|rewrite foldl_step].
  - intros [= <- <-]. apply key_effect_refl.
  - destruct (number_key kc pressed secs g (h, ss) key) as [h1 ss1] eqn:Hk.
    apply number_key_effect in Hk. intros Hf%IH. by eapply key_effect_trans.
Qed.

Lemma clear_key_effect kc pressed g (h : gmap nat (list Cell)) ss h' ss' :
  clear_key kc pressed g (h, ss) = (h', ss') →
  ss' = ss ∧ key_effect g h ss h' ss ∧
  (h' = h ∨
   (type (load h (current_puzzle_grid g) (selected_index ss)) = DYNAMIC ∧
    h' = store_value h (current_puzzle_grid g) (selected_index ss) V_None)).
Proof.
  unfold clear_key.
  destruct (Z.leb_spec 0 (selectedRow ss)) as [Hr|Hr];
    [|rewrite andb_false_r; intros [= <- <-];
      split; [done|split; [apply key_effect_refl|by left]]].
  destruct (Z.leb_spec 0 (selectedCol ss)) as [Hc|Hc];
    [|rewrite andb_false_r; intros [= <- <-];
      split; [done|split; [apply key_effect_refl|by left]]].
  destruct (_ || _); cbn [andb];
    [|intros [= <- <-]; split; [done|split; [apply key_effect_refl|by left]]].
  destruct (type (load h (current_puzzle_grid g) (selected_index ss))) eqn:Hty;
    cbn [is_dynamic]; intros [= <- <-].
  - split; [done|split; [apply key_effect_refl|by left]].
  - split; [done|]. split; [|by right].
    split; [by apply input_frame_store|]. split; [done|]. split; [lia|].
    intros [Hno|Hfx]; [by destruct Hno|congruence].
Qed.

Lemma playing_input_effect kc inp g (h : gmap nat (list Cell)) ss h' ss' :
  playing_input kc inp g (h, ss) = (h', ss') →
  (h' = h ∧ ss' = ss) ∨
  key_effect g h (mouse_select (mouse_click inp) ss) h' ss'.
Proof.
  unfold playing_input. cbn [fst snd].
  destruct (mistakeCount ss <? 3)%Z; [|intros [= <- <-]; by left].
  unfold number_keys. destruct (foldl _ _ _) as [h1 ss1] eqn:Hkeys.
  apply number_keys_effect in Hkeys.
  intros (-> & E & _)%clear_key_effect. right. by eapply key_effect_trans.
Qed.

Lemma selection_ok_idle g (h : gmap nat (list Cell)) ss :
  selection_ok ss → ¬ on_board ss → idle g h ss.
Proof.
  intros [[Hr Hc]|Hon] Hno; [|done]. left. intros [? ?]. lia.
Qed.

(** X15.  The input of a frame during play changes nothing but the value of
    the selected puzzle cell: every other block, in particular the solution
    grid, every classification and every other cell are as before.  When no
    cell is selected or the selected cell is [FIXED], the heap, the mistakes
    and the state are as before.  The selection stays a cell of the board
    or none. *)
Theorem playing_input_frame kc inp g (h : gmap nat (list Cell)) ss h' ss' :
  wf9 h (current_puzzle_grid g) → wf9 h (solution_grid g) → selection_ok ss →
  playing_input kc inp g (h, ss) = (h', ss') →
  (∀ a, a ≠ grid (current_puzzle_grid g) → h' !! a = h !! a) ∧
  (∀ i, type (load h' (current_puzzle_grid g) i) = type (load h (current_puzzle_grid g) i)) ∧
  (∀ i, i ≠ selected_index ss' →
        value (load h' (current_puzzle_grid g) i) = value (load h (current_puzzle_grid g) i)) ∧
  (¬ on_board ss' ∨ type (load h (current_puzzle_grid g) (selected_index ss')) = FIXED →
   h' = h ∧ mistakeCount ss' = mistakeCount ss ∧ gameState ss' = gameState ss) ∧
  selection_ok ss'.
Proof.
  intros _ _ Hsel [[-> ->]|(F & S & M & I)]%playing_input_effect.
  { by repeat split. }
  pose proof (mouse_select_ok (mouse_click inp) ss Hsel) as Hsel0.
  pose proof (same_selection_index _ _ S) as Hidx.
  assert (Hsel' : selection_ok ss').
  { destruct S as [Hr Hc]. unfold selection_ok, on_board in *. by rewrite Hr, Hc. }
  destruct F as (Mo & T & V & _).
  split; [by destruct Mo|]. split; [intros i; by apply type_load_types|].
  split; [intros i Hi; rewrite !value_load; apply V; by rewrite <- Hidx|].
  split; [|done]. intros Hidle.
  destruct (mouse_select_session (mouse_click inp) ss) as (Hgs & Hmc & _).
  destruct I as [-> ->]; [|done].
  destruct Hidle as [Hno|Hfx]; [|right; by rewrite <- Hidx].
  apply selection_ok_idle; [done|]. intros Hon. apply Hno.
  destruct S as [Hr Hc]. unfold on_board in *. by rewrite Hr, Hc.
Qed.

(** * The answer key stays the answer key *)

Lemma answer_key_inv_store g (h : gmap nat (list Cell)) idx v :
  answer_key_inv h g →
  type (load h (current_puzzle_grid g) idx) = DYNAMIC →
  v = V_None ∨ v = value (load h (solution_grid g) idx) →
  answer_key_inv (store_value h (current_puzzle_grid g) idx v) g.
Proof.
  intros (Hwfc & Hwfs & Hne & Hsolved & Hkeep & Hfixed) Hdyn Hv.
  pose proof (modifies_only_store_value (current_puzzle_grid g) h idx v) as Hmod.
  assert (Hidx : idx < 81).
  { destruct (decide (idx < 81)) as [|Hge]; [done|].
    unfold load in Hdyn. rewrite lookup_ge_None_2 in Hdyn; [done|].
    rewrite <- length_values, (wf9_length _ _ Hwfc). lia. }
  assert (Hsol : values (store_value h (current_puzzle_grid g) idx v) (solution_grid g) =
                 values h (solution_grid g)).
  { unfold values. by rewrite (modifies_only_block _ _ _ _ Hmod) by (by apply not_eq_sym). }
  split; [by eapply modifies_only_wf9|].
  split; [eapply wf9_lookup_eq; [|done]; apply (proj1 Hmod); by apply not_eq_sym|].
  split; [done|]. split; [by rewrite Hsol|]. split.
  - intros i Hi. rewrite Hsol, values_store_value.
    destruct (decide (i = idx)) as [->|Hii].
    + rewrite list_lookup_total_insert_eq by (rewrite (wf9_length _ _ Hwfc); lia).
      rewrite <- value_load. unfold V_None in Hv. done.
    + rewrite list_lookup_total_insert_ne by done. by apply Hkeep.
  - intros i Hi Hfx.
    rewrite (type_load_types h _ _ i (types_store_value h _ idx v)) in Hfx.
    assert (i ≠ idx) by (intros ->; congruence).
    rewrite value_load, values_store_value, list_lookup_total_insert_ne by done.
    rewrite <- value_load. by apply Hfixed.
Qed.

Lemma number_key_inv kc pressed secs g (h : gmap nat (list Cell)) ss key h' ss' :
  answer_key_inv h g →
  number_key kc pressed secs g (h, ss) key = (h', ss') →
  answer_key_inv h' g.
Proof.
  intros Hinv [[-> _]|(_ & _ & Hty & [[-> _]|[-> _]])]%number_key_cases; [done| |done].
  apply answer_key_inv_store; [done|done|by right].
Qed.

Lemma number_keys_inv kc pressed secs g keys : ∀ (h : gmap nat (list Cell)) ss h' ss',
  answer_key_inv h g →
  foldl (number_key kc pressed secs g) (h, ss) keys = (h', ss') →
  answer_key_inv h' g.
Proof.
  induction keys as [|key keys IH]; intros h ss h' ss' Hinv; [simpl|rewrite foldl_step].
  - by intros [= <- _].
  - destruct (number_key kc pressed secs g (h, ss) key) as [h1 ss1] eqn:Hk.
    apply number_key_inv in Hk; [|done]. by apply IH.
Qed.

Lemma playing_input_inv kc inp g (h : gmap nat (list Cell)) ss h' ss' :
  answer_key_inv h g →
  playing_input kc inp g (h, ss) = (h', ss') →
  answer_key_inv h' g.
Proof.
  intros Hinv. unfold playing_input. cbn [fst snd].
  destruct (mistakeCount ss <? 3)%Z; [|by intros [= <- _]].
  unfold number_keys. destruct (foldl _ _ _) as [h1 ss1] eqn:Hkeys.
  apply number_keys_inv in Hkeys; [|done].
  intros (_ & _ & [->|[Hdyn ->]])%clear_key_effect; [done|].
  apply answer_key_inv_store; [done|done|by left].
Qed.

Lemma input_frame_solution g idx (h h' : gmap nat (list Cell)) :
  grid (current_puzzle_grid g) ≠ grid (solution_grid g) →
  input_frame g idx h h' → values h' (solution_grid g) = values h (solution_grid g).
Proof.
  intros Hne (Hmod & _). unfold values.
  by rewrite (modifies_only_block _ _ _ _ Hmod) by (by apply not_eq_sym).
Qed.

(** X16.  The input of a frame keeps the puzzle consistent with the answer
    key: if every filled puzzle cell holds the solution's value and every
    [FIXED] cell is filled, the same is true afterwards, while the solution
    grid stays the same solved grid. *)
Theorem playing_input_keeps_answer_key kc inp g (h : gmap nat (list Cell)) ss h' ss' :
  answer_key_inv h g → selection_ok ss →
  playing_input kc inp g (h, ss) = (h', ss') →
  answer_key_inv h' g ∧ values h' (solution_grid g) = values h (solution_grid g).
Proof.
  intros Hinv _ Hplay. split; [by eapply playing_input_inv|].
  destruct Hinv as (_ & _ & Hne & _).
  apply playing_input_effect in Hplay as [[-> _]|(F & _)]; [done|].
  by eapply input_frame_solution.
Qed.

(** * Winning *)

Lemma all_filled_spec (h : gmap nat (list Cell)) g :
  all_filled h g = true ↔
  ∀ i, i < 81 → type (load h (current_puzzle_grid g) i) = DYNAMIC →
       value (load h (current_puzzle_grid g) i) ≠ V_None.
Proof.
  unfold all_filled. rewrite forallb_forall. split.
  - intros Hall i Hi Hdyn Hz.
    specialize (Hall i ltac:(apply in_seq; unfold ROWS, COLS; lia)).
    rewrite Hdyn, Hz in Hall. done.
  - intros Hall i [_ Hi]%in_seq. unfold ROWS, COLS in Hi.
    destruct (type (load h (current_puzzle_grid g) i)) eqn:Hty; [done|].
    cbn [is_dynamic andb]. apply negb_true_iff, Nat.eqb_neq. apply Hall; [lia|done].
Qed.

Lemma answer_key_full (h : gmap nat (list Cell)) g :
  answer_key_inv h g →
  all_filled h g = true ↔ values h (current_puzzle_grid g) = values h (solution_grid g).
Proof.
  intros (Hwfc & Hwfs & _ & Hsolved & Hkeep & Hfixed). rewrite all_filled_spec. split.
  - intros Hall.
    apply (list_eq_total _ _ 81); [by apply wf9_length|by apply wf9_length|].
    intros i Hi. destruct (Hkeep i Hi) as [Hz|?]; [|done].
    rewrite <- value_load in Hz.
    destruct (type (load h (current_puzzle_grid g) i)) eqn:Hty.
    + by destruct (Hfixed i Hi Hty).
    + by destruct (Hall i Hi Hty).
  - intros Heq i Hi _. rewrite value_load, Heq.
    pose proof (solved_range _ i Hsolved Hi). unfold V_None. lia.
Qed.

Lemma number_keys_win kc pressed secs g keys : ∀ (h : gmap nat (list Cell)) ss h' ss',
  answer_key_inv h g →
  (gameState ss = STATE_WIN → values h (current_puzzle_grid g) = values h (solution_grid g)) →
  foldl (number_key kc pressed secs g) (h, ss) keys = (h', ss') →
  gameState ss' = STATE_WIN →
  values h' (current_puzzle_grid g) = values h' (solution_grid g).
Proof.
  induction keys as [|key keys IH]; intros h ss h' ss' Hinv Hwin; [simpl|rewrite foldl_step].
  - intros [= <- <-]. done.
  - destruct (number_key kc pressed secs g (h, ss) key) as [h1 ss1] eqn:Hk.
    pose proof (number_key_inv _ _ _ _ _ _ _ _ _ Hinv Hk) as Hinv1.
    apply IH; [done|].
    apply number_key_cases in Hk as [[-> ->]|(_ & _ & Hty & [[Hh1 ->]|[-> ->]])].
    + done.
    + destruct (all_filled h1 g) eqn:Hall; [intros _; by apply answer_key_full|].
      intros Hw. specialize (Hwin Hw).
      apply answer_key_full in Hwin; [|done].
      rewrite all_filled_spec in Hwin.
      destruct Hinv as (Hwfc & _ & _ & Hsolved & _).
      assert (Hidx : selected_index ss < 81).
      { destruct (decide (selected_index ss < 81)) as [|Hge]; [done|].
        unfold load in Hty. rewrite lookup_ge_None_2 in Hty; [done|].
        rewrite <- length_values, (wf9_length _ _ Hwfc). lia. }
      assert (Hall' : all_filled h1 g = true); [|congruence].
      apply all_filled_spec. intros i Hi Hdyn. rewrite Hh1 in Hdyn |- *.
      rewrite (type_load_types h _ _ i (types_store_value h _ _ _)) in Hdyn.
      rewrite value_load, values_store_value.
      destruct (decide (i = selected_index ss)) as [->|Hii].
      * rewrite list_lookup_total_insert_eq by (rewrite (wf9_length _ _ Hwfc); lia).
        pose proof (solved_range _ _ Hsolved Hidx) as Hrange.
        rewrite value_load. unfold V_None. lia.
      * rewrite list_lookup_total_insert_ne by done. rewrite <- value_load. by apply Hwin.
    + simpl. destruct (3 <=? _)%Z; [done|]. exact Hwin.
Qed.

(** X17.  A win is a solved puzzle: when the loop over the number keys turns
    a session that was not won into [STATE_WIN], the puzzle grid holds
    exactly the values of the solution grid, a complete valid grid. *)
Theorem number_keys_win_sound kc pressed secs g (h : gmap nat (list Cell)) ss h' ss' :
  answer_key_inv h g → selection_ok ss → gameState ss ≠ STATE_WIN →
  number_keys kc pressed secs g (h, ss) = (h', ss') →
  gameState ss' = STATE_WIN →
  values h' (current_puzzle_grid g) = values h' (solution_grid g) ∧
  solved (values h' (current_puzzle_grid g)).
Proof.
  intros Hinv _ Hnw Hkeys Hwin. unfold number_keys in Hkeys.
  pose proof (number_keys_inv _ _ _ _ _ _ _ _ _ Hinv Hkeys) as (_ & _ & _ & Hsolved & _).
  pose proof (number_keys_win _ _ _ _ _ _ _ _ _ Hinv ltac:(done) Hkeys Hwin) as Heq.
  split; [done|]. by rewrite Heq.
Qed.

(** * Counting mistakes *)

Lemma tally_ok_won secs ss : tally_ok ss → tally_ok (won secs ss).
Proof.
  intros (Hm & _ & _ & _). unfold tally_ok, won. cbn.
  split; [done|]. split; [done|]. split; [done|].
  destruct (_ <? 0)%Z eqn:E; [done|]. by apply Z.ltb_ge in E.
Qed.

Lemma tally_ok_mistaken ss : tally_ok ss → tally_ok (mistaken ss).
Proof.
  intros (Hm & Hp & Hl & Hs). unfold tally_ok, mistaken. cbn.
  destruct (Z.leb_spec 3 (mistakeCount ss + 1)) as [Hge|Hlt].
  - split; [lia|]. split; [done|]. done.
  - split; [lia|]. split; [intros _; lia|]. split; [|done]. intros Hlose. specialize (Hl Hlose). lia.
Qed.

Lemma number_key_tally kc pressed secs g (h : gmap nat (list Cell)) ss key h' ss' :
  number_key kc pressed secs g (h, ss) key = (h', ss') →
  (tally_ok ss → tally_ok ss') ∧
  (gameState ss ≠ STATE_MENU → gameState ss' ≠ STATE_MENU) ∧
  (gameState ss' = STATE_LOSE → gameState ss = STATE_LOSE ∨ (3 ≤ mistakeCount ss')%Z).
Proof.
  intros [[-> ->]|(_ & _ & _ & [[-> ->]|[-> ->]])]%number_key_cases.
  - split; [done|]. split; [done|by left].
  - destruct (all_filled _ g); [|split; [done|split; [done|by left]]].
    split; [apply tally_ok_won|]. done.
  - split; [apply tally_ok_mistaken|]. unfold mistaken. cbn.
    destruct (Z.leb_spec 3 (mistakeCount ss + 1)); [split; [done|by right]|].
    split; [done|by left].
Qed.

Lemma number_keys_tally kc pressed secs g keys : ∀ (h : gmap nat (list Cell)) ss h' ss',
  foldl (number_key kc pressed secs g) (h, ss) keys = (h', ss') →
  (tally_ok ss → tally_ok ss') ∧
  (gameState ss ≠ STATE_MENU → gameState ss' ≠ STATE_MENU) ∧
  (gameState ss' = STATE_LOSE → gameState ss = STATE_LOSE ∨ (3 ≤ mistakeCount ss')%Z).
Proof.
  induction keys as [|key keys IH]; intros h ss h' ss'; [simpl|rewrite foldl_step].
  - intros [= <- <-]. split; [done|]. split; [done|by left].
  - destruct (number_key kc pressed secs g (h, ss) key) as [h1 ss1] eqn:Hk.
    pose proof (number_key_effect _ _ _ _ _ _ _ _ _ Hk) as (_ & _ & Hm1 & _).
    apply number_key_tally in Hk as (T1 & N1 & L1).
    intros Hf. pose proof (number_keys_effect _ _ _ _ _ _ _ _ _ Hf) as (_ & _ & Hm2 & _).
    apply IH in Hf as (T2 & N2 & L2).
    split; [auto|]. split; [auto|]. intros Hl.
    destruct (L2 Hl) as [Hl1|?]; [|by right].
    destruct (L1 Hl1) as [?|?]; [by left|right; lia].
Qed.

Lemma tally_ok_mouse click ss : tally_ok ss → tally_ok (mouse_select click ss).
Proof.
  destruct (mouse_select_session click ss) as (Hg & Hm & Hs & _).
  unfold tally_ok. by rewrite Hg, Hm, Hs.
Qed.

Lemma playing_input_tally kc inp g (h : gmap nat (list Cell)) ss h' ss' :
  playing_input kc inp g (h, ss) = (h', ss') →
  (tally_ok ss → tally_ok ss') ∧
  (gameState ss ≠ STATE_MENU → gameState ss' ≠ STATE_MENU) ∧
  (gameState ss' = STATE_LOSE → gameState ss = STATE_LOSE ∨ (3 ≤ mistakeCount ss')%Z).
Proof.
  unfold playing_input. cbn [fst snd].
  destruct (mistakeCount ss <? 3)%Z;
    [|intros [= <- <-]; split; [done|split; [done|by left]]].
  unfold number_keys. destruct (foldl _ _ _) as [h1 ss1] eqn:Hkeys.
  apply number_keys_tally in Hkeys as (T & N & L).
  destruct (mouse_select_session (mouse_click inp) ss) as (Hg & _).
  intros (-> & _)%clear_key_effect. rewrite Hg in N, L.
  split; [|done]. intros Ht. by apply T, tally_ok_mouse.
Qed.

(** X18.  Mistakes: once three mistakes are counted the input of a frame is
    ignored altogether; otherwise the count never decreases, the session
    turns to [STATE_LOSE] only with a count of at least three, and a session
    whose counters are in order (fewer than three mistakes while playing,
    at least three once lost, no negative score) stays so. *)
Theorem playing_input_mistakes kc inp g (h : gmap nat (list Cell)) ss h' ss' :
  answer_key_inv h g → selection_ok ss →
  playing_input kc inp g (h, ss) = (h', ss') →
  ((3 ≤ mistakeCount ss)%Z → h' = h ∧ ss' = ss) ∧
  (mistakeCount ss ≤ mistakeCount ss')%Z ∧
  (gameState ss' = STATE_LOSE → gameState ss = STATE_LOSE ∨ (3 ≤ mistakeCount ss')%Z) ∧
  (tally_ok ss → tally_ok ss').
Proof.
  intros _ _ Hplay. pose proof (playing_input_tally _ _ _ _ _ _ _ Hplay) as (T & _ & L).
  split; [|split; [|done]].
  - intros Hge. revert Hplay. unfold playing_input. cbn [fst snd].
    rewrite (proj2 (Z.ltb_ge _ _) Hge). by intros [= <- <-].
  - apply playing_input_effect in Hplay as [[_ ->]|(_ & _ & M & _)]; [lia|].
    destruct (mouse_select_session (mouse_click inp) ss) as (_ & Hm & _). lia.
Qed.

(** * One key at a time *)

Lemma number_keys_none kc pressed secs g keys (st : gmap nat (list Cell) * Session) :
  (∀ key, key ∈ keys → pressed key = false) →
  foldl (number_key kc pressed secs g) st keys = st.
Proof.
  revert st. induction keys as [|key keys IH]; intros st Hno; [done|].
  rewrite foldl_step, number_key_idle by (apply Hno; left).
  apply IH. intros k Hk. apply Hno. by right.
Qed.

Lemma number_keys_one kc k secs g keys (st : gmap nat (list Cell) * Session) :
  NoDup keys → k ∈ keys →
  foldl (number_key kc (only_key k) secs g) st keys = number_key kc (only_key k) secs g st k.
Proof.
  revert st. induction keys as [|key keys IH]; intros st Hnd Hin; [by apply elem_of_nil in Hin|].
  apply NoDup_cons in Hnd as [Hnotin Hnd]. rewrite foldl_step.
  destruct (decide (key = k)) as [->|Hne].
  - apply number_keys_none. intros key Hkey. unfold only_key. apply Z.eqb_neq. by intros ->.
  - rewrite number_key_idle by (unfold only_key; by apply Z.eqb_neq).
    apply IH; [done|]. apply elem_of_cons in Hin as [?|?]; [congruence|done].
Qed.

(** X19.  One number key on a selected [DYNAMIC] cell: the right digit is
    written into the cell and costs nothing, and the game is won exactly
    when the puzzle then equals the solution; a wrong digit leaves the board
    as it is, counts one mistake, and the third mistake loses the game. *)
Theorem number_keys_guess kc k secs g (h : gmap nat (list Cell)) ss h' ss' :
  answer_key_inv h g → on_board ss → gameState ss = STATE_PLAYING →
  (KEY_ONE kc ≤ k ≤ KEY_NINE kc)%Z →
  type (load h (current_puzzle_grid g) (selected_index ss)) = DYNAMIC →
  number_keys kc (only_key k) secs g (h, ss) = (h', ss') →
  if (k - KEY_ZERO kc =? Z.of_nat (value (load h (solution_grid g) (selected_index ss))))%Z
  then
    values h' (current_puzzle_grid g) =
      <[selected_index ss := value (load h (solution_grid g) (selected_index ss))]>
        (values h (current_puzzle_grid g)) ∧
    mistakeCount ss' = mistakeCount ss ∧
    (gameState ss' = STATE_WIN ∨ gameState ss' = STATE_PLAYING) ∧
    (gameState ss' = STATE_WIN ↔
     values h' (current_puzzle_grid g) = values h' (solution_grid g))
  else
    h' = h ∧ mistakeCount ss' = (mistakeCount ss + 1)%Z ∧
    gameState ss' = if (3 <=? mistakeCount ss + 1)%Z then STATE_LOSE else STATE_PLAYING.
Proof.
  intros Hinv [[Hr _] [Hc _]] Hgs Hk Hty. unfold number_keys.
  rewrite number_keys_one; [|apply NoDup_seqZ|apply elem_of_seqZ; lia].
  rewrite number_key_guess; [|unfold only_key; by apply Z.eqb_eq|done|done|done].
  destruct (_ =? _)%Z.
  - intros [= <- <-]. split; [apply values_store_value|].
    pose proof (answer_key_inv_store g h (selected_index ss) _ Hinv Hty (or_intror eq_refl))
      as Hinv'.
    pose proof (answer_key_full _ _ Hinv') as Hfull.
    destruct (all_filled _ g).
    + split; [done|]. split; [by left|]. split; [intros _; by apply Hfull|done].
    + split; [done|]. split; [by right|]. rewrite Hgs. split; [done|].
      intros Heq. apply Hfull in Heq. done.
  - intros [= <- <-]. split; [done|]. split; [done|]. unfold mistaken. cbn. by rewrite Hgs.
Qed.

(** * The menu *)

Lemma generate_new_game_inv probes fuel (h : gmap nat (list Cell)) r g n h' r' g' :
  globals_ok h g →
  generate_new_game probes fuel h r g n = Some (h', r', g') →
  answer_key_inv h' g' ∧ allocated g' ∧ globals_ok h' g'.
Proof.
  intros Hg Hgen.
  destruct (generate_new_game_spec _ _ _ _ _ _ _ _ _ Hg Hgen)
    as (Hwfc & Hwfs & Hdist & Hsolved & Hcls & Hval & _).
  destruct (generate_new_game_blocks _ _ _ _ _ _ _ _ _ Hg Hgen) as (Hcn & Hsn & _).
  split; [|split; [done|]].
  2:{ split; [by right|]. split; [by right|]. intros _ _. by apply not_eq_sym. }
  split; [done|]. split; [done|]. split; [done|]. split; [done|]. split.
  - intros i _. apply Hval.
  - intros i Hi Hfx Hz.
    rewrite (classified_type h' _ i Hcls) in Hfx
      by (rewrite <- length_values, (wf9_length _ _ Hwfc); lia).
    rewrite Hz in Hfx. done.
Qed.

Lemma menu_input_cases kc pressed probes fuel (h : gmap nat (list Cell)) r g ss h' r' g' ss' :
  menu_input kc pressed probes fuel h r g ss = Some (h', r', g', ss') →
  (pressed (KEY_ONE kc) || pressed (KEY_TWO kc) || pressed (KEY_THREE kc) = false ∧
   (h', r', g', ss') = (h, r, g, ss)) ∨
  (∃ n, (n = EASY_CELLS_REMOVED ∨ n = MEDIUM_CELLS_REMOVED ∨ n = HARD_CELLS_REMOVED) ∧
        generate_new_game probes fuel h r g n = Some (h', r', g') ∧
        ss' = mkSession STATE_PLAYING (-1) (-1) n 0 0).
Proof.
  unfold menu_input. destruct (_ || _ || _); [|intros [= <- <- <- <-]; by left].
  destruct (generate_new_game _ _ _ _ _ _) as [[[h1 r1] g1]|] eqn:Hgen; [|done].
  intros [= <- <- <- <-]. right. eexists. split; [|split; [exact Hgen|done]].
  destruct (pressed (KEY_ONE kc)); [by left|].
  destruct (pressed (KEY_TWO kc)); [right; by left|right; by right].
Qed.

(** X20.  The menu: key 1, 2 or 3 (in this order of precedence) starts a
    game with 35, 45 or 55 empty cells, no mistakes, no score and no cell
    selected; the puzzle has exactly one valid completion and the solution
    grid is its answer key.  Without one of these keys nothing changes. *)
Theorem menu_input_starts_game kc pressed probes fuel
    (h : gmap nat (list Cell)) r g ss h' r' g' ss' :
  globals_ok h g →
  menu_input kc pressed probes fuel h r g ss = Some (h', r', g', ss') →
  if pressed (KEY_ONE kc) || pressed (KEY_TWO kc) || pressed (KEY_THREE kc) then
    ss' = mkSession STATE_PLAYING (-1) (-1)
            (if pressed (KEY_ONE kc) then EASY_CELLS_REMOVED
             else if pressed (KEY_TWO kc) then MEDIUM_CELLS_REMOVED
             else HARD_CELLS_REMOVED) 0 0 ∧
    Z.of_nat (empties (values h' (current_puzzle_grid g'))) = selectedDifficulty ss' ∧
    answer_key_inv h' g' ∧
    unique_completion (values h' (current_puzzle_grid g'))
  else (h', r', g', ss') = (h, r, g, ss).
Proof.
  intros Hg. unfold menu_input. destruct (_ || _ || _); [|by intros [= <- <- <- <-]].
  destruct (generate_new_game _ _ _ _ _ _) as [[[h1 r1] g1]|] eqn:Hgen; [|done].
  intros [= <- <- <- <-]. split; [done|].
  destruct (generate_new_game_spec _ _ _ _ _ _ _ _ _ Hg Hgen)
    as (_ & _ & _ & _ & _ & _ & Hemp & _ & Huniq).
  destruct (generate_new_game_inv _ _ _ _ _ _ _ _ _ Hg Hgen) as (Hinv & _).
  split; [|done]. rewrite Hemp. cbn [selectedDifficulty].
  unfold EASY_CELLS_REMOVED, MEDIUM_CELLS_REMOVED, HARD_CELLS_REMOVED.
  destruct (pressed (KEY_ONE kc)); [lia|]. destruct (pressed (KEY_TWO kc)); lia.
Qed.

(** * Frames *)

Lemma playing_input_selection kc inp g (h : gmap nat (list Cell)) ss h' ss' :
  selection_ok ss → playing_input kc inp g (h, ss) = (h', ss') → selection_ok ss'.
Proof.
  intros Hsel [[_ ->]|(_ & [Hr Hc] & _)]%playing_input_effect; [done|].
  pose proof (mouse_select_ok (mouse_click inp) ss Hsel) as Hsel0.
  unfold selection_ok, on_board in *. by rewrite Hr, Hc.
Qed.

Lemma answer_key_globals (h : gmap nat (list Cell)) g : answer_key_inv h g → globals_ok h g.
Proof.
  intros (Hwfc & Hwfs & Hne & _). split; [by right|]. split; [by right|].
  intros _ _. by apply not_eq_sym.
Qed.

Lemma tally_ok_start n : tally_ok (mkSession STATE_PLAYING (-1) (-1) n 0 0).
Proof. unfold tally_ok. cbn. split; [done|]. split; [done|]. done. Qed.

Lemma restart_key_cases kc pressed ss :
  restart_key kc pressed ss = ss ∨
  (gameState (restart_key kc pressed ss) = STATE_MENU ∧
   selectedRow (restart_key kc pressed ss) = selectedRow ss ∧
   selectedCol (restart_key kc pressed ss) = selectedCol ss ∧
   mistakeCount (restart_key kc pressed ss) = mistakeCount ss ∧
   score (restart_key kc pressed ss) = score ss).
Proof. unfold restart_key. destruct (pressed _); [by right|by left]. Qed.

Lemma session_inv_restart kc pressed (h : gmap nat (list Cell)) g ss :
  session_inv h g ss → session_inv h g (restart_key kc pressed ss).
Proof.
  intros Hs. destruct (restart_key_cases kc pressed ss) as [->|(Hgs & Hr & Hc & Hm & Hsc)];
    [done|].
  destruct Hs as (Hg & Hsel & _ & (Hm0 & _ & _ & Hs0)).
  split; [done|]. split; [unfold selection_ok, on_board in *; by rewrite Hr, Hc|].
  split; [done|]. unfold tally_ok. rewrite Hgs, Hm, Hsc. done.
Qed.

Lemma frame_session kc probes fuel inp (h : gmap nat (list Cell)) r g ss h' r' g' ss' :
  session_inv h g ss →
  frame kc probes fuel inp (h, r, g, ss) = Some (h', r', g', ss') →
  session_inv h' g' ss'.
Proof.
  intros Hs. pose proof Hs as (Hg & Hsel & Hinv & Ht). unfold frame.
  destruct (gameState ss) eqn:Hgs.
  - intros [[_ [= <- <- <- <-]]|(n & _ & Hgen & ->)]%menu_input_cases; [done|].
    destruct (generate_new_game_inv _ _ _ _ _ _ _ _ _ Hg Hgen) as (Hinv' & Hal & Hok).
    split; [done|]. split; [by left|]. split; [done|]. apply tally_ok_start.
  - destruct (playing_input kc inp g (h, ss)) as [h1 ss1] eqn:Hplay.
    intros [= <- <- <- <-]. destruct Hinv as [Hinv Hal]; [done|].
    pose proof (playing_input_inv _ _ _ _ _ _ _ Hinv Hplay) as Hinv1.
    pose proof (playing_input_tally _ _ _ _ _ _ _ Hplay) as (T & _).
    split; [by apply answer_key_globals|].
    split; [by eapply playing_input_selection|]. split; [done|auto].
  - intros [= <- <- <- <-]. by apply session_inv_restart.
  - intros [= <- <- <- <-]. by apply session_inv_restart.
Qed.

Lemma game_loop_session kc probes fuel inps :
  ∀ (h : gmap nat (list Cell)) r g ss h' r' g' ss',
    session_inv h g ss →
    game_loop kc probes fuel inps (h, r, g, ss) = Some (h', r', g', ss') →
    session_inv h' g' ss'.
Proof.
  induction inps as [|inp inps IH]; intros h r g ss h' r' g' ss' Hs; cbn [game_loop].
  - by intros [= <- <- <- <-].
  - destruct (frame kc probes fuel inp (h, r, g, ss)) as [[[[h1 r1] g1] ss1]|] eqn:Hf; [|done].
    apply IH. by eapply frame_session.
Qed.

Lemma session_inv_initial (h : gmap nat (list Cell)) :
  session_inv h fresh_globals initial_session.
Proof. split; [apply globals_ok_fresh|]. split; [by left|]. split; [done|]. done. Qed.

(** X21.  What is true of every state the game loop of [main] reaches,
    whatever the input: the global grids are unallocated or two distinct
    live 9x9 blocks; the selection is a cell of the board or none; outside
    the menu the solution grid is solved and is the answer key of the
    puzzle; a game being played has fewer than three mistakes, a lost one
    at least three, and the score is never negative. *)
Theorem game_loop_keeps_session kc probes fuel inps
    (h : gmap nat (list Cell)) r h' r' g' ss' :
  game_loop kc probes fuel inps (h, r, fresh_globals, initial_session) =
    Some (h', r', g', ss') →
  session_inv h' g' ss'.
Proof.
  intros Hloop.
  eapply game_loop_session; [|exact Hloop].
  apply session_inv_initial.
Qed.

(** X22.  The states of the session: the menu is left only for a game
    being played, a game being played is left only by winning or losing,
    and the end screens only for the menu; a frame during play leaves the
    globals and the random sequence alone, and a frame of the end screens
    changes nothing but the state. *)
Theorem frame_transitions kc probes fuel inp (h : gmap nat (list Cell)) r g ss h' r' g' ss' :
  session_inv h g ss →
  frame kc probes fuel inp (h, r, g, ss) = Some (h', r', g', ss') →
  match gameState ss with
  | STATE_MENU =>
      (h', r', g', ss') = (h, r, g, ss) ∨ gameState ss' = STATE_PLAYING
  | STATE_PLAYING =>
      gameState ss' ≠ STATE_MENU ∧ g' = g ∧ r' = r
  | STATE_WIN =>
      (gameState ss' = STATE_WIN ∨ gameState ss' = STATE_MENU) ∧ (h', r', g') = (h, r, g)
  | STATE_LOSE =>
      (gameState ss' = STATE_LOSE ∨ gameState ss' = STATE_MENU) ∧ (h', r', g') = (h, r, g)
  end.
Proof.
  intros _. unfold frame. destruct (gameState ss) eqn:Hgs.
  - intros [[_ [= <- <- <- <-]]|(n & _ & _ & ->)]%menu_input_cases; [by left|by right].
  - destruct (playing_input kc inp g (h, ss)) as [h1 ss1] eqn:Hplay.
    intros [= <- <- <- <-].
    apply playing_input_tally in Hplay as (_ & N & _).
    split; [|done]. apply N. by rewrite Hgs.
  - intros [= <- <- <- <-]. split; [|done].
    destruct (restart_key_cases kc (key_pressed inp) ss) as [->|(? & _)]; [by left|by right].
  - intros [= <- <- <- <-]. split; [|done].
    destruct (restart_key_cases kc (key_pressed inp) ss) as [->|(? & _)]; [by left|by right].
Qed.

(** * The heap of the whole run *)

Lemma lookup_game_close (h : gmap nat (list Cell)) s a :
  game_close h s !! a = if decide (a = grid s ∧ a ≠ NULL) then None else h !! a.
Proof.
  unfold game_close. destruct (decide (grid s = NULL)) as [Hn|Hn].
  - rewrite decide_False; [done|]. intros [-> ?]. done.
  - destruct (decide (a = grid s)) as [->|Hne].
    + rewrite decide_True by done. apply lookup_delete_eq.
    + rewrite decide_False by (by intros [? _]). by apply lookup_delete_ne.
Qed.

Lemma owns_only_initial (h : gmap nat (list Cell)) : owns_only h h fresh_globals.
Proof.
  intros a. rewrite decide_False; [done|]. cbn. intros [[->| ->] Ha]; done.
Qed.

Lemma owns_only_new_game probes fuel (h0 h : gmap nat (list Cell)) r g n h' r' g' :
  globals_ok h g → owns_only h0 h g →
  generate_new_game probes fuel h r g n = Some (h', r', g') →
  owns_only h0 h' g'.
Proof.
  intros Hg Hown Hgen.
  destruct (generate_new_game_blocks _ _ _ _ _ _ _ _ _ Hg Hgen)
    as (Hcn & Hsn & Hsk & Hck & Hfr & Hsf & Hcf).
  assert (Hfresh : ∀ a, h !! a = None → h0 !! a = None).
  { intros a Ha. specialize (Hown a). destruct (decide _); [done|congruence]. }
  assert (Hcur : h0 !! grid (current_puzzle_grid g') = None).
  { destruct (decide (grid (current_puzzle_grid g) = NULL)) as [Hn|Hn]; [by apply Hfresh, Hcf|].
    rewrite (Hck Hn). specialize (Hown (grid (current_puzzle_grid g))).
    rewrite decide_True in Hown; [done|]. split; [by left|done]. }
  assert (Hsol : h0 !! grid (solution_grid g') = None).
  { destruct (decide (grid (solution_grid g) = NULL)) as [Hn|Hn]; [by apply Hfresh, Hsf|].
    rewrite (Hsk Hn). specialize (Hown (grid (solution_grid g))).
    rewrite decide_True in Hown; [done|]. split; [by right|done]. }
  intros a. destruct (decide _) as [[[->| ->] _]|Hno]; [done|done|].
  assert (Hac : a ≠ grid (current_puzzle_grid g')).
  { intros ->. apply Hno. split; [by left|done]. }
  assert (Has : a ≠ grid (solution_grid g')).
  { intros ->. apply Hno. split; [by right|done]. }
  rewrite Hfr by done. specialize (Hown a).
  destruct (decide _) as [[[->| ->] Hnn]|_] in Hown; [| |done].
  - by rewrite (Hck Hnn) in Hac.
  - by rewrite (Hsk Hnn) in Has.
Qed.

Lemma frame_owns kc probes fuel inp (h0 h : gmap nat (list Cell)) r g ss h' r' g' ss' :
  session_inv h g ss → owns_only h0 h g →
  frame kc probes fuel inp (h, r, g, ss) = Some (h', r', g', ss') →
  owns_only h0 h' g'.
Proof.
  intros (Hg & _ & Hinv & _) Hown. unfold frame. destruct (gameState ss) eqn:Hgs.
  - intros [[_ [= <- <- <- <-]]|(n & _ & Hgen & _)]%menu_input_cases; [done|].
    by eapply owns_only_new_game.
  - destruct (playing_input kc inp g (h, ss)) as [h1 ss1] eqn:Hplay.
    intros [= <- <- <- <-]. destruct Hinv as [_ [Hcn _]]; [done|].
    apply playing_input_effect in Hplay as [[-> _]|(((Hmod & _) & _) & _)]; [done|].
    intros a. specialize (Hown a). destruct (decide _) as [|Hno]; [done|].
    rewrite Hmod; [done|]. intros ->. apply Hno. split; [by left|done].
  - by intros [= <- <- <- <-].
  - by intros [= <- <- <- <-].
Qed.

Lemma game_loop_owns kc probes fuel inps (h0 : gmap nat (list Cell)) :
  ∀ (h : gmap nat (list Cell)) r g ss h' r' g' ss',
    session_inv h g ss → owns_only h0 h g →
    game_loop kc probes fuel inps (h, r, g, ss) = Some (h', r', g', ss') →
    owns_only h0 h' g'.
Proof.
  induction inps as [|inp inps IH]; intros h r g ss h' r' g' ss' Hs Hown; cbn [game_loop].
  - by intros [= <- <- <- <-].
  - destruct (frame kc probes fuel inp (h, r, g, ss)) as [[[[h1 r1] g1] ss1]|] eqn:Hf; [|done].
    apply IH; [by eapply frame_session|by eapply frame_owns].
Qed.

(** X23.  The process gives back what it takes: whatever the player does
    and however many games are generated, when [main] returns the heap is
    the heap it started with.  Both global grids have been freed (or were
    never allocated), the scratch grid of every generation has been freed,
    and no other block has been touched. *)
Theorem main_restores_heap kc probes fuel inps (h : gmap nat (list Cell)) r h' :
  main kc probes fuel inps h r = Some h' → h' = h.
Proof.
  unfold main.
  destruct (game_loop _ _ _ _ _) as [[[[h1 r1] g1] ss1]|] eqn:Hloop; [|done].
  intros [= <-].
  pose proof (game_loop_owns _ _ _ _ h _ _ _ _ _ _ _ _
                (session_inv_initial h) (owns_only_initial h) Hloop) as Hown.
  apply map_eq. intros a. rewrite !lookup_game_close. specialize (Hown a).
  destruct (decide (a = grid (solution_grid g1) ∧ a ≠ NULL)) as [[-> Hn]|Hns].
  - rewrite decide_True in Hown; [done|]. split; [by right|done].
  - destruct (decide (a = grid (current_puzzle_grid g1) ∧ a ≠ NULL)) as [[-> Hn]|Hnc].
    + rewrite decide_True in Hown; [done|]. split; [by left|done].
    + rewrite decide_False in Hown; [done|]. intros [[->| ->] Hn]; [by apply Hnc|by apply Hns].
Qed.

(** * Array accesses and printed values *)

Lemma on_board_index ss : on_board ss → selected_index ss < 81.
Proof. intros [Hr Hc]. unfold selected_index, COLS. lia. Qed.

(** X24.  Whenever the game loop is in [STATE_PLAYING], both global grids
    have 81 cells; the cell a key acts on, after any click of the frame, has
    an index below 81, so that the accesses [grid[selectedRow * COLS +
    selectedCol]] stay inside the blocks; and every value of the puzzle grid
    is at most 9, a single digit for the two-byte buffer of [draw_values]. *)
Theorem playing_accesses_in_bounds kc probes fuel inps click
    (h : gmap nat (list Cell)) r h' r' g' ss' :
  game_loop kc probes fuel inps (h, r, fresh_globals, initial_session) =
    Some (h', r', g', ss') →
  gameState ss' = STATE_PLAYING →
  length (block h' (current_puzzle_grid g')) = 81 ∧
  length (block h' (solution_grid g')) = 81 ∧
  ((0 ≤ selectedRow (mouse_select click ss'))%Z →
   (0 ≤ selectedCol (mouse_select click ss'))%Z →
   selected_index (mouse_select click ss') < 81) ∧
  (∀ i, i < 81 → value (load h' (current_puzzle_grid g') i) ≤ 9).
Proof.
  intros Hloop Hgs.
  pose proof (game_loop_session _ _ _ _ _ _ _ _ _ _ _ _ (session_inv_initial h) Hloop)
    as (_ & Hsel & Hinv & _).
  destruct Hinv as [(Hwfc & Hwfs & _ & Hsolved & Hkeep & _) _]; [by rewrite Hgs|].
  split; [by rewrite <- length_values, (wf9_length _ _ Hwfc)|].
  split; [by rewrite <- length_values, (wf9_length _ _ Hwfs)|]. split.
  - intros Hr Hc. apply on_board_index.
    destruct (mouse_select_ok click ss' Hsel) as [[? _]|Hon]; [lia|done].
  - intros i Hi. rewrite value_load.
    pose proof (solved_range _ i Hsolved Hi) as Hrange.
    destruct (Hkeep i Hi) as [->| ->]; lia.
Qed.

(** * A sample session *)

Lemma play_wf_cur : wf9 play_heap (current_puzzle_grid play_globals).
Proof.
  apply (wf9_block _ _ (<[0 := mkCell V_None DYNAMIC]> (cells_of solved_vals)));
    [done|done|by vm_compute|by vm_compute].
Qed.

Lemma play_wf_sol : wf9 play_heap (solution_grid play_globals).
Proof.
  apply (wf9_block _ _ (cells_of solved_vals)); [done|done|by vm_compute|by vm_compute].
Qed.

Lemma play_answer_key : answer_key_inv play_heap play_globals.
Proof.
  split; [apply play_wf_cur|]. split; [apply play_wf_sol|]. split; [done|].
  assert (Hsol : values play_heap (solution_grid play_globals) = solved_vals)
    by (by vm_compute).
  split; [rewrite Hsol; apply solved_vals_solved|]. split.
  - assert (H : Forall (λ i, values play_heap (current_puzzle_grid play_globals) !!! i = 0 ∨
                             values play_heap (current_puzzle_grid play_globals) !!! i =
                             values play_heap (solution_grid play_globals) !!! i) (seq 0 81)).
    { eapply bool_decide_unpack. by vm_compute. }
    intros i Hi. rewrite Forall_forall in H. apply H, elem_of_seq. lia.
  - assert (H : Forall (λ i, is_dynamic (type (load play_heap (current_puzzle_grid play_globals)
                                                    i)) = false →
                             value (load play_heap (current_puzzle_grid play_globals) i) ≠ V_None)
                       (seq 0 81)).
    { eapply bool_decide_unpack. by vm_compute. }
    intros i Hi Hfx. rewrite Forall_forall in H.
    apply H; [apply elem_of_seq; lia|by apply is_dynamic_false].
Qed.

Lemma sample_on_board : on_board sample_session.
Proof. split; cbn; lia. Qed.

Lemma sample_selection : selection_ok sample_session.
Proof. right. apply sample_on_board. Qed.

Lemma play_session_inv : session_inv play_heap play_globals sample_session.
Proof.
  split; [apply answer_key_globals, play_answer_key|]. split; [apply sample_selection|].
  split; [intros _; split; [apply play_answer_key|done]|].
  unfold tally_ok. cbn. split; [done|]. split; [done|]. done.
Qed.

Lemma sample_win :
  gameState (number_keys sample_keys (only_key 49) 10 play_globals
               (play_heap, sample_session)).2 = STATE_WIN.
Proof. by vm_compute. Qed.

Lemma sample_dynamic :
  type (load play_heap (current_puzzle_grid play_globals) (selected_index sample_session)) =
  DYNAMIC.
Proof. by vm_compute. Qed.

Lemma sample_right_digit :
  (49 - KEY_ZERO sample_keys =?
   Z.of_nat (value (load play_heap (solution_grid play_globals)
                      (selected_index sample_session))))%Z = true.
Proof. by vm_compute. Qed.

Lemma sample_menu_returns :
  is_Some (menu_input sample_keys (only_key 49) 400 82 ∅ sample_rand fresh_globals
             initial_session).
Proof.
  destruct sample_game35_returns as [[[h' r'] g'] E]. unfold menu_input.
  change (only_key 49 (KEY_ONE sample_keys)) with true. cbn [orb].
  change EASY_CELLS_REMOVED with 35%Z. rewrite E. by eexists.
Qed.

Lemma sample_loop_returns :
  is_Some (game_loop sample_keys 400 82 sample_inputs
             (∅, sample_rand, fresh_globals, initial_session)).
Proof. vm_compute. eexists. reflexivity. Qed.

Lemma sample_start_returns :
  ∃ h' r' g' ss',
    game_loop sample_keys 400 82 [key_only 49] (∅, sample_rand, fresh_globals, initial_session) =
      Some (h', r', g', ss') ∧
    gameState ss' = STATE_PLAYING.
Proof.
  destruct sample_menu_returns as [[[[h' r'] g'] ss'] E].
  exists h', r', g', ss'.
  change (game_loop sample_keys 400 82 [key_only 49]
            (∅, sample_rand, fresh_globals, initial_session))
    with (match menu_input sample_keys (only_key 49) 400 82 ∅ sample_rand fresh_globals
                  initial_session with
          | None => None
          | Some st => Some st
          end).
  rewrite E. split; [done|].
  apply menu_input_cases in E as [[Hno _]|(n & _ & _ & ->)]; [done|done].
Qed.

Lemma sample_main_returns :
  is_Some (main sample_keys 400 82 sample_inputs ∅ sample_rand).
Proof.
  destruct sample_loop_returns as [[[[h' r'] g'] ss'] E]. unfold main. rewrite E. by eexists.
Qed.

Lemma sample_frame_returns :
  is_Some (frame sample_keys 0 0 (key_only 49)
             (play_heap, sample_rand, play_globals, sample_session)).
Proof.
  unfold frame. change (gameState sample_session) with STATE_PLAYING. cbv iota.
  destruct (playing_input _ _ _ _). by eexists.
Qed.

Lemma playing_input_frame_witness :
  selection_ok (playing_input sample_keys (key_only 49) play_globals
                  (play_heap, sample_session)).2.
Proof.
  exact (proj2 (proj2 (proj2 (proj2
    (playing_input_frame sample_keys (key_only 49) play_globals play_heap sample_session
       _ _ play_wf_cur play_wf_sol sample_selection (surjective_pairing _)))))).
Defined.

Lemma playing_input_keeps_answer_key_witness :
  answer_key_inv (playing_input sample_keys (key_only 259) play_globals
                    (play_heap, sample_session)).1 play_globals.
Proof.
  exact (proj1
    (playing_input_keeps_answer_key sample_keys (key_only 259) play_globals play_heap
       sample_session _ _ play_answer_key sample_selection (surjective_pairing _))).
Defined.

Lemma number_keys_win_sound_witness :
  solved (values (number_keys sample_keys (only_key 49) 10 play_globals
                    (play_heap, sample_session)).1 (current_puzzle_grid play_globals)).
Proof.
  refine (proj2
    (number_keys_win_sound sample_keys (only_key 49) 10 play_globals play_heap
       sample_session _ _ play_answer_key sample_selection _ (surjective_pairing _)
       sample_win)).
  discriminate.
Defined.

Lemma playing_input_mistakes_witness :
  (mistakeCount sample_session ≤
   mistakeCount (playing_input sample_keys (key_only 50) play_globals
                   (play_heap, sample_session)).2)%Z.
Proof.
  exact (proj1 (proj2
    (playing_input_mistakes sample_keys (key_only 50) play_globals play_heap
       sample_session _ _ play_answer_key sample_selection (surjective_pairing _)))).
Defined.

Lemma number_keys_guess_witness :
  mistakeCount (number_keys sample_keys (only_key 49) 10 play_globals
                  (play_heap, sample_session)).2 = mistakeCount sample_session.
Proof.
  pose proof (number_keys_guess sample_keys 49 10 play_globals play_heap sample_session
                _ _ play_answer_key sample_on_board eq_refl ltac:(cbn; lia)
                sample_dynamic (surjective_pairing _)) as H.
  rewrite sample_right_digit in H. exact (proj1 (proj2 H)).
Defined.

Lemma menu_input_starts_game_witness :
  ∃ h' r' g' ss',
    menu_input sample_keys (only_key 49) 400 82 ∅ sample_rand fresh_globals initial_session =
      Some (h', r', g', ss') ∧
    answer_key_inv h' g'.
Proof.
  destruct sample_menu_returns as [[[[h' r'] g'] ss'] E].
  exists h', r', g', ss'. split; [exact E|].
  exact (proj1 (proj2 (proj2
    (menu_input_starts_game sample_keys (only_key 49) 400 82 ∅ sample_rand fresh_globals
       initial_session h' r' g' ss' (globals_ok_fresh ∅) E)))).
Defined.

Lemma game_loop_keeps_session_witness :
  ∃ h' r' g' ss',
    game_loop sample_keys 400 82 sample_inputs (∅, sample_rand, fresh_globals, initial_session) =
      Some (h', r', g', ss') ∧
    session_inv h' g' ss'.
Proof.
  destruct sample_loop_returns as [[[[h' r'] g'] ss'] E].
  exists h', r', g', ss'. split; [exact E|].
  exact (game_loop_keeps_session sample_keys 400 82 sample_inputs ∅ sample_rand
           h' r' g' ss' E).
Defined.

Lemma frame_transitions_witness :
  ∃ h' r' g' ss',
    frame sample_keys 0 0 (key_only 49) (play_heap, sample_rand, play_globals, sample_session) =
      Some (h', r', g', ss') ∧
    gameState ss' ≠ STATE_MENU.
Proof.
  destruct sample_frame_returns as [[[[h' r'] g'] ss'] E].
  exists h', r', g', ss'. split; [exact E|].
  exact (proj1
    (frame_transitions sample_keys 0 0 (key_only 49) play_heap sample_rand play_globals
       sample_session h' r' g' ss' play_session_inv E)).
Defined.

Lemma main_restores_heap_witness :
  main sample_keys 400 82 sample_inputs ∅ sample_rand = Some ∅.
Proof.
  destruct sample_main_returns as [h' E]. rewrite E. f_equal.
  exact (main_restores_heap sample_keys 400 82 sample_inputs ∅ sample_rand h' E).
Defined.

Lemma playing_accesses_in_bounds_witness :
  ∃ h' r' g' ss',
    game_loop sample_keys 400 82 [key_only 49] (∅, sample_rand, fresh_globals, initial_session) =
      Some (h', r', g', ss') ∧
    ∀ i, i < 81 → value (load h' (current_puzzle_grid g') i) ≤ 9.
Proof.
  destruct sample_start_returns as (h' & r' & g' & ss' & E & Hgs).
  exists h', r', g', ss'. split; [exact E|].
  exact (proj2 (proj2 (proj2
    (playing_accesses_in_bounds sample_keys 400 82 [key_only 49] None ∅ sample_rand
       h' r' g' ss' E Hgs)))).
Defined.
